(** * QueueCTL: the job state machine, the in-memory queue and the two
      storage backends, embedded from the TypeScript sources.

    Conventions of the embedding.

    - A timestamp is the instant it denotes, in milliseconds since the epoch
      ([Z]).  The sources keep timestamps as the strings produced by
      [Date.prototype.toISOString]; inside the range of [Date] those strings
      and the millisecond instants determine each other.  Job.js and
      Queue.ts convert with [new Date(s)] before they compare; the SQL of
      SqliteStorage.ts compares the strings themselves, which [isoCompare]
      renders on instants.  [new Date(ms).toISOString()] throws outside the
      range of [Date] ([timeClip]).
    - A JavaScript number is an integer ([Z]): the counters are integers,
      and the development covers integer backoff bases (a fractional base,
      which [validate] lets through, and [NaN] are outside it).
      [Math.pow] leaves the integers that a double can hold; what it
      returns is a [Num].
    - A string is a sequence of units, one [ascii] each.  Where the
      characters matter, in [trim], the units are the bytes of the UTF-8
      text, as the string literals of this file hold them; where only
      their number and order matter, in [truncate], they stand for the
      code units.
    - An operation reads the clock as one instant, its parameter [now].
    - A thrown [Error] is a value of [Error]; a method that throws
      returns [Throw e].  Methods of [Job] check their guard before the
      first assignment, so a throwing call leaves the object as it was;
      the exception is [markFailed], which can throw after it has
      assigned and is therefore a computation on the object.  *)

From stdpp Require Import gmap strings list fin_maps.
From Stdlib Require Import ZArith Lia.

Local Open Scope Z_scope.

(** ** Errors and results *)

(** src/types: [JobState] *)
Inductive JobState := pending | processing | completed | failed | dead.

#[global] Instance JobState_eq_dec : EqDecision JobState.
Proof. solve_decision. Defined.

Inductive Error :=
  | IdRequired                              (* 'Job.id is required' *)
  | CommandRequired                         (* 'Job.command is required' *)
  | AttemptsNegative                        (* 'Job.attempts cannot be negative' *)
  | MaxRetriesNegative                      (* 'Job.max_retries cannot be negative' *)
  | BackoffBaseTooSmall                     (* 'Job.backoff_base must be >= 1' *)
  | CannotMarkProcessing (s : JobState)
  | CannotMarkCompleted (s : JobState)
  | CannotMarkFailed (s : JobState)
  | CannotResetForRetry (s : JobState)
  | JobAlreadyExists (id : string)
  | JobNotFound (id : string)
  | EnqueueNotPending (s : JobState)
  | CompleteRequiresProcessing (s : option JobState)
  | FailRequiresProcessing (s : option JobState)
  | RequeueCannotApply (s : JobState)
  | LockTimeout                             (* JsonStorage: failed to acquire lock *)
  | SqliteConstraintPrimaryKey (table id : string)
  | InvalidTimeValue.                       (* RangeError: Invalid time value *)

Inductive result (A : Type) :=
  | Ok (a : A)
  | Throw (e : Error).
Arguments Ok {A} a.
Arguments Throw {A} e.

#[global] Instance result_ret : MRet result := fun A a => Ok a.
#[global] Instance result_bind : MBind result :=
  fun A B f m => match m with Ok a => f a | Throw e => Throw e end.

Definition is_Ok {A} (r : result A) : bool :=
  match r with Ok _ => true | Throw _ => false end.

(** ** A state-and-exception monad for the stateful classes

    A method runs on the object's state and returns a value or throws;
    what it assigned before it threw stays assigned, as in JavaScript. *)

Definition M (S A : Type) : Type := S -> result A * S.

Definition m_ret {S A} (a : A) : M S A := fun s => (Ok a, s).
Definition m_bind {S A B} (m : M S A) (f : A -> M S B) : M S B :=
  fun s => match m s with
           | (Ok a, s') => f a s'
           | (Throw e, s') => (Throw e, s')
           end.
Definition m_throw {S A} (e : Error) : M S A := fun s => (Throw e, s).
Definition m_get {S} : M S S := fun s => (Ok s, s).
Definition m_gets {S A} (f : S -> A) : M S A := fun s => (Ok (f s), s).
Definition m_modify {S} (f : S -> S) : M S unit := fun s => (Ok tt, f s).
Definition m_lift {S A} (r : result A) : M S A := fun s => (r, s).

#[global] Instance M_ret {S} : MRet (M S) := fun A => m_ret.
#[global] Instance M_bind {S} : MBind (M S) := fun A B f m => m_bind m f.

(** ** Job  (dist/core/Job.js) *)

Definition DEFAULT_MAX_RETRIES : Z := 3.
Definition DEFAULT_BACKOFF_BASE : Z := 2.

(** src/types: [JobJSON].  Optional members are [option]s. *)
Record JobJSON := mkJobJSON {
  json_id : string;
  json_command : string;
  json_state : JobState;
  json_attempts : Z;
  json_max_retries : Z;
  json_created_at : Z;
  json_updated_at : Z;
  json_run_at : option Z;
  json_next_attempt_at : option Z;
  json_backoff_base : option Z;
  json_last_error : option string;
}.

(** src/types: [JobInit]; [run_at] may be a [Date] or a string, both are
    the instant they denote. *)
Record JobInit := mkJobInit {
  init_id : option string;
  init_command : string;
  init_max_retries : option Z;
  init_backoff_base : option Z;
  init_run_at : option Z;
}.

(** class [Job]: the same members as [JobJSON]. *)
Record Job := mkJob {
  id : string;
  command : string;
  state : JobState;
  attempts : Z;
  max_retries : Z;
  created_at : Z;
  updated_at : Z;
  run_at : option Z;
  next_attempt_at : option Z;
  backoff_base : option Z;
  last_error : option string;
}.

#[global] Instance Job_eq_dec : EqDecision Job.
Proof. solve_decision. Defined.
#[global] Instance JobJSON_eq_dec : EqDecision JobJSON.
Proof. solve_decision. Defined.

(** What [markFailed] may be handed: an [Error] object, a string, or
    anything else. *)
Inductive Thrown :=
  | ErrorObject (message : string)
  | StringValue (s : string)
  | OtherValue.

(** [String.prototype.trim] strips from both ends the white space and
    line terminator code points of ECMAScript: U+0009 to U+000D, U+0020,
    U+00A0, U+1680, U+2000 to U+200A, U+2028, U+2029, U+202F, U+205F,
    U+3000 and U+FEFF; here by their UTF-8 encodings. *)
Definition white_space : list (list Ascii.ascii) :=
  map (map Ascii.ascii_of_nat)
    [ [9]; [10]; [11]; [12]; [13]; [32];
      [194; 160];
      [225; 154; 128];
      [226; 128; 128]; [226; 128; 129]; [226; 128; 130]; [226; 128; 131];
      [226; 128; 132]; [226; 128; 133]; [226; 128; 134]; [226; 128; 135];
      [226; 128; 136]; [226; 128; 137]; [226; 128; 138];
      [226; 128; 168]; [226; 128; 169]; [226; 128; 175];
      [226; 129; 159];
      [227; 128; 128];
      [239; 187; 191] ]%nat.

(** What follows [p] in [l], when [l] starts with [p]. *)
Fixpoint after_prefix (p l : list Ascii.ascii) : option (list Ascii.ascii) :=
  match p, l with
  | [], _ => Some l
  | a :: p', b :: l' => if Ascii.eqb a b then after_prefix p' l' else None
  | _ :: _, [] => None
  end.

(** What follows the first of [pats] that [l] starts with. *)
Fixpoint after_any (pats : list (list Ascii.ascii)) (l : list Ascii.ascii)
    : option (list Ascii.ascii) :=
  match pats with
  | [] => None
  | p :: ps =>
      match after_prefix p l with
      | Some r => Some r
      | None => after_any ps l
      end
  end.

(** Take [pats] off the front of [l] as long as there is one, at most [n]
    times. *)
Fixpoint strip (n : nat) (pats : list (list Ascii.ascii)) (l : list Ascii.ascii)
    : list Ascii.ascii :=
  match n with
  | O => l
  | S n' =>
      match after_any pats l with
      | Some r => strip n' pats r
      | None => l
      end
  end.

Definition trim_start (s : string) : string :=
  String.string_of_list_ascii
    (strip (String.length s) white_space (String.list_ascii_of_string s)).

Definition trim_end (s : string) : string :=
  String.string_of_list_ascii
    (rev (strip (String.length s) (map (@rev _) white_space)
            (rev (String.list_ascii_of_string s)))).

Definition trim (s : string) : string := trim_end (trim_start s).

(** [toISO(d)]: [undefined] stays [undefined], a present instant is
    normalised to itself. *)
Definition toISO (d : option Z) : option Z := d.

(** What [Math.pow] returns on integer arguments.  A power that a
    double holds is returned as it is.  ECMAScript leaves the last digits
    of the others to the engine: the embedding records which number was
    approximated, not the double that came out. *)
Inductive Num :=
  | Int (z : Z)        (* the double that is the integer [z] *)
  | Rounded (z : Z)    (* [z] is no double: a double next to it, or an
                          infinity when [z] is beyond the largest double *)
  | Fraction (d : Z)   (* a double next to [1/d], for [|d| >= 2] *)
  | Infinity.          (* [Math.pow(0, n)] for [n < 0] *)

(** An odd number with the same trailing zeros stripped. *)
Fixpoint odd_part (p : positive) : positive :=
  match p with
  | xO q => odd_part q
  | _ => p
  end.

(** The integers that are doubles: a significand of at most 53 bits and a
    magnitude below 2^1024. *)
Definition isDouble (z : Z) : bool :=
  match z with
  | Z0 => true
  | Zpos p | Zneg p => (Zpos (odd_part p) <? 2 ^ 53) && (Zpos p <? 2 ^ 1024)
  end.

(** [Math.pow(base, n)] *)
Definition Math_pow (base n : Z) : Num :=
  if 0 <=? n then
    let p := base ^ n in
    if isDouble p then Int p else Rounded p
  else if base =? 0 then Infinity
  else if Z.abs base =? 1 then Int (base ^ (- n))
  else Fraction (base ^ (- n)).

(** The range of [Date]: 8.64e15 milliseconds either side of the epoch.
    [new Date(t).toISOString()] returns the instant inside the range and
    throws [RangeError] outside; [None] is that throw. *)
Definition MAX_TIME : Z := 8640000000000000.

Definition timeClip (t : Z) : option Z :=
  if Z.abs t <=? MAX_TIME then Some t else None.

(** [addSeconds(date, seconds).toISOString()] for a [date] inside the
    range.  An integer number of seconds is added exactly (the sum is
    below 2^53 whenever it is in range).  A number of seconds that no
    double holds is above 2^53 in magnitude, and so are the doubles next
    to it: the sum is out of range whichever of them [Math.pow] returned.
    A fraction of a second comes from a negative exponent, which
    [markFailed] never passes (its exponent is the count of attempts after
    the increment); the sum is then taken exactly and the fraction of a
    millisecond cut off, as [Date] cuts it off. *)
Definition addSeconds (date : Z) (seconds : Num) : option Z :=
  match seconds with
  | Int s => timeClip (date + s * 1000)
  | Rounded _ => None
  | Fraction d => timeClip (Z.quot (date * d + 1000) d)
  | Infinity => None
  end.

Definition is_empty_string (s : string) : bool :=
  match s with EmptyString => true | _ => false end.

(** [Job.prototype.validate] *)
Definition validate (j : Job) : result unit :=
  if is_empty_string (id j) then Throw IdRequired
  else if is_empty_string (command j) then Throw CommandRequired
  else if attempts j <? 0 then Throw AttemptsNegative
  else if max_retries j <? 0 then Throw MaxRetriesNegative
  else if default DEFAULT_BACKOFF_BASE (backoff_base j) <? 1 then Throw BackoffBaseTooSmall
  else Ok tt.

(** [Job.create(init)]; [uuid] is what [randomUUID()] returns. *)
Definition create (uuid : string) (now : Z) (init : JobInit) : result Job :=
  let job := {|
    id := default uuid (init_id init);
    command := trim (init_command init);
    state := pending;
    attempts := 0;
    max_retries := default DEFAULT_MAX_RETRIES (init_max_retries init);
    created_at := now;
    updated_at := now;
    run_at := toISO (init_run_at init);
    next_attempt_at := None;
    backoff_base := Some (default DEFAULT_BACKOFF_BASE (init_backoff_base init));
    last_error := None |} in
  _ ← validate job; Ok job.

(** [Job.fromJSON(json)] *)
Definition fromJSON (json : JobJSON) : result Job :=
  let job := {|
    id := json_id json;
    command := json_command json;
    state := json_state json;
    attempts := json_attempts json;
    max_retries := json_max_retries json;
    created_at := json_created_at json;
    updated_at := json_updated_at json;
    run_at := toISO (json_run_at json);
    next_attempt_at := toISO (json_next_attempt_at json);
    backoff_base := Some (default DEFAULT_BACKOFF_BASE (json_backoff_base json));
    last_error := json_last_error json |} in
  _ ← validate job; Ok job.

(** [Job.prototype.toJSON] *)
Definition toJSON (j : Job) : JobJSON := {|
  json_id := id j;
  json_command := command j;
  json_state := state j;
  json_attempts := attempts j;
  json_max_retries := max_retries j;
  json_created_at := created_at j;
  json_updated_at := updated_at j;
  json_run_at := run_at j;
  json_next_attempt_at := next_attempt_at j;
  json_backoff_base := backoff_base j;
  json_last_error := last_error j |}.

(** [markProcessing]: only [state] and [updated_at] are assigned. *)
Definition markProcessing (now : Z) (j : Job) : result Job :=
  match state j with
  | pending | failed =>
      Ok {| id := id j; command := command j; state := processing;
            attempts := attempts j; max_retries := max_retries j;
            created_at := created_at j; updated_at := now;
            run_at := run_at j; next_attempt_at := next_attempt_at j;
            backoff_base := backoff_base j; last_error := last_error j |}
  | s => Throw (CannotMarkProcessing s)
  end.

Definition markCompleted (now : Z) (j : Job) : result Job :=
  match state j with
  | processing =>
      Ok {| id := id j; command := command j; state := completed;
            attempts := attempts j; max_retries := max_retries j;
            created_at := created_at j; updated_at := now;
            run_at := run_at j; next_attempt_at := None;
            backoff_base := backoff_base j; last_error := None |}
  | s => Throw (CannotMarkCompleted s)
  end.

(** [getBackoffDelaySeconds(attemptNumber)]: [Math.pow(base, attemptNumber)] *)
Definition getBackoffDelaySeconds (j : Job) (attemptNumber : Z) : Num :=
  let base := default DEFAULT_BACKOFF_BASE (backoff_base j) in
  Math_pow base attemptNumber.

Definition errMsg (error : Thrown) : string :=
  match error with
  | ErrorObject m => m
  | StringValue s => s
  | OtherValue => "Unknown error"
  end.

(** [markFailed(error)], on the object.  [attempts], [updated_at],
    [last_error] and then [state] are assigned before the new
    [next_attempt_at] is computed; when that instant is outside the range
    of [Date], [toISOString] throws and the four assignments stay, with
    [next_attempt_at] as it was. *)
Definition markFailed (now : Z) (error : Thrown) : M Job unit :=
  fun j =>
  match state j with
  | processing =>
      let j1 := {| id := id j; command := command j; state := state j;
                   attempts := attempts j + 1; max_retries := max_retries j;
                   created_at := created_at j; updated_at := now;
                   run_at := run_at j; next_attempt_at := next_attempt_at j;
                   backoff_base := backoff_base j;
                   last_error := Some (errMsg error) |} in
      if max_retries j1 <? attempts j1 then
        (Ok tt,
         {| id := id j1; command := command j1; state := dead;
            attempts := attempts j1; max_retries := max_retries j1;
            created_at := created_at j1; updated_at := updated_at j1;
            run_at := run_at j1; next_attempt_at := None;
            backoff_base := backoff_base j1; last_error := last_error j1 |})
      else
        let delaySec := getBackoffDelaySeconds j1 (attempts j1) in
        let j2 := {| id := id j1; command := command j1; state := failed;
                     attempts := attempts j1; max_retries := max_retries j1;
                     created_at := created_at j1; updated_at := updated_at j1;
                     run_at := run_at j1; next_attempt_at := next_attempt_at j1;
                     backoff_base := backoff_base j1;
                     last_error := last_error j1 |} in
        match addSeconds now delaySec with
        | Some t =>
            (Ok tt,
             {| id := id j2; command := command j2; state := state j2;
                attempts := attempts j2; max_retries := max_retries j2;
                created_at := created_at j2; updated_at := updated_at j2;
                run_at := run_at j2; next_attempt_at := Some t;
                backoff_base := backoff_base j2; last_error := last_error j2 |})
        | None => (Throw InvalidTimeValue, j2)
        end
  | s => (Throw (CannotMarkFailed s), j)
  end.

(** The object that [markFailed] leaves when it throws past the range of
    [Date]. *)
Definition failedHalfway (now : Z) (e : Thrown) (j : Job) : Job :=
  {| id := id j; command := command j; state := failed;
     attempts := attempts j + 1; max_retries := max_retries j;
     created_at := created_at j; updated_at := now;
     run_at := run_at j; next_attempt_at := next_attempt_at j;
     backoff_base := backoff_base j; last_error := Some (errMsg e) |}.

(** What a call on a local object returns: the object when the call
    returned, the error when it threw. *)
Definition returned {S A} (r : result A * S) : result S :=
  match r with
  | (Ok _, s) => Ok s
  | (Throw e, _) => Throw e
  end.

Definition isRetryable (j : Job) : bool :=
  (attempts j <? max_retries j)
  && negb (bool_decide (state j = dead))
  && negb (bool_decide (state j = completed)).

(** [isDue(at)] *)
Definition isDue (at_ : Z) (j : Job) : bool :=
  match state j with
  | pending =>
      match run_at j with
      | None => true
      | Some r => r <=? at_
      end
  | failed =>
      if isRetryable j then
        match next_attempt_at j with
        | None => true
        | Some n => n <=? at_
        end
      else false
  | _ => false
  end.

(** [resetForRetry(options)]; [keepAttempts] is [options?.keepAttempts]. *)
Definition resetForRetry (now : Z) (keepAttempts : bool) (j : Job) : result Job :=
  match state j with
  | dead | failed =>
      Ok {| id := id j; command := command j; state := pending;
            attempts := if keepAttempts then attempts j else 0;
            max_retries := max_retries j;
            created_at := created_at j; updated_at := now;
            run_at := run_at j; next_attempt_at := None;
            backoff_base := backoff_base j; last_error := None |}
  | s => Throw (CannotResetForRetry s)
  end.

(** ** Queue  (src/core/Queue.ts)

    The queue keeps references to [Job] objects and calls their methods,
    which assign in place: a method of the queue that mutates the object
    stored under an id updates the entry of [jobs] under that id.  A job
    handed to [enqueue] or [updateJob] is the object as it is at the call;
    what callers do to their references between calls is not a queue
    operation and is not part of a sequence of operations. *)

(** A JavaScript [Set] of ids: its members in insertion order. *)
Definition set_has (x : string) (l : list string) : bool := bool_decide (x ∈ l).
Definition set_add (x : string) (l : list string) : list string :=
  if set_has x l then l else l ++ [x].
Definition set_delete (x : string) (l : list string) : list string :=
  filter (fun y => y ≠ x) l.

(** [byState: Record<JobState, Set<string>>] *)
Record ByState := mkByState {
  bs_pending : list string;
  bs_processing : list string;
  bs_completed : list string;
  bs_failed : list string;
  bs_dead : list string;
}.

Definition bs_get (b : ByState) (s : JobState) : list string :=
  match s with
  | pending => bs_pending b
  | processing => bs_processing b
  | completed => bs_completed b
  | failed => bs_failed b
  | dead => bs_dead b
  end.

Definition bs_set (b : ByState) (s : JobState) (l : list string) : ByState :=
  match s with
  | pending => mkByState l (bs_processing b) (bs_completed b) (bs_failed b) (bs_dead b)
  | processing => mkByState (bs_pending b) l (bs_completed b) (bs_failed b) (bs_dead b)
  | completed => mkByState (bs_pending b) (bs_processing b) l (bs_failed b) (bs_dead b)
  | failed => mkByState (bs_pending b) (bs_processing b) (bs_completed b) l (bs_dead b)
  | dead => mkByState (bs_pending b) (bs_processing b) (bs_completed b) (bs_failed b) l
  end.

Record Queue := mkQueue {
  jobs : gmap string Job;
  stateOf : gmap string JobState;
  byState : ByState;
  insertSeq : Z;
  insertionOrder : gmap string Z;
}.

Module Queue.

(** [new Queue()] *)
Definition empty : Queue :=
  mkQueue ∅ ∅ (mkByState [] [] [] [] []) 0 ∅.

Definition set_jobs (f : gmap string Job -> gmap string Job) (q : Queue) : Queue :=
  mkQueue (f (jobs q)) (stateOf q) (byState q) (insertSeq q) (insertionOrder q).
Definition set_stateOf (f : gmap string JobState -> gmap string JobState) (q : Queue) : Queue :=
  mkQueue (jobs q) (f (stateOf q)) (byState q) (insertSeq q) (insertionOrder q).
Definition set_byState (f : ByState -> ByState) (q : Queue) : Queue :=
  mkQueue (jobs q) (stateOf q) (f (byState q)) (insertSeq q) (insertionOrder q).

(** [this.byState[s].add(id)] and [this.byState[s].delete(id)] *)
Definition bs_add (s : JobState) (x : string) (q : Queue) : Queue :=
  set_byState (fun b => bs_set b s (set_add x (bs_get b s))) q.
Definition bs_delete (s : JobState) (x : string) (q : Queue) : Queue :=
  set_byState (fun b => bs_set b s (set_delete x (bs_get b s))) q.

(** [private moveState(id, next)] *)
Definition moveState (i : string) (next : JobState) (q : Queue) : Queue :=
  let q1 := match stateOf q !! i with
            | Some current =>
                if bool_decide (current = next) then q else bs_delete current i q
            | None => q
            end in
  set_stateOf (fun m => <[i := next]> m) (bs_add next i q1).

(** [private requireJob(id)] *)
Definition requireJob (i : string) : M Queue Job :=
  fun q => match jobs q !! i with
           | Some job => (Ok job, q)
           | None => (Throw (JobNotFound i), q)
           end.

(** A method of the job object stored under key [i] ran and left it as
    [job']: the map sees the mutated object. *)
Definition mutated (i : string) (job' : Job) : M Queue unit :=
  m_modify (set_jobs (fun m => <[i := job']> m)).

(** [enqueue(job)] *)
Definition enqueue (job : Job) : M Queue unit :=
  q ← m_get;
  if bool_decide (is_Some (jobs q !! id job)) then m_throw (JobAlreadyExists (id job))
  else match state job with
       | pending =>
           m_modify (fun q =>
             let q1 := set_jobs (fun m => <[id job := job]> m) q in
             let q2 := set_stateOf (fun m => <[id job := state job]> m) q1 in
             let q3 := bs_add (state job) (id job) q2 in
             mkQueue (jobs q3) (stateOf q3) (byState q3) (insertSeq q3 + 1)
                     (<[id job := insertSeq q3 + 1]> (insertionOrder q3)))
       | s => m_throw (EnqueueNotPending s)
       end.

(** [private effectiveDueAt(job)] *)
Definition effectiveDueAt (now : Z) (job : Job) : option Z :=
  match state job with
  | pending => Some (default (created_at job) (run_at job))
  | failed =>
      if isRetryable job then Some (default now (next_attempt_at job)) else None
  | _ => None
  end.

(** The local [selected: { id, dueAt, seq } | null] of [dequeue]. *)
Record Selected := mkSelected { sel_id : string; sel_dueAt : Z; sel_seq : Z }.

(** The closure [consider] of [dequeue], with [selected] made explicit. *)
Definition consider (q : Queue) (at_ now : Z) (selected : option Selected)
    (i : string) : option Selected :=
  match jobs q !! i with
  | None => selected
  | Some job =>
      if negb (isDue at_ job) then selected
      else match effectiveDueAt now job with
           | None => selected
           | Some dueAt =>
               let seq := default 0 (insertionOrder q !! i) in
               match selected with
               | None => Some (mkSelected i dueAt seq)
               | Some s =>
                   if (dueAt <? sel_dueAt s)
                      || ((dueAt =? sel_dueAt s) && (seq <? sel_seq s))
                   then Some (mkSelected i dueAt seq)
                   else selected
               end
           end
  end.

(** The two [for ... of] loops of [dequeue]. *)
Definition scan (q : Queue) (at_ now : Z) : option Selected :=
  let s1 := foldl (consider q at_ now) None (bs_pending (byState q)) in
  foldl (consider q at_ now) s1 (bs_failed (byState q)).

(** [dequeue(options)]; [at_opt] is [options?.at]. *)
Definition dequeue (at_opt : option Z) (now : Z) : M Queue (option Job) :=
  q ← m_get;
  let at_ := default now at_opt in
  match scan q at_ now with
  | None => m_ret None
  | Some selected =>
      let jobId := sel_id selected in
      job ← requireJob jobId;
      job' ← m_lift (markProcessing now job);
      mutated jobId job' ;;
      m_modify (moveState (id job') processing) ;;
      m_ret (Some job')
  end.

(** [updateJob(updated)] *)
Definition updateJob (updated : Job) : M Queue unit :=
  existing ← requireJob (id updated);
  q ← m_get;
  let prevState := stateOf q !! id existing in
  let nextState := state updated in
  m_modify (set_jobs (fun m => <[id updated := updated]> m)) ;;
  if bool_decide (prevState = Some nextState) then m_ret tt
  else
    m_modify (fun q =>
      let q1 := match prevState with
                | Some p => bs_delete p (id updated) q
                | None => q
                end in
      set_stateOf (fun m => <[id updated := nextState]> m)
                  (bs_add nextState (id updated) q1)).

(** [complete(jobId)] *)
Definition complete (jobId : string) (now : Z) : M Queue Job :=
  job ← requireJob jobId;
  q ← m_get;
  if bool_decide (stateOf q !! jobId = Some processing) then
    job' ← m_lift (markCompleted now job);
    mutated jobId job' ;;
    m_modify (moveState jobId completed) ;;
    m_ret job'
  else m_throw (CompleteRequiresProcessing (stateOf q !! jobId)).

(** [fail(jobId, error)]: [job.markFailed(error)] runs on the stored
    object, so what it assigned before a throw is in the map. *)
Definition fail (jobId : string) (error : Thrown) (now : Z) : M Queue Job :=
  job ← requireJob jobId;
  q ← m_get;
  if bool_decide (stateOf q !! jobId = Some processing) then
    let '(r, job') := markFailed now error job in
    mutated jobId job' ;;
    m_lift r ;;
    (if bool_decide (state job' = dead)
     then m_modify (moveState jobId dead)
     else m_modify (moveState jobId failed)) ;;
    m_ret job'
  else m_throw (FailRequiresProcessing (stateOf q !! jobId)).

(** The fallback branch of [requeue]: [Job] has no [markPending], so the
    three members are assigned directly. *)
Definition markPendingFallback (now : Z) (j : Job) : Job :=
  {| id := id j; command := command j; state := pending;
     attempts := attempts j; max_retries := max_retries j;
     created_at := created_at j; updated_at := now;
     run_at := run_at j; next_attempt_at := None;
     backoff_base := backoff_base j; last_error := last_error j |}.

(** [requeue(jobId)]: both branches do the same assignments. *)
Definition requeue (jobId : string) (now : Z) : M Queue Job :=
  job ← requireJob jobId;
  match state job with
  | failed | processing | pending =>
      let job' := markPendingFallback now job in
      mutated jobId job' ;;
      m_modify (moveState jobId pending) ;;
      m_ret job'
  | s => m_throw (RequeueCannotApply s)
  end.

(** [resetForRetry(jobId, options)] *)
Definition resetForRetry (jobId : string) (keepAttempts : bool) (now : Z)
    : M Queue Job :=
  job ← requireJob jobId;
  job' ← m_lift (resetForRetry now keepAttempts job);
  mutated jobId job' ;;
  m_modify (moveState jobId pending) ;;
  m_ret job'.

End Queue.

(** ** Arrays *)

(** [Array.prototype.findIndex]; [None] is [-1]. *)
Fixpoint findIndex {A} (p : A -> bool) (l : list A) : option nat :=
  match l with
  | [] => None
  | x :: r => if p x then Some 0%nat else S <$> findIndex p r
  end.

(** [Array.prototype.sort(cmp)], which is stable: an element moves in
    front of another only when [cmp] says so. *)
Fixpoint sort_insert {A} (cmp : A -> A -> Z) (x : A) (l : list A) : list A :=
  match l with
  | [] => [x]
  | y :: r => if cmp x y <=? 0 then x :: l else y :: sort_insert cmp x r
  end.

Definition stable_sort {A} (cmp : A -> A -> Z) (l : list A) : list A :=
  foldr (sort_insert cmp) [] l.

(** ** JsonStorage  (src/storage/JsonStorage.ts) *)

(** The directory of the store: the two documents, parsed, and whether the
    sentinel [queue.lock] exists. *)
Record JsonStore := mkJsonStore {
  jobsFile : list JobJSON;
  dlqFile : list JobJSON;
  lockFile : bool;
}.

Module JsonStorage.

Definition readJobs : M JsonStore (list JobJSON) := m_gets jobsFile.
Definition readDLQ : M JsonStore (list JobJSON) := m_gets dlqFile.
Definition writeJobs (l : list JobJSON) : M JsonStore unit :=
  m_modify (fun s => mkJsonStore l (dlqFile s) (lockFile s)).
Definition writeDLQ (l : list JobJSON) : M JsonStore unit :=
  m_modify (fun s => mkJsonStore (jobsFile s) l (lockFile s)).

(** [withLock(fn)].  The lock file is created exclusively; when it exists
    already and nothing removes it, the spin ends in the timeout error.
    The [finally] removes the file whether [fn] returned or threw. *)
Definition withLock {A} (fn : M JsonStore A) : M JsonStore A :=
  fun s =>
    if lockFile s then (Throw LockTimeout, s)
    else
      let '(r, s') := fn (mkJsonStore (jobsFile s) (dlqFile s) true) in
      (r, mkJsonStore (jobsFile s') (dlqFile s') false).

Definition has_id (i : string) (j : JobJSON) : bool :=
  bool_decide (json_id j = i).

(** [enqueue(job)] *)
Definition enqueue (job : Job) : M JsonStore unit :=
  withLock (
    jobs ← readJobs;
    if existsb (has_id (id job)) jobs then m_throw (JobAlreadyExists (id job))
    else writeJobs (jobs ++ [toJSON job])).

(** [update(job)] *)
Definition update (job : Job) : M JsonStore unit :=
  withLock (
    jobs ← readJobs;
    match findIndex (has_id (id job)) jobs with
    | None => m_throw (JobNotFound (id job))
    | Some idx => writeJobs (<[idx := toJSON job]> jobs)
    end).

(** [moveToDLQ(job)] *)
Definition moveToDLQ (job : Job) : M JsonStore unit :=
  withLock (
    jobs ← readJobs;
    dlq ← readDLQ;
    let jobs' := match findIndex (has_id (id job)) jobs with
                 | Some idx => delete idx jobs
                 | None => jobs
                 end in
    let dlq' := dlq ++ [toJSON job] in
    writeJobs jobs';; writeDLQ dlq').

(** [getById(id)] *)
Definition getById (i : string) : M JsonStore (option Job) :=
  jobs ← readJobs;
  match List.find (has_id i) jobs with
  | Some found => job ← m_lift (fromJSON found); m_ret (Some job)
  | None => m_ret None
  end.

(** The module function [effectiveDueAt(j)] of JsonStorage.ts. *)
Definition effectiveDueAt (j : JobJSON) : Z :=
  match json_next_attempt_at j with
  | Some t => t
  | None => default (json_created_at j) (json_run_at j)
  end.

(** The comparator handed to [candidates.sort]. *)
Definition compareCandidates (a b : JobJSON) : Z :=
  let ad := effectiveDueAt a in
  let bd := effectiveDueAt b in
  if bool_decide (ad ≠ bd) then ad - bd
  else json_created_at a - json_created_at b.

(** The loop of [leaseNext] that collects the due documents; hydrating a
    document that does not validate throws. *)
Fixpoint dueCandidates (at_ : Z) (jobs : list JobJSON) : result (list JobJSON) :=
  match jobs with
  | [] => Ok []
  | j :: r =>
      job ← fromJSON j;
      rest ← dueCandidates at_ r;
      Ok (if isDue at_ job then j :: rest else rest)
  end.

(** [{ ...jobs[idx] }] with [state] and [updated_at] assigned. *)
Definition leasedCopy (now : Z) (j : JobJSON) : JobJSON :=
  {| json_id := json_id j; json_command := json_command j;
     json_state := processing;
     json_attempts := json_attempts j; json_max_retries := json_max_retries j;
     json_created_at := json_created_at j; json_updated_at := now;
     json_run_at := json_run_at j;
     json_next_attempt_at := json_next_attempt_at j;
     json_backoff_base := json_backoff_base j;
     json_last_error := json_last_error j |}.

(** [leaseNext(at)]; [at_opt] is the argument, defaulting to the clock. *)
Definition leaseNext (at_opt : option Z) (now : Z) : M JsonStore (option Job) :=
  let at_ := default now at_opt in
  withLock (
    jobs ← readJobs;
    candidates ← m_lift (dueCandidates at_ jobs);
    match stable_sort compareCandidates candidates with
    | [] => m_ret None
    | selected :: _ =>
        match findIndex (has_id (json_id selected)) jobs with
        | None => m_ret None
        | Some idx =>
            match jobs !! idx with
            | None => m_ret None
            | Some j =>
                let leased := leasedCopy now j in
                writeJobs (<[idx := leased]> jobs);;
                job ← m_lift (fromJSON leased);
                m_ret (Some job)
            end
        end
    end).

Fixpoint hydrateAll (l : list JobJSON) : result (list Job) :=
  match l with
  | [] => Ok []
  | j :: r => job ← fromJSON j; rest ← hydrateAll r; Ok (job :: rest)
  end.

(** [list(state)] *)
Definition list_ (st : option JobState) : M JsonStore (list Job) :=
  jobs ← readJobs;
  let filtered := match st with
                  | Some s => List.filter (fun j => bool_decide (json_state j = s)) jobs
                  | None => jobs
                  end in
  m_lift (hydrateAll filtered).

(** [listDLQ()] *)
Definition listDLQ : M JsonStore (list Job) :=
  dlq ← readDLQ;
  m_lift (hydrateAll dlq).

(** [retryFromDLQ(id)] *)
Definition retryFromDLQ (i : string) (now : Z) : M JsonStore (option Job) :=
  withLock (
    jobs ← readJobs;
    dlq ← readDLQ;
    match findIndex (has_id i) dlq with
    | None => m_ret None
    | Some idx =>
        match dlq !! idx with
        | None => m_ret None
        | Some payload =>
            let dlq' := delete idx dlq in
            job0 ← m_lift (fromJSON payload);
            job ← m_lift (resetForRetry now false job0);
            let jobs' :=
              if existsb (has_id (id job)) jobs then
                match findIndex (has_id (id job)) jobs with
                | Some jdx => <[jdx := toJSON job]> jobs
                | None => jobs
                end
              else jobs ++ [toJSON job] in
            writeJobs jobs';; writeDLQ dlq';;
            m_ret (Some job)
        end
    end).

End JsonStorage.

(** ** SqliteStorage  (src/storage/SqliteStorage.ts) *)

(** A row of table [jobs]; a NULL column is [None], so [rowToJSON]
    (which maps NULL to [undefined]) keeps every member. *)
Definition JobsRow : Type := JobJSON.
Definition rowToJSON (row : JobsRow) : JobJSON := row.

(** A row of table [dlq]; [payload] is the document that
    [JSON.stringify] wrote and [JSON.parse] reads back. *)
Record DlqRow := mkDlqRow {
  dlq_id : string;
  payload : JobJSON;
  dead_at : Z;
}.

(** The database: both tables in rowid order.  [id] is the primary key of
    each, which [INSERT] enforces. *)
Record Db := mkDb {
  jobsTable : list JobsRow;
  dlqTable : list DlqRow;
}.

Module SqliteStorage.

(** [this.db.transaction(fn)]: commit when [fn] returns, roll back and
    rethrow when it throws. *)
Definition transaction {A} (fn : M Db A) : M Db A :=
  fun db => match fn db with
            | (Ok a, db') => (Ok a, db')
            | (Throw e, _) => (Throw e, db)
            end.

Definition row_has_id (i : string) (r : JobsRow) : bool :=
  bool_decide (json_id r = i).
Definition dlq_has_id (i : string) (r : DlqRow) : bool :=
  bool_decide (dlq_id r = i).

(** [INSERT INTO jobs (...) VALUES (...)] *)
Definition insertJob (row : JobsRow) : M Db unit :=
  db ← m_get;
  if existsb (row_has_id (json_id row)) (jobsTable db)
  then m_throw (SqliteConstraintPrimaryKey "jobs" (json_id row))
  else m_modify (fun db => mkDb (jobsTable db ++ [row]) (dlqTable db)).

(** [INSERT INTO dlq (id, payload, dead_at) VALUES (?, ?, ?)] *)
Definition insertDlq (row : DlqRow) : M Db unit :=
  db ← m_get;
  if existsb (dlq_has_id (dlq_id row)) (dlqTable db)
  then m_throw (SqliteConstraintPrimaryKey "dlq" (dlq_id row))
  else m_modify (fun db => mkDb (jobsTable db) (dlqTable db ++ [row])).

(** [DELETE FROM jobs WHERE id=?] and [DELETE FROM dlq WHERE id=?] *)
Definition deleteJob (i : string) : M Db unit :=
  m_modify (fun db =>
    mkDb (List.filter (fun r => negb (row_has_id i r)) (jobsTable db)) (dlqTable db)).
Definition deleteDlq (i : string) : M Db unit :=
  m_modify (fun db =>
    mkDb (jobsTable db) (List.filter (fun r => negb (dlq_has_id i r)) (dlqTable db))).

(** [enqueue(job)] *)
Definition enqueue (job : Job) : M Db unit :=
  insertJob (toJSON job).

(** [update(job)]: [UPDATE jobs SET ... WHERE id=@id] *)
Definition update (job : Job) : M Db unit :=
  let j := toJSON job in
  m_modify (fun db =>
    mkDb (List.map (fun r => if row_has_id (json_id j) r then j else r) (jobsTable db))
         (dlqTable db)).

(** [getById(id)] *)
Definition getById (i : string) : M Db (option Job) :=
  db ← m_get;
  match List.find (row_has_id i) (jobsTable db) with
  | Some row => job ← m_lift (fromJSON (rowToJSON row)); m_ret (Some job)
  | None => m_ret None
  end.

(** SQLite compares the timestamps as the TEXT that
    [toISOString] wrote: four digits of year from year 0 to 9999, a sign
    and six digits outside.  ['+'] sorts before ['-'] and both before the
    digits, and before year 0 a later year has the smaller magnitude.
    [yearOf t] is the calendar year of the instant [t]. *)
Definition yearOf (t : Z) : Z :=
  let z := t / 86400000 + 719468 in
  let era := z / 146097 in
  let doe := z - era * 146097 in
  let yoe := (doe - doe / 1460 + doe / 36524 - doe / 146096) / 365 in
  let doy := doe - (365 * yoe + yoe / 4 - yoe / 100) in
  let mp := (5 * doy + 2) / 153 in
  yoe + era * 400 + (if mp <? 10 then 0 else 1).

(** The first instants of year 0 and of year 10000. *)
Definition YEAR_0 : Z := -62167219200000.
Definition YEAR_10000 : Z := 253402300800000.

(** The rank of the first character of the string: ['+'], ['-'], a digit. *)
Definition isoClass (t : Z) : Z :=
  if YEAR_10000 <=? t then 0 else if t <? YEAR_0 then 1 else 2.

(** What the six digits after ['-'] say: the year, counted backwards. *)
Definition isoMinor (t : Z) : Z :=
  if isoClass t =? 1 then - yearOf t else 0.

(** The strings of [a] and [b] compared as TEXT: negative, zero or
    positive. *)
Definition isoCompare (a b : Z) : Z :=
  if bool_decide (isoClass a ≠ isoClass b) then isoClass a - isoClass b
  else if (isoClass a =? 1) && negb (yearOf a =? yearOf b) then yearOf b - yearOf a
  else a - b.

(** The WHERE clause shared by the SELECT and the UPDATE of [leaseNext]. *)
Definition dueRow (t : Z) (r : JobsRow) : bool :=
  match json_state r with
  | pending =>
      match json_run_at r with None => true | Some x => isoCompare x t <=? 0 end
  | failed =>
      match json_next_attempt_at r with
      | None => true
      | Some x => isoCompare x t <=? 0
      end
  | _ => false
  end.

(** [COALESCE(next_attempt_at, run_at, created_at)] *)
Definition coalesceDue (r : JobsRow) : Z :=
  match json_next_attempt_at r with
  | Some t => t
  | None => default (json_created_at r) (json_run_at r)
  end.

(** [ORDER BY COALESCE(...) ASC, created_at ASC] *)
Definition orderBy (a b : JobsRow) : Z :=
  if bool_decide (isoCompare (coalesceDue a) (coalesceDue b) ≠ 0)
  then isoCompare (coalesceDue a) (coalesceDue b)
  else isoCompare (json_created_at a) (json_created_at b).

(** The rows that match the WHERE clause and that no matching row
    precedes in the ORDER BY. *)
Definition firstRows (t : Z) (db : Db) : list JobsRow :=
  let due := List.filter (dueRow t) (jobsTable db) in
  List.filter (fun r => forallb (fun r' => orderBy r r' <=? 0) due) due.

Section Engine.

(** SQL does not say which of the rows that are equal in the ORDER BY key
    [LIMIT 1] returns; SQLite decides by its query plan.  [tie l] is its
    choice among the first rows [l], as a position in [l]. *)
Variable tie : list JobsRow -> nat.

(** [selectStmt.get(nowISO, nowISO)] *)
Definition selectStmt (t : Z) (db : Db) : option string :=
  let firsts := firstRows t db in
  json_id <$> firsts !! (tie firsts `mod` length firsts)%nat.

(** [updateStmt.run({ now, id })]: the new table and [changes]. *)
Definition updateStmt (t : Z) (i : string) (db : Db) : Db * nat :=
  let hit r := row_has_id i r && dueRow t r in
  (mkDb (List.map (fun r => if hit r then JsonStorage.leasedCopy t r else r) (jobsTable db))
        (dlqTable db),
   length (List.filter hit (jobsTable db))).

(** The [for (let i = 0; i < 5; i++)] loop inside the transaction. *)
Fixpoint leaseLoop (n : nat) (t : Z) : M Db (option JobsRow) :=
  match n with
  | O => m_ret None
  | S n' =>
      db ← m_get;
      match selectStmt t db with
      | None => m_ret None
      | Some i =>
          let '(db', changes) := updateStmt t i db in
          m_modify (fun _ => db');;
          if bool_decide (changes = 1%nat)
          then m_ret (List.find (row_has_id i) (jobsTable db'))
          else leaseLoop n' t
      end
  end.

(** [leaseNext(at)] *)
Definition leaseNext (at_opt : option Z) (now : Z) : M Db (option Job) :=
  let at_ := default now at_opt in
  row ← transaction (leaseLoop 5 at_);
  match row with
  | Some r => job ← m_lift (fromJSON (rowToJSON r)); m_ret (Some job)
  | None => m_ret None
  end.

End Engine.

(** An engine that returns the first of the first rows in table order. *)
Definition tieFirst : list JobsRow -> nat := fun _ => 0%nat.

(** [list(state)] *)
Definition list_ (st : option JobState) : M Db (list Job) :=
  db ← m_get;
  let rows := match st with
              | Some s => List.filter (fun r => bool_decide (json_state r = s)) (jobsTable db)
              | None => jobsTable db
              end in
  m_lift (JsonStorage.hydrateAll (List.map rowToJSON rows)).

(** [moveToDLQ(job)] *)
Definition moveToDLQ (job : Job) (now : Z) : M Db unit :=
  let j := toJSON job in
  transaction (
    deleteJob (json_id j);;
    insertDlq (mkDlqRow (json_id j) j now)).

(** [listDLQ()]: a payload that does not hydrate is skipped. *)
Definition listDLQ : M Db (list Job) :=
  db ← m_get;
  let rows := stable_sort (fun a b => dead_at a - dead_at b) (dlqTable db) in
  m_ret (omap (fun r => match fromJSON (payload r) with
                       | Ok job => Some job
                       | Throw _ => None
                       end) rows).

(** [retryFromDLQ(id)] *)
Definition retryFromDLQ (i : string) (now : Z) : M Db (option Job) :=
  transaction (
    db ← m_get;
    match List.find (dlq_has_id i) (dlqTable db) with
    | None => m_ret None
    | Some row =>
        deleteDlq i;;
        j0 ← m_lift (fromJSON (payload row));
        j ← m_lift (resetForRetry now false j0);
        enqueue j;;
        m_ret (Some j)
    end).

End SqliteStorage.

(** ** Lifecycles of a job *)

Definition to_option {A} (r : result A) : option A :=
  match r with Ok a => Some a | Throw _ => None end.

(** What a lease call hands back, when it hands back a job. *)
Definition leased_job {S} (r : result (option Job) * S) : option Job :=
  match fst r with Ok (Some j) => Some j | _ => None end.

(** One step in the life of a job: a transition method of [Job], the
    direct assignments of [Queue.requeue], or the job's persisted document
    being leased by a storage backend and hydrated again. *)
Inductive Transition :=
  | TMarkProcessing (now : Z)
  | TMarkCompleted (now : Z)
  | TMarkFailed (now : Z) (error : Thrown)
  | TResetForRetry (now : Z) (keepAttempts : bool)
  | TRequeue (now : Z)
  | TJsonLease (at_ now : Z)
  | TSqliteLease (at_ : Z).

(** The object after the step, also where [markFailed] threw after it
    had assigned.  [None]: the step threw and left the object as it was,
    or the backend leased nothing. *)
Definition applyTransition (t : Transition) (j : Job) : option Job :=
  match t with
  | TMarkProcessing now => to_option (markProcessing now j)
  | TMarkCompleted now => to_option (markCompleted now j)
  | TMarkFailed now e =>
      match markFailed now e j with
      | (Ok _, j') => Some j'
      | (Throw InvalidTimeValue, j') => Some j'
      | (Throw _, _) => None
      end
  | TResetForRetry now k => to_option (resetForRetry now k j)
  | TRequeue now =>
      match state j with
      | failed | processing | pending => Some (Queue.markPendingFallback now j)
      | _ => None
      end
  | TJsonLease at_ now =>
      leased_job (JsonStorage.leaseNext (Some at_) now (mkJsonStore [toJSON j] [] false))
  | TSqliteLease at_ =>
      leased_job (SqliteStorage.leaseNext SqliteStorage.tieFirst (Some at_) at_
                    (mkDb [toJSON j] []))
  end.

Fixpoint runTransitions (ts : list Transition) (j : Job) : option Job :=
  match ts with
  | [] => Some j
  | t :: r => match applyTransition t j with
              | Some j' => runTransitions r j'
              | None => None
              end
  end.

(** How a [Job] object comes to exist: the two static factories. *)
Inductive Construction :=
  | ByCreate (uuid : string) (now : Z) (init : JobInit)
  | ByFromJSON (json : JobJSON).

Definition construct (c : Construction) : result Job :=
  match c with
  | ByCreate uuid now init => create uuid now init
  | ByFromJSON json => fromJSON json
  end.

(** [job.markProcessing(); job.markFailed(e)] on one object, each call at
    its own time: what the pair did, and the object as it leaves it. *)
Definition failRound (round : Z * Z * Thrown) : M Job unit :=
  let '(t1, t2, e) := round in
  fun j =>
    match markProcessing t1 j with
    | Ok j1 => markFailed t2 e j1
    | Throw err => (Throw err, j)
    end.

(** The pair executed again and again on the same object by a caller
    that catches what a pair throws: what each pair did, in order, and the
    object at the end. *)
Fixpoint failRounds (rounds : list (Z * Z * Thrown)) (j : Job)
    : list (result unit) * Job :=
  match rounds with
  | [] => ([], j)
  | r :: rest =>
      let '(o, j') := failRound r j in
      let '(os, j'') := failRounds rest j' in
      (o :: os, j'')
  end.

(** A job as the factories leave it: it validates and its backoff base is
    present. *)
Definition hydrated (j : Job) : Prop :=
  validate j = Ok tt /\ is_Some (backoff_base j).



(** The lifecycle invariant as first written down: at every point of
    every lifecycle, [next_attempt_at] is set only while the job is
    [failed]. *)
Definition nextAttemptOnlyWhileFailed : Prop :=
  forall uuid now init j0 ts j,
    create uuid now init = Ok j0 ->
    runTransitions ts j0 = Some j ->
    is_Some (next_attempt_at j) -> state j = failed.

(** ** Sequences of Queue operations *)

Inductive Op :=
  | OpEnqueue (job : Job)
  | OpDequeue (at_opt : option Z)
  | OpUpdateJob (updated : Job)
  | OpComplete (jobId : string)
  | OpFail (jobId : string) (error : Thrown)
  | OpRequeue (jobId : string)
  | OpResetForRetry (jobId : string) (keepAttempts : bool).

(** One call at clock reading [now]: the id of the job that [dequeue]
    returned, if the call was a [dequeue] that returned one, and the queue
    after the call. *)
Definition step (now : Z) (op : Op) (q : Queue) : option string * Queue :=
  match op with
  | OpEnqueue job => (None, snd (Queue.enqueue job q))
  | OpDequeue a =>
      match Queue.dequeue a now q with
      | (Ok (Some j), q') => (Some (id j), q')
      | (_, q') => (None, q')
      end
  | OpUpdateJob u => (None, snd (Queue.updateJob u q))
  | OpComplete i => (None, snd (Queue.complete i now q))
  | OpFail i e => (None, snd (Queue.fail i e now q))
  | OpRequeue i => (None, snd (Queue.requeue i now q))
  | OpResetForRetry i k => (None, snd (Queue.resetForRetry i k now q))
  end.

Definition exec (ops : list (Z * Op)) (q : Queue) : Queue :=
  foldl (fun q '(now, op) => snd (step now op q)) q ops.

(** [complete], [fail] or [requeue] called on job [x]. *)
Definition finalizes (x : string) (op : Op) : bool :=
  match op with
  | OpComplete i | OpFail i _ | OpRequeue i => bool_decide (i = x)
  | _ => false
  end.

(** The same, or [updateJob] called with an object whose id is [x]. *)
Definition touches (x : string) (op : Op) : bool :=
  match op with
  | OpUpdateJob u => bool_decide (id u = x)
  | _ => finalizes x op
  end.

(** On a fresh queue: after the calls [pre], a [dequeue] returns job [x];
    after the further calls [mid], another [dequeue] returns [x] again. *)
Definition dequeuedTwice (pre mid : list (Z * Op)) (n1 : Z) (a1 : option Z)
    (n2 : Z) (a2 : option Z) (x : string) : Prop :=
  let q1 := exec pre Queue.empty in
  fst (step n1 (OpDequeue a1) q1) = Some x /\
  fst (step n2 (OpDequeue a2) (exec mid (snd (step n1 (OpDequeue a1) q1)))) = Some x.

(** ** The selection rule of [dequeue], in the words of its description *)

(** Job [job], stored under [i], is in the pending or the failed set and
    is due at [at_]. *)
Definition isCandidate (q : Queue) (at_ : Z) (i : string) (job : Job) : Prop :=
  i ∈ bs_pending (byState q) ++ bs_failed (byState q) /\
  jobs q !! i = Some job /\
  isDue at_ job = true.

(** Effective due time: pending, [run_at] if set else [created_at];
    failed and retryable, [next_attempt_at] if set else now. *)
Definition dueTime (now : Z) (job : Job) : Z :=
  match state job with
  | pending => match run_at job with Some r => r | None => created_at job end
  | _ => match next_attempt_at job with Some n => n | None => now end
  end.

(** The insertion sequence number recorded for [i]. *)
Definition seqOf (q : Queue) (i : string) : Z :=
  default 0 (insertionOrder q !! i).

(** [(d1, s1)] is not after [(d2, s2)] in lexicographic order. *)
Definition lexLe (d1 s1 d2 s2 : Z) : Prop :=
  d1 < d2 \/ (d1 = d2 /\ s1 <= s2).

(** The time a due job was scheduled for, if one was set. *)
Definition scheduledFor (job : Job) : option Z :=
  match state job with
  | pending => run_at job
  | _ => next_attempt_at job
  end.

(** The two delivery properties as first written down.  No job comes out
    of two [dequeue] calls unless [complete], [fail] or [requeue] was
    called on it in between. *)
Definition neverRedelivered : Prop :=
  forall pre mid n1 a1 n2 a2 x,
    dequeuedTwice pre mid n1 a1 n2 a2 x ->
    exists p, p ∈ mid /\ finalizes x (snd p) = true.

(** [dequeue] at query time [at_] returns no job whose effective due time,
    as it stood in the queue, is after [at_]. *)
Definition neverEarly : Prop :=
  forall q at_ now job job' q',
    Queue.dequeue (Some at_) now q = (Ok (Some job'), q') ->
    jobs q !! id job' = Some job ->
    dueTime now job <= at_.

(** What the scan of [dequeue] has established after the ids [seen]. *)
Definition scanned (q : Queue) (at_ now : Z) (seen : list string)
    (selected : option Queue.Selected) : Prop :=
  match selected with
  | None =>
      forall i job, i ∈ seen -> jobs q !! i = Some job -> isDue at_ job = false
  | Some s =>
      Queue.sel_id s ∈ seen /\
      Queue.sel_seq s = seqOf q (Queue.sel_id s) /\
      (exists job, jobs q !! Queue.sel_id s = Some job /\ isDue at_ job = true /\
                   Queue.sel_dueAt s = dueTime now job) /\
      (forall i job, i ∈ seen -> jobs q !! i = Some job -> isDue at_ job = true ->
         lexLe (Queue.sel_dueAt s) (Queue.sel_seq s) (dueTime now job) (seqOf q i))
  end.

(** ** Invariants of the queue's indexes *)

(** The one way an index trails its object: [fail] threw after
    [markFailed] had made the job [failed], and the indexes still say
    [processing]. *)
Definition stranded (s : JobState) (job : Job) : Prop :=
  s = processing /\ state job = failed.

Record QueueInv (q : Queue) : Prop := mkQueueInv {
  inv_sets : forall s i, i ∈ bs_get (byState q) s -> stateOf q !! i = Some s;
  inv_state : forall i s, stateOf q !! i = Some s ->
                exists job, jobs q !! i = Some job /\
                            (state job = s \/ stranded s job);
  inv_key : forall k job, jobs q !! k = Some job -> id job = k;
}.

(** Two queues with the same jobs and indexes (the insertion counter
    aside). *)
Definition sameIndex (q1 q2 : Queue) : Prop :=
  jobs q1 = jobs q2 /\ stateOf q1 = stateOf q2 /\ byState q1 = byState q2.

(** The object under [k] has become [job'] and the indexes were moved to
    its state. *)
Definition relocate (q : Queue) (k : string) (job' : Job) : Queue :=
  Queue.moveState k (state job') (Queue.set_jobs (fun m => <[k := job']> m) q).

(** Job [k] is leased: indexed as [processing], and [processing]. *)
Definition leased (q : Queue) (k : string) : Prop :=
  stateOf q !! k = Some processing /\
  exists job, jobs q !! k = Some job /\ state job = processing.

(** What one call can do to the queue: nothing; relocate one job, which
    the call names or which was not leased; or replace the object of a job
    that the call names by one in the state of the index, or by the one a
    throwing [markFailed] leaves. *)
Definition effectOf (op : Op) (q q' : Queue) : Prop :=
  sameIndex q' q \/
  (exists k job', id job' = k /\ sameIndex q' (relocate q k job') /\
     (touches k op = true \/ ~ leased q k)) \/
  (exists k job' s, id job' = k /\ touches k op = true /\
     stateOf q !! k = Some s /\ (state job' = s \/ stranded s job') /\
     sameIndex q' (Queue.set_jobs (fun m => <[k := job']> m) q)).

(** ** Scenarios on the storage backends *)

(** A job with [max_retries = 1] and [backoff_base = 2] is enqueued at 0,
    leased at 10, fails at 20, and the failure is persisted. *)
Definition retryJobInit : JobInit :=
  mkJobInit (Some "a") "X" (Some 1) (Some 2) None.

(** The caller of [leaseNext] that goes on only with a job in hand. *)
Definition expectJob {S} (l : option Job) : M S Job :=
  match l with
  | Some j => m_ret j
  | None => m_throw (JobNotFound "a")
  end.

(** What the end-to-end run observes along the way. *)
Record Observed := mkObserved {
  afterFirstFailure : Job;
  afterSecondFailure : Job;
  dlqLengthAfterMove : nat;
  afterRetry : Job;
  afterCompletion : Job;
  dlqLengthAtEnd : nat;
}.

(** The whole run on the relational backend, as the worker loop drives
    it: lease, fail, persist; lease again once the retry is due, fail,
    move to the DLQ; revive; lease and complete. *)
Definition endToEndSqlite (tie : list JobsRow -> nat) : M Db Observed :=
  j ← m_lift (create "u" 0 retryJobInit);
  SqliteStorage.enqueue j;;
  l1 ← SqliteStorage.leaseNext tie (Some 10) 10;
  j1 ← expectJob l1;
  f1 ← m_lift (returned (markFailed 20 (StringValue "e1") j1));
  SqliteStorage.update f1;;
  l2 ← SqliteStorage.leaseNext tie (Some 2020) 2020;
  j2 ← expectJob l2;
  f2 ← m_lift (returned (markFailed 2030 (StringValue "e2") j2));
  SqliteStorage.moveToDLQ f2 2030;;
  d1 ← SqliteStorage.listDLQ;
  r ← SqliteStorage.retryFromDLQ "a" 3000;
  r1 ← expectJob r;
  l3 ← SqliteStorage.leaseNext tie (Some 3010) 3010;
  j3 ← expectJob l3;
  c ← m_lift (markCompleted 3020 j3);
  SqliteStorage.update c;;
  d2 ← SqliteStorage.listDLQ;
  m_ret (mkObserved f1 f2 (length d1) r1 c (length d2)).

Definition firstFailureJson : M JsonStore Job :=
  j ← m_lift (create "u" 0 retryJobInit);
  JsonStorage.enqueue j;;
  l ← JsonStorage.leaseNext (Some 10) 10;
  match l with
  | Some l1 =>
      f ← m_lift (returned (markFailed 20 (StringValue "e") l1));
      JsonStorage.update f;;
      m_ret f
  | None => m_throw (JobNotFound "a")
  end.

Definition firstFailureSqlite (tie : list JobsRow -> nat) : M Db Job :=
  j ← m_lift (create "u" 0 retryJobInit);
  SqliteStorage.enqueue j;;
  l ← SqliteStorage.leaseNext tie (Some 10) 10;
  match l with
  | Some l1 =>
      f ← m_lift (returned (markFailed 20 (StringValue "e") l1));
      SqliteStorage.update f;;
      m_ret f
  | None => m_throw (JobNotFound "a")
  end.

(** A job with no retries dies on its first failure and is moved to the
    DLQ; later a new job is enqueued under the same id. *)
Definition deadThenReusedId (tie : list JobsRow -> nat) : M Db unit :=
  j ← m_lift (create "u" 0 (mkJobInit (Some "a") "X" (Some 0) None None));
  SqliteStorage.enqueue j;;
  l ← SqliteStorage.leaseNext tie (Some 10) 10;
  match l with
  | Some l1 =>
      f ← m_lift (returned (markFailed 20 (StringValue "e") l1));
      SqliteStorage.moveToDLQ f 20;;
      j2 ← m_lift (create "u" 30 (mkJobInit (Some "a") "Y" None None None));
      SqliteStorage.enqueue j2
  | None => m_throw (JobNotFound "a")
  end.

(** The same calls on the flat-file backend. *)
Definition deadThenReusedIdJson : M JsonStore unit :=
  j ← m_lift (create "u" 0 (mkJobInit (Some "a") "X" (Some 0) None None));
  JsonStorage.enqueue j;;
  l ← JsonStorage.leaseNext (Some 10) 10;
  match l with
  | Some l1 =>
      f ← m_lift (returned (markFailed 20 (StringValue "e") l1));
      JsonStorage.moveToDLQ f;;
      j2 ← m_lift (create "u" 30 (mkJobInit (Some "a") "Y" None None None));
      JsonStorage.enqueue j2
  | None => m_throw (JobNotFound "a")
  end.

(** ** Shapes of strings and of the state graph *)

(** The string begins, or ends, with a white space character. *)
Definition starts_with_space (s : string) : bool :=
  bool_decide (is_Some (after_any white_space (String.list_ascii_of_string s))).

Definition ends_with_space (s : string) : bool :=
  bool_decide (is_Some (after_any (map (@rev _) white_space)
                          (rev (String.list_ascii_of_string s)))).

(** The edges each step draws between states. *)
Definition legalStep (t : Transition) (s s' : JobState) : bool :=
  match t, s, s' with
  | (TMarkProcessing _ | TJsonLease _ _ | TSqliteLease _), (pending | failed), processing
  | TMarkCompleted _, processing, completed
  | TMarkFailed _ _, processing, (failed | dead)
  | TResetForRetry _ _, (dead | failed), pending
  | TRequeue _, (failed | processing | pending), pending => true
  | _, _, _ => false
  end.

(** ** Queue: the read-only queries  (src/core/Queue.ts) *)

Module QueueQueries.

(** [Number.MAX_SAFE_INTEGER] *)
Definition MAX_SAFE_INTEGER : Z := 2 ^ 53 - 1.

(** [getById(id)] *)
Definition getById (i : string) (q : Queue) : option Job := jobs q !! i.

(** [size()] *)
Definition size (q : Queue) : nat := base.size (jobs q).

(** [list(state)] with a state given:
    [Array.from(this.byState[state]).map(id => this.jobs.get(id)).filter(Boolean)].
    (Without a state, [list] walks the [Map] in insertion order, which
    [jobs] does not record.) *)
Definition list_ (st : JobState) (q : Queue) : list Job :=
  omap (fun i => jobs q !! i) (bs_get (byState q) st).

(** One of the two collecting loops of [getPendingJobs]. *)
Definition collect (dueOnly : bool) (at_ : Z) (q : Queue) (ids : list string)
    : list Job :=
  omap (fun i =>
          match jobs q !! i with
          | Some job => if negb dueOnly || isDue at_ job then Some job else None
          | None => None
          end) ids.

(** The comparator of [getPendingJobs]. *)
Definition compareJobs (q : Queue) (now : Z) (a b : Job) : Z :=
  let ad := default MAX_SAFE_INTEGER (Queue.effectiveDueAt now a) in
  let bd := default MAX_SAFE_INTEGER (Queue.effectiveDueAt now b) in
  if bool_decide (ad ≠ bd) then ad - bd
  else default 0 (insertionOrder q !! id a) - default 0 (insertionOrder q !! id b).

(** [getPendingJobs(opts)]; the three arguments are [opts?.at],
    [opts?.dueOnly] and [opts?.includeFailedRetries]. *)
Definition getPendingJobs (at_opt : option Z) (dueOnly_opt includeFailed_opt : option bool)
    (now : Z) (q : Queue) : list Job :=
  let at_ := default now at_opt in
  let dueOnly := default false dueOnly_opt in
  let includeFailed := default true includeFailed_opt in
  let out := collect dueOnly at_ q (bs_pending (byState q))
             ++ (if includeFailed
                 then collect dueOnly at_ q (bs_failed (byState q))
                 else []) in
  stable_sort (compareJobs q now) out.

End QueueQueries.

(** The queue after a successful [enqueue(job)]. *)
Definition enqueued (q : Queue) (job : Job) : Queue :=
  mkQueue (<[id job := job]> (jobs q))
          (<[id job := pending]> (stateOf q))
          (bs_set (byState q) pending (set_add (id job) (bs_pending (byState q))))
          (insertSeq q + 1)
          (<[id job := insertSeq q + 1]> (insertionOrder q)).

(** What one call does to a queue whose indexes are consistent: nothing;
    the job under an existing id is mutated or replaced and re-indexed; it
    is replaced by an object in the same state; a leased job is left
    [failed] by a throwing [markFailed], the indexes staying as they were;
    or a new job is added. *)
Inductive Effect (q : Queue) : Queue -> Prop :=
  | EffNone : Effect q q
  | EffRelocate k job' :
      id job' = k -> is_Some (jobs q !! k) ->
      Effect q (relocate q k job')
  | EffReplace job' :
      is_Some (jobs q !! id job') ->
      stateOf q !! id job' = Some (state job') ->
      Effect q (Queue.set_jobs (fun m => <[id job' := job']> m) q)
  | EffStrand job' :
      is_Some (jobs q !! id job') ->
      stateOf q !! id job' = Some processing -> state job' = failed ->
      Effect q (Queue.set_jobs (fun m => <[id job' := job']> m) q)
  | EffEnqueue job :
      jobs q !! id job = None -> state job = pending ->
      Effect q (enqueued q job).

(** Everything the indexes of a queue promise. *)
Record QueueWf (q : Queue) : Prop := mkQueueWf {
  wf_inv : QueueInv q;
  wf_member : forall i job, jobs q !! i = Some job ->
                exists s, i ∈ bs_get (byState q) s /\
                          (state job = s \/ stranded s job);
  wf_nodup : forall s, NoDup (bs_get (byState q) s);
  wf_seq_nonneg : 0 <= insertSeq q;
  wf_seq : forall i, is_Some (jobs q !! i) ->
             exists n, insertionOrder q !! i = Some n;
  wf_seq_bound : forall i n, insertionOrder q !! i = Some n ->
                   1 <= n <= insertSeq q /\ is_Some (jobs q !! i);
  wf_seq_inj : forall i j n, insertionOrder q !! i = Some n ->
                 insertionOrder q !! j = Some n -> i = j;
}.

(** One call of a queue method, with what it returns or throws. *)
Definition callOp (now : Z) (op : Op) : M Queue (option Job) :=
  match op with
  | OpEnqueue job => Queue.enqueue job;; m_ret None
  | OpDequeue a => Queue.dequeue a now
  | OpUpdateJob u => Queue.updateJob u;; m_ret None
  | OpComplete i => j ← Queue.complete i now; m_ret (Some j)
  | OpFail i e => j ← Queue.fail i e now; m_ret (Some j)
  | OpRequeue i => j ← Queue.requeue i now; m_ret (Some j)
  | OpResetForRetry i k => j ← Queue.resetForRetry i k now; m_ret (Some j)
  end.

(** [(d1, s1)] is strictly before [(d2, s2)] in lexicographic order. *)
Definition lexLt (d1 s1 d2 s2 : Z) : Prop :=
  d1 < d2 \/ (d1 = d2 /\ s1 < s2).

(** A list whose earlier elements are all [R]-related to its later ones. *)
Definition ordered {A} (R : A -> A -> Prop) (l : list A) : Prop :=
  forall i j a b, (i < j)%nat -> l !! i = Some a -> l !! j = Some b -> R a b.

(** The sort key of [getPendingJobs]: effective due time, or
    [MAX_SAFE_INTEGER] for a job that has none, then insertion sequence. *)
Definition pendingKeyLe (q : Queue) (now : Z) (a b : Job) : Prop :=
  lexLe (default QueueQueries.MAX_SAFE_INTEGER (Queue.effectiveDueAt now a))
        (seqOf q (id a))
        (default QueueQueries.MAX_SAFE_INTEGER (Queue.effectiveDueAt now b))
        (seqOf q (id b)).

(** ** Worker  (src/core/Worker.ts) *)

(** The name of a state as the error messages print it. *)
Definition stateName (s : JobState) : string :=
  match s with
  | pending => "pending"
  | processing => "processing"
  | completed => "completed"
  | failed => "failed"
  | dead => "dead"
  end.

(** [err.message] of the errors of Job.ts and Queue.ts ([undefined]
    prints as "undefined"); the lock timeout with the default budget, and
    the primary key violation as SQLite words it. *)
Definition errorMessage (e : Error) : string :=
  match e with
  | IdRequired => "Job.id is required"
  | CommandRequired => "Job.command is required"
  | AttemptsNegative => "Job.attempts cannot be negative"
  | MaxRetriesNegative => "Job.max_retries cannot be negative"
  | BackoffBaseTooSmall => "Job.backoff_base must be >= 1"
  | CannotMarkProcessing s => "Cannot markProcessing from state: " +:+ stateName s
  | CannotMarkCompleted s => "Cannot markCompleted from state: " +:+ stateName s
  | CannotMarkFailed s => "Cannot markFailed from state: " +:+ stateName s
  | CannotResetForRetry s => "Cannot resetForRetry from state: " +:+ stateName s
  | JobAlreadyExists i => "Job already exists: " +:+ i
  | JobNotFound i => "Job not found: " +:+ i
  | EnqueueNotPending s =>
      "Can only enqueue jobs in 'pending' state (got " +:+ stateName s +:+ ")"
  | CompleteRequiresProcessing s =>
      "complete() requires 'processing' state (got "
      +:+ from_option stateName "undefined" s +:+ ")"
  | FailRequiresProcessing s =>
      "fail() requires 'processing' state (got "
      +:+ from_option stateName "undefined" s +:+ ")"
  | RequeueCannotApply s => "requeue() cannot apply from state " +:+ stateName s
  | LockTimeout => "JsonStorage: failed to acquire lock within 5000ms"
  | SqliteConstraintPrimaryKey t _ => "UNIQUE constraint failed: " +:+ t +:+ ".id"
  | InvalidTimeValue => "Invalid time value"
  end.

(** What the [catch] of a worker loop can hold: what the executor threw,
    or the error of the calls that follow it in the [try] block. *)
Inductive Caught :=
  | ExecutorThrew (t : Thrown)
  | FinalizeThrew (e : Error).

(** The value handed on to [queue.fail]. *)
Definition caughtValue (c : Caught) : Thrown :=
  match c with
  | ExecutorThrew t => t
  | FinalizeThrew e => ErrorObject (errorMessage e)
  end.

(** A call of the [onError] hook, with the id of the job it was given:
    the error of the [fail] transition itself, or the caught error. *)
Inductive Report :=
  | ReportInner (inner : Error) (jobId : string)
  | ReportCaught (err : Caught) (jobId : string).

Record WorkerState := mkWorkerState {
  w_queue : Queue;
  w_inFlight : Z;
  w_reports : list Report;
}.

Module Worker.

(** The body of the loop once a job is in hand: [try], [catch],
    [finally].  [outcome] is what [executor.execute(job)] did: [None] when
    it resolved, the thrown value otherwise.  [t] is the clock at the
    transition. *)
Definition finalize (job : Job) (outcome : option Thrown) (t : Z)
    (w : WorkerState) : WorkerState :=
  let q := w_queue w in
  let inFlight := w_inFlight w + 1 in
  let '(caught, q1) :=
    match outcome with
    | Some thrown => (Some (ExecutorThrew thrown), q)
    | None =>
        match Queue.complete (id job) t q with
        | (Ok _, q') => (None, q')
        | (Throw e, q') => (Some (FinalizeThrew e), q')
        end
    end in
  let '(reports, q2) :=
    match caught with
    | None => ([], q1)
    | Some err =>
        match Queue.fail (id job) (caughtValue err) t q1 with
        | (Ok _, q') => ([ReportCaught err (id job)], q')
        | (Throw inner, q') =>
            ([ReportInner inner (id job); ReportCaught err (id job)], q')
        end
    end in
  mkWorkerState q2 (inFlight - 1) (w_reports w ++ reports).

(** One turn of [while (this.running)]: [Ok true] to go on, [Ok false]
    after [break], [Throw] when [dequeue] threw and the loop's promise is
    rejected.  A turn is the clock at [dequeue], what the executor does
    with a job, and the clock at the transition. *)
Definition turn (stopOnEmpty : bool) (tick : Z * option Thrown * Z)
    (w : WorkerState) : result bool * WorkerState :=
  let '(t1, outcome, t2) := tick in
  match Queue.dequeue (Some t1) t1 (w_queue w) with
  | (Throw e, q') => (Throw e, mkWorkerState q' (w_inFlight w) (w_reports w))
  | (Ok None, q') =>
      (Ok (negb stopOnEmpty), mkWorkerState q' (w_inFlight w) (w_reports w))
  | (Ok (Some job), q') =>
      (Ok true,
       finalize job outcome t2 (mkWorkerState q' (w_inFlight w) (w_reports w)))
  end.


End Worker.




(** ** The storage interface  (src/storage/IStorage.ts)

    The methods of [IStorage]; those that read the clock take the
    reading.  [init] creates what is missing and [close] releases the
    handle; neither touches stored jobs. *)

Class IStorage (St : Type) := {
  storage_enqueue : Job -> M St unit;
  storage_update : Job -> M St unit;
  storage_moveToDLQ : Job -> Z -> M St unit;
  storage_getById : string -> M St (option Job);
  storage_leaseNext : option Z -> Z -> M St (option Job);
  storage_list : option JobState -> M St (list Job);
  storage_listDLQ : M St (list Job);
  storage_retryFromDLQ : string -> Z -> M St (option Job);
}.

#[export] Instance JsonStorage_IStorage : IStorage JsonStore := {|
  storage_enqueue := JsonStorage.enqueue;
  storage_update := JsonStorage.update;
  storage_moveToDLQ := fun job _ => JsonStorage.moveToDLQ job;
  storage_getById := JsonStorage.getById;
  storage_leaseNext := JsonStorage.leaseNext;
  storage_list := JsonStorage.list_;
  storage_listDLQ := JsonStorage.listDLQ;
  storage_retryFromDLQ := JsonStorage.retryFromDLQ;
|}.

#[export] Instance SqliteStorage_IStorage (tie : list JobsRow -> nat)
    : IStorage Db := {|
  storage_enqueue := SqliteStorage.enqueue;
  storage_update := SqliteStorage.update;
  storage_moveToDLQ := SqliteStorage.moveToDLQ;
  storage_getById := SqliteStorage.getById;
  storage_leaseNext := SqliteStorage.leaseNext tie;
  storage_list := SqliteStorage.list_;
  storage_listDLQ := SqliteStorage.listDLQ;
  storage_retryFromDLQ := SqliteStorage.retryFromDLQ;
|}.

(** What [init] leaves in a new directory, and in a new database file. *)
Definition freshJsonStore : JsonStore := mkJsonStore [] [] false.
Definition freshDb : Db := mkDb [] [].

(** A call of a method of the interface, and what it returns. *)
Inductive StorageCall :=
  | CallEnqueue (job : Job)
  | CallUpdate (job : Job)
  | CallMoveToDLQ (job : Job)
  | CallGetById (i : string)
  | CallLeaseNext (at_opt : option Z)
  | CallList (st : option JobState)
  | CallListDLQ
  | CallRetryFromDLQ (i : string).

Inductive Reply :=
  | ReplyVoid
  | ReplyJob (job : option Job)
  | ReplyJobs (l : list Job).

(** The methods of JsonStorage.ts that run under [withLock]. *)
Definition takesLock (c : StorageCall) : bool :=
  match c with
  | CallEnqueue _ | CallUpdate _ | CallMoveToDLQ _
  | CallLeaseNext _ | CallRetryFromDLQ _ => true
  | CallGetById _ | CallList _ | CallListDLQ => false
  end.

Section Storage.

Context {St : Type} `{IStorage St}.

Definition call (now : Z) (c : StorageCall) : M St Reply :=
  match c with
  | CallEnqueue job => storage_enqueue job;; m_ret ReplyVoid
  | CallUpdate job => storage_update job;; m_ret ReplyVoid
  | CallMoveToDLQ job => storage_moveToDLQ job now;; m_ret ReplyVoid
  | CallGetById i => job ← storage_getById i; m_ret (ReplyJob job)
  | CallLeaseNext at_opt => job ← storage_leaseNext at_opt now; m_ret (ReplyJob job)
  | CallList st => l ← storage_list st; m_ret (ReplyJobs l)
  | CallListDLQ => l ← storage_listDLQ; m_ret (ReplyJobs l)
  | CallRetryFromDLQ i => job ← storage_retryFromDLQ i now; m_ret (ReplyJob job)
  end.

(** The store after a sequence of calls, each with its clock reading; a
    call that throws leaves what it had written. *)
Fixpoint runCalls (cs : list (Z * StorageCall)) (st : St) : St :=
  match cs with
  | [] => st
  | (now, c) :: rest => runCalls rest (snd (call now c st))
  end.


End Storage.

(** The ids of the documents of the jobs collection, of the rows of table
    [jobs], and of the rows of table [dlq]. *)
Definition jsonIds (st : JsonStore) : list string := json_id <$> jobsFile st.
Definition jobIds (db : Db) : list string := json_id <$> jobsTable db.
Definition dlqIds (db : Db) : list string := dlq_id <$> dlqTable db.

(** A document that [leaseNext] of the flat-file backend takes for due:
    it hydrates and the job [isDue]. *)
Definition jsonDue (at_ : Z) (d : JobJSON) : bool :=
  match fromJSON d with
  | Ok job => isDue at_ job
  | Throw _ => false
  end.

(** The order in which both backends lease: effective due time, then
    [created_at]. *)
Definition leaseKeyLe (a b : JobJSON) : Prop :=
  lexLe (JsonStorage.effectiveDueAt a) (json_created_at a)
        (JsonStorage.effectiveDueAt b) (json_created_at b).


(** The order in which the SQL of [SqliteStorage.leaseNext] sorts: the
    strings of the effective due time, then those of [created_at], as
    text. *)
Definition sqlKeyLe (a b : JobsRow) : Prop :=
  SqliteStorage.isoCompare (SqliteStorage.coalesceDue a) (SqliteStorage.coalesceDue b) < 0 \/
  (SqliteStorage.isoCompare (SqliteStorage.coalesceDue a) (SqliteStorage.coalesceDue b) = 0 /\
   SqliteStorage.isoCompare (json_created_at a) (json_created_at b) <= 0).

(** A row whose three timestamps are in the years 0000 to 9999. *)
Definition fourDigitYears (r : JobsRow) : Prop :=
  forall t, t = json_created_at r \/ json_run_at r = Some t \/
            json_next_attempt_at r = Some t ->
            SqliteStorage.YEAR_0 <= t < SqliteStorage.YEAR_10000.

(** ** DLQManager  (src/dlq/DLQManager.ts) *)

Module DLQManager.

Section WithStorage.

Context {St : Type} `{IStorage St}.

(** [add(job)] *)
Definition add (job : Job) (now : Z) : M St unit :=
  storage_moveToDLQ job now.

(** The [for (const j of dead)] loop of [sweepDeadToDLQ]; [clock k] is
    the clock at the move that follows [k] moves. *)
Fixpoint sweepLoop (clock : nat -> Z) (deadJobs : list Job) (moved : nat)
    : M St nat :=
  match deadJobs with
  | [] => m_ret moved
  | j :: rest =>
      storage_moveToDLQ j (clock moved);;
      sweepLoop clock rest (S moved)
  end.

(** [sweepDeadToDLQ()] *)
Definition sweepDeadToDLQ (clock : nat -> Z) : M St nat :=
  deadJobs ← storage_list (Some dead);
  sweepLoop clock deadJobs 0%nat.

(** [list()] *)
Definition list_ : M St (list Job) := storage_listDLQ.

(** [retry(jobId)] *)
Definition retry (jobId : string) (now : Z) : M St (option Job) :=
  storage_retryFromDLQ jobId now.

End WithStorage.

End DLQManager.

(** ** The [worker start] command  (src/cli/commands.ts) *)

(** One turn of the loop that leases from storage: the clock at
    [leaseNext], what [executor.execute(job)] did ([None] when it
    resolved), and the clock at [markCompleted], at [markFailed] and at
    [moveToDLQ]. *)
Record Tick := mkTick {
  tk_lease : Z;
  tk_outcome : option Thrown;
  tk_completed : Z;
  tk_failed : Z;
  tk_dlq : Z;
}.

Module WorkerStart.

Section WithStorage.

Context {St : Type} `{IStorage St}.

(** The [try] and [catch] blocks.  The job is one object: when
    [storage.update] throws after [markCompleted], the [catch] block gets
    the job as [markCompleted] left it. *)
Definition settle (job : Job) (tk : Tick) : M St unit :=
  fun s =>
    let '(caught, job1, s1) :=
      match tk_outcome tk with
      | Some thrown => (Some (ExecutorThrew thrown), job, s)
      | None =>
          match markCompleted (tk_completed tk) job with
          | Throw e => (Some (FinalizeThrew e), job, s)
          | Ok job' =>
              match storage_update job' s with
              | (Ok _, s') => (None, job', s')
              | (Throw e, s') => (Some (FinalizeThrew e), job', s')
              end
          end
      end in
    match caught with
    | None => (Ok tt, s1)
    | Some err =>
        match markFailed (tk_failed tk) (caughtValue err) job1 with
        | (Throw e, _) => (Throw e, s1)
        | (Ok _, job2) =>
            if bool_decide (state job2 = dead)
            then storage_moveToDLQ job2 (tk_dlq tk) s1
            else storage_update job2 s1
        end
    end.

(** The body of [while (running)]. *)
Definition turn (tk : Tick) : M St unit :=
  leased ← storage_leaseNext (Some (tk_lease tk)) (tk_lease tk);
  match leased with
  | None => m_ret tt
  | Some job => settle job tk
  end.

(** [loop(slot)] over the turns it makes while [running] stays true. *)
Fixpoint loop (ticks : list Tick) : M St unit :=
  match ticks with
  | [] => m_ret tt
  | tk :: rest => turn tk;; loop rest
  end.

End WithStorage.

End WorkerStart.



(** The documents of the jobs collection that are leased out. *)
Definition processingDocs (l : list JobJSON) : list JobJSON :=
  List.filter (fun d => bool_decide (json_state d = processing)) l.

(** What the flat-file backend holds once a turn has settled a job as
    [job']: the same documents in [processing] as before the turn, and the
    job in the jobs collection, or, when it is dead, at the end of the DLQ
    with no document of its id left in the jobs collection. *)
Definition settledIn (st st' : JsonStore) (job' : Job) : Prop :=
  processingDocs (jobsFile st') = processingDocs (jobsFile st) /\
  if bool_decide (state job' = dead)
  then dlqFile st' = dlqFile st ++ [toJSON job'] /\ id job' ∉ jsonIds st'
  else dlqFile st' = dlqFile st /\ toJSON job' ∈ jobsFile st'.

(** One more document is in [processing] in [st'] than in [st]. *)
Definition oneMoreProcessing (st st' : JsonStore) : Prop :=
  exists pre post doc,
    json_state doc = processing /\ doc ∈ jobsFile st' /\
    processingDocs (jobsFile st) = pre ++ post /\
    processingDocs (jobsFile st') = pre ++ doc :: post.

(** ** Executor  (src/core/Executor.ts) *)

(** [s.slice(0, end)] on a string as the sequence of its code units: a
    negative [end] counts from the end of the string, and both ends are
    clamped to it. *)
Definition slice0 (s : string) (end_ : Z) : string :=
  let len := Z.of_nat (String.length s) in
  let to := if end_ <? 0 then Z.max (len + end_) 0 else Z.min end_ len in
  String.substring 0 (Z.to_nat to) s.

(** [truncate(s, max)], which shortens the error output that goes into
    the message of a failed job. *)
Definition truncate (s : string) (max : Z) : string :=
  if Z.of_nat (String.length s) <=? max then s
  else slice0 s (max - 3) +:+ "...".

(** * Properties *)

(** Unfolds the monad of the stateful classes in a goal. *)
Ltac run_m :=
  unfold mbind, M_bind, m_bind, m_get, m_gets, m_modify, m_throw, m_ret, mret,
         M_ret, m_lift, Queue.requireJob, Queue.mutated.

(** ** The job state machine *)

Section JobFacts.

Implicit Types (j : Job) (now : Z).

Lemma markProcessing_inv now j j' :
  markProcessing now j = Ok j' ->
  (state j = pending \/ state j = failed) /\
  j' = {| id := id j; command := command j; state := processing;
          attempts := attempts j; max_retries := max_retries j;
          created_at := created_at j; updated_at := now;
          run_at := run_at j; next_attempt_at := next_attempt_at j;
          backoff_base := backoff_base j; last_error := last_error j |}.
Proof.
  unfold markProcessing. destruct (state j); intros H; inversion H; auto.
Qed.

Lemma markProcessing_ok now j :
  state j = pending \/ state j = failed -> is_Ok (markProcessing now j) = true.
Proof. unfold markProcessing. intros [-> | ->]; reflexivity. Qed.

Lemma markCompleted_inv now j j' :
  markCompleted now j = Ok j' ->
  state j = processing /\ state j' = completed /\ next_attempt_at j' = None /\
  last_error j' = None /\
  id j' = id j /\ command j' = command j /\ attempts j' = attempts j /\
  max_retries j' = max_retries j /\ backoff_base j' = backoff_base j.
Proof.
  unfold markCompleted. destruct (state j) eqn:E; intros H; inversion H; subst.
  simpl. tauto.
Qed.

Lemma markFailed_inv now e j j' :
  markFailed now e j = (Ok tt, j') ->
  state j = processing /\
  attempts j' = attempts j + 1 /\
  id j' = id j /\ command j' = command j /\
  max_retries j' = max_retries j /\ backoff_base j' = backoff_base j /\
  last_error j' = Some (errMsg e) /\
  ((max_retries j < attempts j + 1 /\ state j' = dead /\ next_attempt_at j' = None)
   \/ (attempts j + 1 <= max_retries j /\ state j' = failed /\
       exists t, next_attempt_at j' = Some t /\
                 addSeconds now (getBackoffDelaySeconds j (attempts j + 1)) = Some t)).
Proof.
  unfold markFailed. destruct (state j) eqn:E; intros H; try discriminate.
  cbn [attempts max_retries] in H.
  destruct (max_retries j <? attempts j + 1) eqn:Hlt.
  - inversion H; subst; simpl. apply Z.ltb_lt in Hlt. repeat split; auto.
  - unfold getBackoffDelaySeconds in *. cbn [backoff_base] in H.
    destruct (addSeconds _ _) as [t|] eqn:Ht; inversion H; subst; simpl.
    apply Z.ltb_ge in Hlt. repeat split; auto. right. eauto.
Qed.

Lemma markFailed_throw_inv now e j err j' :
  markFailed now e j = (Throw err, j') ->
  (err = CannotMarkFailed (state j) /\ state j <> processing /\ j' = j) \/
  (err = InvalidTimeValue /\ state j = processing /\
   attempts j + 1 <= max_retries j /\ j' = failedHalfway now e j /\
   addSeconds now (getBackoffDelaySeconds j (attempts j + 1)) = None).
Proof.
  unfold markFailed.
  destruct (state j) eqn:E; intros H;
    try (left; inversion H; subst; split; [reflexivity | split; [discriminate | reflexivity]]).
  cbn [attempts max_retries] in H.
  destruct (max_retries j <? attempts j + 1) eqn:Hlt; [discriminate|].
  unfold getBackoffDelaySeconds in *. cbn [backoff_base] in H.
  destruct (addSeconds _ _) as [t|] eqn:Ht; inversion H; subst.
  apply Z.ltb_ge in Hlt. right. repeat split; auto.
Qed.

(** On a leased job [markFailed] returns, or throws past the range of
    [Date]. *)
Lemma markFailed_ok now e j :
  state j = processing ->
  (exists j', markFailed now e j = (Ok tt, j')) \/
  markFailed now e j = (Throw InvalidTimeValue, failedHalfway now e j).
Proof.
  unfold markFailed, failedHalfway. intros ->. cbn [attempts max_retries].
  destruct (_ <? _); [eauto|].
  destruct (addSeconds _ _); eauto.
Qed.

Lemma resetForRetry_inv now k j j' :
  resetForRetry now k j = Ok j' ->
  (state j = dead \/ state j = failed) /\
  state j' = pending /\ next_attempt_at j' = None /\ last_error j' = None /\
  attempts j' = (if k then attempts j else 0) /\
  id j' = id j /\ command j' = command j /\
  max_retries j' = max_retries j /\ backoff_base j' = backoff_base j.
Proof.
  unfold resetForRetry. destruct (state j) eqn:E; intros H; inversion H; subst;
    simpl; tauto.
Qed.

(** What [validate] accepts. *)
Lemma validate_ok_iff j :
  validate j = Ok tt <->
  id j <> EmptyString /\ command j <> EmptyString /\ 0 <= attempts j /\
  0 <= max_retries j /\ 1 <= default DEFAULT_BACKOFF_BASE (backoff_base j).
Proof.
  unfold validate.
  destruct (id j) eqn:Ei; simpl.
  { split; [discriminate | intros [H _]; congruence]. }
  destruct (command j) eqn:Ec; simpl.
  { split; [discriminate | intros (_ & H & _); congruence]. }
  destruct (attempts j <? 0) eqn:Ea.
  { apply Z.ltb_lt in Ea. split; [discriminate | lia]. }
  destruct (max_retries j <? 0) eqn:Em.
  { apply Z.ltb_lt in Em. split; [discriminate | lia]. }
  destruct (_ <? 1) eqn:Eb.
  { apply Z.ltb_lt in Eb. split; [discriminate | lia]. }
  apply Z.ltb_ge in Ea, Em, Eb. split; [|reflexivity].
  intros _. repeat split; auto; discriminate.
Qed.

Lemma validate_cases j : validate j = Ok tt \/ exists e, validate j = Throw e.
Proof.
  destruct (validate j) as [[]|e]; eauto.
Qed.

Lemma create_inv uuid now init j :
  create uuid now init = Ok j ->
  validate j = Ok tt /\ state j = pending /\ attempts j = 0 /\
  next_attempt_at j = None /\
  max_retries j = default DEFAULT_MAX_RETRIES (init_max_retries init) /\
  backoff_base j = Some (default DEFAULT_BACKOFF_BASE (init_backoff_base init)).
Proof.
  unfold create. intros H.
  match type of H with context [validate ?x] =>
    destruct (validate_cases x) as [Hv | [e Hv]]; rewrite Hv in H; simpl in H
  end; [|discriminate].
  inversion H; subst. simpl. repeat split; auto.
Qed.

Lemma fromJSON_inv json j :
  fromJSON json = Ok j ->
  validate j = Ok tt /\
  j = {| id := json_id json; command := json_command json;
         state := json_state json; attempts := json_attempts json;
         max_retries := json_max_retries json;
         created_at := json_created_at json; updated_at := json_updated_at json;
         run_at := json_run_at json; next_attempt_at := json_next_attempt_at json;
         backoff_base := Some (default DEFAULT_BACKOFF_BASE (json_backoff_base json));
         last_error := json_last_error json |}.
Proof.
  unfold fromJSON. intros H.
  match type of H with context [validate ?x] =>
    destruct (validate_cases x) as [Hv | [e Hv]]; rewrite Hv in H; simpl in H
  end; [|discriminate].
  inversion H; subst. auto.
Qed.

Lemma fromJSON_valid json :
  validate {| id := json_id json; command := json_command json;
         state := json_state json; attempts := json_attempts json;
         max_retries := json_max_retries json;
         created_at := json_created_at json; updated_at := json_updated_at json;
         run_at := json_run_at json; next_attempt_at := json_next_attempt_at json;
         backoff_base := Some (default DEFAULT_BACKOFF_BASE (json_backoff_base json));
         last_error := json_last_error json |} = Ok tt ->
  fromJSON json = Ok {| id := json_id json; command := json_command json;
         state := json_state json; attempts := json_attempts json;
         max_retries := json_max_retries json;
         created_at := json_created_at json; updated_at := json_updated_at json;
         run_at := json_run_at json; next_attempt_at := json_next_attempt_at json;
         backoff_base := Some (default DEFAULT_BACKOFF_BASE (json_backoff_base json));
         last_error := json_last_error json |}.
Proof. unfold fromJSON, toISO. intros ->. reflexivity. Qed.

End JobFacts.

(** ** Backoff *)










(** ** Retry budget *)

Lemma failRound_spec (r : Z * Z * Thrown) (j : Job) :
  state j = pending \/ state j = failed ->
  exists o j', failRound r j = (o, j') /\
    (o = Ok tt \/ o = Throw InvalidTimeValue) /\
    attempts j' = attempts j + 1 /\
    max_retries j' = max_retries j /\
    state j' = (if attempts j + 1 <=? max_retries j then failed else dead) /\
    (state j' = dead -> o = Ok tt).
Proof.
  intros Hs. destruct r as [[t1 t2] e]. unfold failRound.
  destruct (markProcessing t1 j) as [j1|err] eqn:E1.
  2:{ pose proof (markProcessing_ok t1 j Hs) as Hok. rewrite E1 in Hok. discriminate. }
  apply markProcessing_inv in E1. destruct E1 as [_ ->].
  match goal with |- context [markFailed t2 e ?x] =>
    destruct (markFailed_ok t2 e x eq_refl) as [[j2 E2] | E2]; rewrite E2
  end.
  - exists (Ok tt), j2. split; [reflexivity|]. split; [auto|].
    apply markFailed_inv in E2. simpl in E2.
    destruct E2 as (_ & Ha & _ & _ & Hm & _ & _ & [(Hlt & Hd & _) | (Hle & Hf & _)]).
    + repeat split; auto.
      destruct (Z.leb_spec (attempts j + 1) (max_retries j)); [lia|auto].
    + repeat split; auto.
      destruct (Z.leb_spec (attempts j + 1) (max_retries j)); [auto|lia].
  - pose proof E2 as E3. apply markFailed_throw_inv in E3.
    destruct E3 as [(_ & Hns & _) | (_ & _ & Hle & _ & _)]; [simpl in Hns; congruence|].
    simpl in Hle.
    eexists _, _. split; [reflexivity|]. split; [auto|]. simpl.
    repeat split; auto.
    + destruct (Z.leb_spec (attempts j + 1) (max_retries j)); [auto|lia].
    + discriminate.
Qed.

Lemma failRounds_spec (rounds : list (Z * Z * Thrown)) :
  forall j : Job,
    state j = pending \/ state j = failed ->
    rounds <> [] ->
    attempts j + Z.of_nat (length rounds) <= max_retries j + 1 ->
    exists os j', failRounds rounds j = (os, j') /\
      length os = length rounds /\
      Forall (fun o => o = Ok tt \/ o = Throw InvalidTimeValue) os /\
      attempts j' = attempts j + Z.of_nat (length rounds) /\
      state j' = (if attempts j' <=? max_retries j then failed else dead) /\
      (state j' = dead -> last os = Some (Ok tt)).
Proof.
  induction rounds as [|r rest IH]; intros j Hs Hne Hlen; [congruence|].
  destruct (failRound_spec r j Hs) as (o & j1 & E1 & Ho & Ha & Hm & Hst & Hd).
  cbn [failRounds]. rewrite E1.
  destruct rest as [|r2 rest'].
  - exists [o], j1. split; [reflexivity|]. split; [reflexivity|].
    split; [constructor; [exact Ho | constructor]|]. split.
    + rewrite Ha. simpl. lia.
    + split; [rewrite Hst, Ha; reflexivity|].
      intros Hdead. simpl. f_equal. auto.
  - destruct (IH j1) as (os & j' & E & Hl & Hall & Ha' & Hs' & Hd').
    + right. rewrite Hst.
      cbn [length] in Hlen.
      destruct (Z.leb_spec (attempts j + 1) (max_retries j)); [reflexivity|lia].
    + discriminate.
    + rewrite Ha, Hm. cbn [length] in *. lia.
    + rewrite E. exists (o :: os), j'. split; [reflexivity|].
      split; [cbn [length] in *; lia|].
      split; [constructor; assumption|]. split.
      * rewrite Ha', Ha. cbn [length]. lia.
      * split; [rewrite Hs', Hm; reflexivity|].
        intros Hdead. specialize (Hd' Hdead).
        destruct os as [|o' os']; [discriminate|]. exact Hd'.
Qed.

(** C4.  A job created with [max_retries = m >= 0] and
    [backoff_base = b >= 1] goes through [k] rounds of
    [markProcessing(); markFailed(e)] on the same object,
    [1 <= k <= m + 1].  After them [attempts] is [k], and the state is
    [failed] while [k <= m] and [dead] when [k = m + 1].  Each round
    returns or throws the [RangeError] of a retry time outside the range
    of [Date], which leaves the state and the count as if it had returned;
    the round that makes the job [dead] returns. *)
Theorem retry_budget_exhaustion :
  forall (uuid : string) (now m b : Z) (i : option string) (cmd : string)
         (r : option Z) (j0 : Job) (rounds : list (Z * Z * Thrown)),
    0 <= m -> 1 <= b ->
    create uuid now (mkJobInit i cmd (Some m) (Some b) r) = Ok j0 ->
    (1 <= length rounds)%nat ->
    Z.of_nat (length rounds) <= m + 1 ->
    exists outcomes j, failRounds rounds j0 = (outcomes, j) /\
      attempts j = Z.of_nat (length rounds) /\
      state j = (if Z.of_nat (length rounds) <=? m then failed else dead) /\
      length outcomes = length rounds /\
      Forall (fun o => o = Ok tt \/ o = Throw InvalidTimeValue) outcomes /\
      (Z.of_nat (length rounds) = m + 1 -> last outcomes = Some (Ok tt)).
Proof.
  intros uuid now m b i cmd r j0 rounds Hm Hb Hc Hk1 Hk2.
  apply create_inv in Hc. destruct Hc as (_ & Hs & Ha & _ & Hmr & _).
  simpl in Hmr.
  destruct (failRounds_spec rounds j0) as (os & j & E & Hl & Hall & Ha' & Hs' & Hd).
  - left. exact Hs.
  - destruct rounds; [simpl in Hk1; lia | discriminate].
  - rewrite Ha, Hmr. lia.
  - exists os, j. split; [exact E|]. rewrite Ha in Ha'. simpl in Ha'.
    split; [exact Ha'|]. split; [rewrite Hs', Ha', Hmr; reflexivity|].
    split; [exact Hl|]. split; [exact Hall|].
    intros Hk. apply Hd. rewrite Hs', Ha', Hmr.
    destruct (Z.leb_spec (0 + Z.of_nat (length rounds)) m); [lia | reflexivity].
Qed.

Lemma retry_budget_exhaustion_witness :
  let j0 := mkJob "a" "X" pending 0 1 0 0 None None (Some 2) None in
  create "u" 0 (mkJobInit (Some "a") "X" (Some 1) (Some 2) None) = Ok j0 /\
  exists outcomes j,
    failRounds [(10, 20, StringValue "e1"); (3000, 3010, StringValue "e2")] j0
      = (outcomes, j) /\
    attempts j = 2 /\ state j = dead /\
    length outcomes = 2%nat /\
    Forall (fun o => o = Ok tt \/ o = Throw InvalidTimeValue) outcomes /\
    (2 = 1 + 1 -> last outcomes = Some (Ok tt)).
Proof.
  intros j0. split; [reflexivity|].
  apply (retry_budget_exhaustion "u" 0 1 2 (Some "a") "X" None j0
           [(10, 20, StringValue "e1"); (3000, 3010, StringValue "e2")]).
  - lia.
  - lia.
  - reflexivity.
  - simpl. lia.
  - simpl. lia.
Defined.

(** ** Leasing the document of one job *)

Lemma has_id_refl (d : JobJSON) : JsonStorage.has_id (json_id d) d = true.
Proof. unfold JsonStorage.has_id. apply bool_decide_eq_true. reflexivity. Qed.

Lemma has_id_toJSON (j : Job) : JsonStorage.has_id (id j) (toJSON j) = true.
Proof. apply (has_id_refl (toJSON j)). Qed.

Lemma leasedCopy_id now (d : JobJSON) :
  json_id (JsonStorage.leasedCopy now d) = json_id d.
Proof. reflexivity. Qed.

Lemma json_lease_inv (at_ now : Z) (j j' : Job) :
  applyTransition (TJsonLease at_ now) j = Some j' ->
  fromJSON (JsonStorage.leasedCopy now (toJSON j)) = Ok j' /\
  exists jh, fromJSON (toJSON j) = Ok jh /\ isDue at_ jh = true.
Proof.
  cbn [applyTransition]. unfold leased_job, JsonStorage.leaseNext, JsonStorage.withLock.
  cbn [lockFile jobsFile dlqFile default].
  unfold mbind, M_bind, m_bind, JsonStorage.readJobs, m_gets, m_lift.
  cbn [jobsFile JsonStorage.dueCandidates].
  destruct (fromJSON (toJSON j)) as [jh|e] eqn:Eh; cbn; [|discriminate].
  destruct (isDue at_ jh) eqn:Ed; cbn; [|discriminate].
  rewrite has_id_toJSON. cbn.
  destruct (fromJSON (JsonStorage.leasedCopy now (toJSON j))) as [jl|e] eqn:El; cbn;
    [|discriminate].
  intros H. inversion H; subst. split; [reflexivity|]. exists jh. auto.
Qed.

Lemma row_has_id_refl (r : JobsRow) : SqliteStorage.row_has_id (json_id r) r = true.
Proof. unfold SqliteStorage.row_has_id. apply bool_decide_eq_true. reflexivity. Qed.

Lemma leaseLoop_step tie (n : nat) (t : Z) (db : Db) :
  SqliteStorage.leaseLoop tie (S n) t db =
  match SqliteStorage.selectStmt tie t db with
  | None => (Ok None, db)
  | Some i =>
      if bool_decide (snd (SqliteStorage.updateStmt t i db) = 1%nat)
      then (Ok (List.find (SqliteStorage.row_has_id i)
                  (jobsTable (fst (SqliteStorage.updateStmt t i db)))),
            fst (SqliteStorage.updateStmt t i db))
      else SqliteStorage.leaseLoop tie n t (fst (SqliteStorage.updateStmt t i db))
  end.
Proof.
  cbn [SqliteStorage.leaseLoop]. unfold mbind, M_bind, m_bind, m_get.
  destruct (SqliteStorage.selectStmt tie t db) as [i|]; [|reflexivity].
  destruct (SqliteStorage.updateStmt t i db) as [db' changes]. cbn.
  destruct (bool_decide (changes = 1%nat)); reflexivity.
Qed.

Lemma isoCompare_refl (a : Z) : SqliteStorage.isoCompare a a = 0.
Proof.
  unfold SqliteStorage.isoCompare.
  rewrite bool_decide_eq_false_2 by (intros H; apply H; reflexivity).
  rewrite Z.eqb_refl, andb_false_r. lia.
Qed.

Lemma orderBy_refl (r : JobsRow) : SqliteStorage.orderBy r r = 0.
Proof.
  unfold SqliteStorage.orderBy. rewrite !isoCompare_refl.
  rewrite bool_decide_eq_false_2 by (intros H; apply H; reflexivity).
  reflexivity.
Qed.

Lemma select_single tie (t : Z) (r : JobsRow) (d : list DlqRow) :
  SqliteStorage.selectStmt tie t (mkDb [r] d) =
  if SqliteStorage.dueRow t r then Some (json_id r) else None.
Proof.
  unfold SqliteStorage.selectStmt, SqliteStorage.firstRows.
  cbn [jobsTable List.filter].
  destruct (SqliteStorage.dueRow t r); [|reflexivity].
  cbn [List.filter forallb]. rewrite orderBy_refl. cbn [Z.leb Z.compare andb length].
  rewrite Nat.mod_1_r. reflexivity.
Qed.

Lemma update_single (t : Z) (r : JobsRow) (d : list DlqRow) :
  SqliteStorage.dueRow t r = true ->
  SqliteStorage.updateStmt t (json_id r) (mkDb [r] d) =
  (mkDb [JsonStorage.leasedCopy t r] d, 1%nat).
Proof.
  intros Hd. unfold SqliteStorage.updateStmt. cbn.
  rewrite row_has_id_refl, Hd. reflexivity.
Qed.

Lemma sqlite_lease_inv (at_ : Z) (j j' : Job) :
  applyTransition (TSqliteLease at_) j = Some j' ->
  fromJSON (JsonStorage.leasedCopy at_ (toJSON j)) = Ok j' /\
  SqliteStorage.dueRow at_ (toJSON j) = true.
Proof.
  cbn [applyTransition]. unfold leased_job, SqliteStorage.leaseNext.
  change (default at_ (Some at_)) with at_.
  unfold mbind, M_bind, m_bind, SqliteStorage.transaction.
  rewrite leaseLoop_step, select_single.
  destruct (SqliteStorage.dueRow at_ (toJSON j)) eqn:Ed; [|discriminate].
  rewrite update_single by exact Ed. cbn [fst snd jobsTable].
  rewrite bool_decide_eq_true_2 by reflexivity. cbn [List.find].
  change (json_id (toJSON j)) with (json_id (JsonStorage.leasedCopy at_ (toJSON j))).
  rewrite row_has_id_refl. unfold m_lift, rowToJSON.
  destruct (fromJSON (JsonStorage.leasedCopy at_ (toJSON j))) as [jl|e] eqn:El; cbn;
    [|discriminate].
  intros H. inversion H; subst. auto.
Qed.

Lemma markFailed_step_snd now e (j j' : Job) :
  applyTransition (TMarkFailed now e) j = Some j' -> j' = snd (markFailed now e j).
Proof.
  cbn [applyTransition].
  destruct (markFailed now e j) as [[[]|err] x]; [|destruct err];
    intros H; inversion H; reflexivity.
Qed.

(** What [markFailed] never assigns. *)
Lemma markFailed_keeps now e (j : Job) :
  id (snd (markFailed now e j)) = id j /\
  command (snd (markFailed now e j)) = command j /\
  max_retries (snd (markFailed now e j)) = max_retries j /\
  created_at (snd (markFailed now e j)) = created_at j /\
  run_at (snd (markFailed now e j)) = run_at j /\
  backoff_base (snd (markFailed now e j)) = backoff_base j.
Proof.
  unfold markFailed. destruct (state j); simpl; auto 10.
  destruct (_ <? _); simpl; auto 10.
  destruct (addSeconds _ _); simpl; auto 10.
Qed.

(** What a [markFailed] step leaves, returned or thrown past the range of
    [Date]. *)
Lemma markFailed_step now e (j j' : Job) :
  applyTransition (TMarkFailed now e) j = Some j' ->
  state j = processing /\
  attempts j' = attempts j + 1 /\
  id j' = id j /\ command j' = command j /\
  max_retries j' = max_retries j /\ backoff_base j' = backoff_base j /\
  last_error j' = Some (errMsg e) /\
  ((max_retries j < attempts j + 1 /\ state j' = dead /\ next_attempt_at j' = None)
   \/ (attempts j + 1 <= max_retries j /\ state j' = failed)).
Proof.
  cbn [applyTransition].
  destruct (markFailed now e j) as [[[]|err] x] eqn:E.
  - intros H. inversion H; subst. apply markFailed_inv in E.
    destruct E as (H1 & H2 & H3 & H4 & H5 & H6 & H7 & [D | (F1 & F2 & _)]);
      repeat split; auto.
  - apply markFailed_throw_inv in E.
    destruct E as [(-> & _ & _) | (-> & Hs & Hle & -> & _)]; [discriminate|].
    intros H. inversion H; subst. simpl. repeat split; auto.
Qed.

(** A lease changes [state] and [updated_at] of the document and nothing
    else; hydration fills in the default backoff base. *)
Lemma leased_fields (now : Z) (j j' : Job) :
  fromJSON (JsonStorage.leasedCopy now (toJSON j)) = Ok j' ->
  validate j' = Ok tt /\
  j' = {| id := id j; command := command j; state := processing;
          attempts := attempts j; max_retries := max_retries j;
          created_at := created_at j; updated_at := now;
          run_at := run_at j; next_attempt_at := next_attempt_at j;
          backoff_base := Some (default DEFAULT_BACKOFF_BASE (backoff_base j));
          last_error := last_error j |}.
Proof.
  intros H. apply fromJSON_inv in H. destruct H as [Hv ->]. split; [exact Hv|].
  reflexivity.
Qed.

(** ** Lifecycle invariants *)

(** What every step establishes, whatever the job was before. *)
Lemma step_next_attempt_at (t : Transition) (j j' : Job) :
  applyTransition t j = Some j' ->
  state j' = pending \/ state j' = completed \/ state j' = dead ->
  next_attempt_at j' = None.
Proof.
  destruct t as [now|now|now e|now k|now|at_ now|at_]; intros H.
  - cbn [applyTransition] in H.
    destruct (markProcessing now j) as [x|] eqn:E; inversion H; subst.
    apply markProcessing_inv in E. destruct E as [_ ->]. simpl.
    intros [?|[?|?]]; discriminate.
  - cbn [applyTransition] in H.
    destruct (markCompleted now j) as [x|] eqn:E; inversion H; subst.
    apply markCompleted_inv in E. destruct E as (_ & Hs & Hn & _). auto.
  - apply markFailed_step in H.
    destruct H as (_ & _ & _ & _ & _ & _ & _ & [(_ & Hs & Hn) | (_ & Hs)]);
      [auto|].
    rewrite Hs. intros [?|[?|?]]; discriminate.
  - cbn [applyTransition] in H.
    destruct (resetForRetry now k j) as [x|] eqn:E; inversion H; subst.
    apply resetForRetry_inv in E. destruct E as (_ & Hs & Hn & _). auto.
  - cbn [applyTransition] in H. destruct (state j); inversion H; subst; simpl; auto.
  - apply json_lease_inv in H. destruct H as [H _].
    apply leased_fields in H. destruct H as [_ ->]. simpl.
    intros [?|[?|?]]; discriminate.
  - apply sqlite_lease_inv in H. destruct H as [H _].
    apply leased_fields in H. destruct H as [_ ->]. simpl.
    intros [?|[?|?]]; discriminate.
Qed.

(** Entering [processing] does not assign [next_attempt_at]. *)
Lemma step_into_processing (t : Transition) (j j' : Job) :
  applyTransition t j = Some j' ->
  state j' = processing ->
  next_attempt_at j' = next_attempt_at j.
Proof.
  destruct t as [now|now|now e|now k|now|at_ now|at_]; cbn [applyTransition]; intros H Hp.
  - destruct (markProcessing now j) as [x|] eqn:E; inversion H; subst.
    apply markProcessing_inv in E. destruct E as [_ ->]. reflexivity.
  - destruct (markCompleted now j) as [x|] eqn:E; inversion H; subst.
    apply markCompleted_inv in E. destruct E as (_ & Hs & _). congruence.
  - change (applyTransition (TMarkFailed now e) j = Some j') in H.
    apply markFailed_step in H.
    destruct H as (_ & _ & _ & _ & _ & _ & _ & [(_ & Hs & _) | (_ & Hs)]);
      congruence.
  - destruct (resetForRetry now k j) as [x|] eqn:E; inversion H; subst.
    apply resetForRetry_inv in E. destruct E as (_ & Hs & _). congruence.
  - destruct (state j); inversion H; subst; discriminate.
  - apply json_lease_inv in H. destruct H as [H _].
    apply leased_fields in H. destruct H as [_ ->]. reflexivity.
  - apply sqlite_lease_inv in H. destruct H as [H _].
    apply leased_fields in H. destruct H as [_ ->]. reflexivity.
Qed.

Lemma runTransitions_ind_from (P : Job -> Prop) :
  (forall t j j', applyTransition t j = Some j' -> P j -> P j') ->
  forall ts j0 j, P j0 -> runTransitions ts j0 = Some j -> P j.
Proof.
  intros Hstep. induction ts as [|t r IH]; intros j0 j H0 H; simpl in H.
  - inversion H; subst. exact H0.
  - destruct (applyTransition t j0) as [j1|] eqn:E; [|discriminate].
    apply (IH j1 j); [|exact H]. exact (Hstep t j0 j1 E H0).
Qed.

(** C1, as the code has it.  On every job reached from [create] through
    the transition methods (and the assignments of [Queue.requeue]) and
    through leasing by either backend:
    [next_attempt_at] is unset whenever the job is [pending], [completed]
    or [dead], so it is set only on a job that is [failed] or
    [processing]; and a step into [processing] ([markProcessing], a
    lease) leaves [next_attempt_at] as it was. *)
Theorem next_attempt_at_lifecycle :
  forall uuid now init j0 ts j,
    create uuid now init = Ok j0 ->
    runTransitions ts j0 = Some j ->
    (state j = pending \/ state j = completed \/ state j = dead ->
       next_attempt_at j = None) /\
    (is_Some (next_attempt_at j) -> state j = failed \/ state j = processing) /\
    (forall t j', applyTransition t j = Some j' -> state j' = processing ->
       next_attempt_at j' = next_attempt_at j).
Proof.
  intros uuid now init j0 ts j Hc Hr.
  assert (HP : state j = pending \/ state j = completed \/ state j = dead ->
               next_attempt_at j = None).
  { apply (runTransitions_ind_from
             (fun x => state x = pending \/ state x = completed \/ state x = dead ->
                       next_attempt_at x = None))
      with (ts := ts) (j0 := j0); [| |exact Hr].
    - intros t a b E _. exact (step_next_attempt_at t a b E).
    - apply create_inv in Hc. destruct Hc as (_ & Hs & _ & Hn & _). auto. }
  split; [exact HP|]. split.
  - intros [x Hx]. destruct (state j); auto;
      rewrite HP in Hx by auto; discriminate.
  - intros t j' E Hp. exact (step_into_processing t j j' E Hp).
Qed.

Lemma next_attempt_at_lifecycle_witness :
  let j0 := mkJob "a" "X" pending 0 3 0 0 None None (Some 2) None in
  let j := mkJob "a" "X" failed 1 3 0 20 None (Some 2020) (Some 2) (Some "e") in
  (state j = pending \/ state j = completed \/ state j = dead ->
     next_attempt_at j = None) /\
  (is_Some (next_attempt_at j) -> state j = failed \/ state j = processing) /\
  (forall t j', applyTransition t j = Some j' -> state j' = processing ->
     next_attempt_at j' = next_attempt_at j).
Proof.
  intros j0 j.
  apply (next_attempt_at_lifecycle "u" 0 (mkJobInit (Some "a") "X" None None None) j0
           [TMarkProcessing 10; TMarkFailed 20 (StringValue "e")] j).
  - reflexivity.
  - reflexivity.
Defined.

(** C1, as first written, fails: a job that failed once and is taken up
    again is [processing] and still carries the [next_attempt_at] of the
    failure. *)
Lemma next_attempt_at_kept_while_processing : ~ nextAttemptOnlyWhileFailed.
Proof.
  intros H.
  specialize (H "u" 0 (mkJobInit (Some "a") "X" None None None)
                (mkJob "a" "X" pending 0 3 0 0 None None (Some 2) None)
                [TMarkProcessing 10; TMarkFailed 20 (StringValue "e"); TMarkProcessing 3000]
                (mkJob "a" "X" processing 1 3 0 3000 None (Some 2020) (Some 2) (Some "e"))
                eq_refl eq_refl).
  simpl in H. assert (Hs : is_Some (Some 2020)) by eauto.
  specialize (H Hs). discriminate.
Qed.

(** ** Serialization round trip *)

Lemma construct_hydrated (c : Construction) (j : Job) :
  construct c = Ok j -> hydrated j.
Proof.
  destruct c as [uuid now init|json]; cbn [construct]; intros H.
  - apply create_inv in H. destruct H as (Hv & _ & _ & _ & _ & Hb).
    split; [exact Hv|]. rewrite Hb. eauto.
  - apply fromJSON_inv in H. destruct H as [Hv ->].
    split; [exact Hv|]. simpl. eauto.
Qed.

Lemma step_hydrated (t : Transition) (j j' : Job) :
  applyTransition t j = Some j' -> hydrated j -> hydrated j'.
Proof.
  intros H [Hv Hb]. apply validate_ok_iff in Hv.
  destruct Hv as (Hi & Hc & Ha & Hm & Hbb).
  destruct t as [now|now|now e|now k|now|at_ now|at_]; cbn [applyTransition] in H.
  - destruct (markProcessing now j) as [x|] eqn:E; inversion H; subst.
    apply markProcessing_inv in E. destruct E as [_ ->].
    split; [apply validate_ok_iff; simpl; auto | exact Hb].
  - destruct (markCompleted now j) as [x|] eqn:E; inversion H; subst.
    apply markCompleted_inv in E.
    destruct E as (_ & _ & _ & _ & Ei & Ec & Ea & Em & Eb).
    split; [apply validate_ok_iff | ]; rewrite ?Ei, ?Ec, ?Ea, ?Em, ?Eb; auto.
  - change (applyTransition (TMarkFailed now e) j = Some j') in H.
    apply markFailed_step in H. rename H into E.
    destruct E as (_ & Ea & Ei & Ec & Em & Eb & _).
    split; [apply validate_ok_iff | ]; rewrite ?Ei, ?Ec, ?Ea, ?Em, ?Eb; auto.
    repeat split; auto; lia.
  - destruct (resetForRetry now k j) as [x|] eqn:E; inversion H; subst.
    apply resetForRetry_inv in E.
    destruct E as (_ & _ & _ & _ & Ea & Ei & Ec & Em & Eb).
    split; [apply validate_ok_iff | ]; rewrite ?Ei, ?Ec, ?Ea, ?Em, ?Eb; auto.
    repeat split; auto. destruct k; lia.
  - destruct (state j); inversion H; subst;
      (split; [apply validate_ok_iff; simpl; auto | exact Hb]).
  - apply json_lease_inv in H. destruct H as [H _].
    apply leased_fields in H. destruct H as [Hv' ->].
    split; [exact Hv' | simpl; eauto].
  - apply sqlite_lease_inv in H. destruct H as [H _].
    apply leased_fields in H. destruct H as [Hv' ->].
    split; [exact Hv' | simpl; eauto].
Qed.

Lemma hydrated_roundtrip (j : Job) :
  hydrated j -> fromJSON (toJSON j) = Ok j.
Proof.
  intros [Hv [b Hb]]. destruct j as [i c s a m ca ua r n bb le].
  simpl in Hb. subst bb.
  unfold fromJSON, toJSON, toISO. cbn. rewrite Hv. reflexivity.
Qed.

(** C8.  For every job made by [create] or [fromJSON] and taken through
    any sequence of transitions and leases, [fromJSON (toJSON job)]
    succeeds and returns a job equal to it in every member: id, command,
    state, attempts, max_retries, created_at, updated_at, backoff_base,
    last_error, and run_at and next_attempt_at, present or absent. *)
Theorem toJSON_fromJSON_roundtrip :
  forall (c : Construction) (j0 : Job) (ts : list Transition) (j : Job),
    construct c = Ok j0 ->
    runTransitions ts j0 = Some j ->
    fromJSON (toJSON j) = Ok j.
Proof.
  intros c j0 ts j Hc Hr. apply hydrated_roundtrip.
  apply (runTransitions_ind_from hydrated step_hydrated ts j0 j); [|exact Hr].
  exact (construct_hydrated c j0 Hc).
Qed.

Lemma toJSON_fromJSON_roundtrip_witness :
  let j := mkJob "a" "X" failed 1 3 0 20 (Some 5) (Some 2020) (Some 2) (Some "e") in
  fromJSON (toJSON j) = Ok j.
Proof.
  intros j.
  apply (toJSON_fromJSON_roundtrip
           (ByCreate "u" 0 (mkJobInit (Some "a") " X " None None (Some 5)))
           (mkJob "a" "X" pending 0 3 0 0 (Some 5) None (Some 2) None)
           [TJsonLease 10 10; TMarkFailed 20 (StringValue "e")] j).
  - reflexivity.
  - reflexivity.
Defined.

(** ** The selection of [dequeue] *)

Lemma dequeue_eq (a : option Z) (now : Z) (q : Queue) :
  Queue.dequeue a now q =
  match Queue.scan q (default now a) now with
  | None => (Ok None, q)
  | Some sel =>
      match jobs q !! Queue.sel_id sel with
      | None => (Throw (JobNotFound (Queue.sel_id sel)), q)
      | Some job =>
          match markProcessing now job with
          | Ok job' =>
              (Ok (Some job'),
               Queue.moveState (id job') processing
                 (Queue.set_jobs (fun m => <[Queue.sel_id sel := job']> m) q))
          | Throw e => (Throw e, q)
          end
      end
  end.
Proof.
  unfold Queue.dequeue, mbind, M_bind, m_bind, m_get, Queue.requireJob, m_lift.
  destruct (Queue.scan q (default now a) now) as [sel|]; [|reflexivity].
  destruct (jobs q !! Queue.sel_id sel) as [job|]; [|reflexivity].
  destruct (markProcessing now job) as [job'|e]; reflexivity.
Qed.

Lemma effectiveDueAt_due (at_ now : Z) (job : Job) :
  isDue at_ job = true -> Queue.effectiveDueAt now job = Some (dueTime now job).
Proof.
  unfold isDue, Queue.effectiveDueAt, dueTime.
  destruct (state job); try discriminate.
  - intros _. destruct (run_at job); reflexivity.
  - destruct (isRetryable job); [|discriminate].
    intros _. destruct (next_attempt_at job); reflexivity.
Qed.

Lemma lexLe_trans (d1 s1 d2 s2 d3 s3 : Z) :
  lexLe d1 s1 d2 s2 -> lexLe d2 s2 d3 s3 -> lexLe d1 s1 d3 s3.
Proof. unfold lexLe. lia. Qed.

Lemma consider_scanned (q : Queue) (at_ now : Z) (seen : list string)
    (selected : option Queue.Selected) (i : string) :
  scanned q at_ now seen selected ->
  scanned q at_ now (seen ++ [i]) (Queue.consider q at_ now selected i).
Proof.
  intros H. unfold Queue.consider.
  destruct (jobs q !! i) as [job|] eqn:Ej.
  2:{ destruct selected as [s|]; simpl in *.
      - destruct H as (Hin & Hseq & Hjob & Hmin). repeat split; auto.
        + apply elem_of_app. auto.
        + intros i2 job2 Hi2 Hj2 Hd2. apply elem_of_app in Hi2.
          destruct Hi2 as [Hi2 | Hi2]; [eauto|].
          apply list_elem_of_singleton in Hi2. subst. congruence.
      - intros i2 job2 Hi2 Hj2. apply elem_of_app in Hi2.
        destruct Hi2 as [Hi2 | Hi2]; [eauto|].
        apply list_elem_of_singleton in Hi2. subst. congruence. }
  destruct (isDue at_ job) eqn:Ed; cbn [negb].
  2:{ destruct selected as [s|]; simpl in *.
      - destruct H as (Hin & Hseq & Hjob & Hmin). repeat split; auto.
        + apply elem_of_app. auto.
        + intros i2 job2 Hi2 Hj2 Hd2. apply elem_of_app in Hi2.
          destruct Hi2 as [Hi2 | Hi2]; [eauto|].
          apply list_elem_of_singleton in Hi2. subst. congruence.
      - intros i2 job2 Hi2 Hj2. apply elem_of_app in Hi2.
        destruct Hi2 as [Hi2 | Hi2]; [eauto|].
        apply list_elem_of_singleton in Hi2. subst. congruence. }
  rewrite (effectiveDueAt_due at_ now job Ed).
  fold (seqOf q i).
  destruct selected as [s|]; simpl in H.
  - destruct H as (Hin & Hseq & Hjob & Hmin).
    destruct ((dueTime now job <? Queue.sel_dueAt s)
              || ((dueTime now job =? Queue.sel_dueAt s) && (seqOf q i <? Queue.sel_seq s)))
      eqn:Eb.
    + assert (Hb : lexLe (dueTime now job) (seqOf q i) (Queue.sel_dueAt s) (Queue.sel_seq s)).
      { unfold lexLe. apply orb_true_iff in Eb. destruct Eb as [Eb|Eb].
        - apply Z.ltb_lt in Eb. lia.
        - apply andb_true_iff in Eb. destruct Eb as [E1 E2].
          apply Z.eqb_eq in E1. apply Z.ltb_lt in E2. lia. }
      simpl. repeat split.
      * apply elem_of_app. right. apply list_elem_of_singleton. reflexivity.
      * exists job. auto.
      * intros i2 job2 Hi2 Hj2 Hd2. apply elem_of_app in Hi2.
        destruct Hi2 as [Hi2 | Hi2].
        -- eapply lexLe_trans; [exact Hb|]. eauto.
        -- apply list_elem_of_singleton in Hi2. subst i2.
           assert (job2 = job) by congruence. subst. unfold lexLe. lia.
    + simpl. repeat split; auto.
      * apply elem_of_app. auto.
      * intros i2 job2 Hi2 Hj2 Hd2. apply elem_of_app in Hi2.
        destruct Hi2 as [Hi2 | Hi2]; [eauto|].
        apply list_elem_of_singleton in Hi2. subst i2.
        assert (job2 = job) by congruence. subst.
        apply orb_false_iff in Eb. destruct Eb as [E1 E2].
        apply Z.ltb_ge in E1. apply andb_false_iff in E2.
        unfold lexLe. destruct E2 as [E2|E2].
        -- apply Z.eqb_neq in E2. lia.
        -- apply Z.ltb_ge in E2. lia.
  - simpl. repeat split.
    + apply elem_of_app. right. apply list_elem_of_singleton. reflexivity.
    + exists job. auto.
    + intros i2 job2 Hi2 Hj2 Hd2. apply elem_of_app in Hi2.
      destruct Hi2 as [Hi2 | Hi2].
      * rewrite (H i2 job2 Hi2 Hj2) in Hd2. discriminate.
      * apply list_elem_of_singleton in Hi2. subst i2.
        assert (job2 = job) by congruence. subst. unfold lexLe. lia.
Qed.

Lemma foldl_consider_scanned (q : Queue) (at_ now : Z) (l : list string) :
  forall seen selected,
    scanned q at_ now seen selected ->
    scanned q at_ now (seen ++ l) (foldl (Queue.consider q at_ now) selected l).
Proof.
  induction l as [|i l IH]; intros seen selected H; simpl.
  - rewrite app_nil_r. exact H.
  - replace (seen ++ i :: l) with ((seen ++ [i]) ++ l)
      by (rewrite <- app_assoc; reflexivity).
    apply IH. apply consider_scanned. exact H.
Qed.

Lemma scan_scanned (q : Queue) (at_ now : Z) :
  scanned q at_ now (bs_pending (byState q) ++ bs_failed (byState q))
          (Queue.scan q at_ now).
Proof.
  unfold Queue.scan. apply foldl_consider_scanned.
  apply (foldl_consider_scanned q at_ now (bs_pending (byState q)) [] None).
  simpl. intros i job Hi. inversion Hi.
Qed.

Lemma isDue_state (at_ : Z) (job : Job) :
  isDue at_ job = true -> state job = pending \/ state job = failed.
Proof. unfold isDue. destruct (state job); auto; discriminate. Qed.

(** ** The indexes of the queue *)

Lemma bs_get_set (b : ByState) (s s' : JobState) (l : list string) :
  bs_get (bs_set b s l) s' = if bool_decide (s = s') then l else bs_get b s'.
Proof. destruct s, s'; reflexivity. Qed.

Lemma elem_of_set_add (x i : string) (l : list string) :
  x ∈ set_add i l <-> x = i \/ x ∈ l.
Proof.
  unfold set_add, set_has. case_bool_decide as Hi.
  - split; [auto|]. intros [->|H]; auto.
  - rewrite elem_of_app, list_elem_of_singleton. tauto.
Qed.

Lemma elem_of_set_delete (x i : string) (l : list string) :
  x ∈ set_delete i l <-> x <> i /\ x ∈ l.
Proof. unfold set_delete. rewrite list_elem_of_filter. tauto. Qed.

Lemma moveState_stateOf (i : string) (s : JobState) (q : Queue) :
  stateOf (Queue.moveState i s q) = <[i := s]> (stateOf q).
Proof.
  unfold Queue.moveState.
  destruct (stateOf q !! i) as [cur|]; [case_bool_decide|]; reflexivity.
Qed.

Lemma moveState_jobs (i : string) (s : JobState) (q : Queue) :
  jobs (Queue.moveState i s q) = jobs q.
Proof.
  unfold Queue.moveState.
  destruct (stateOf q !! i) as [cur|]; [case_bool_decide|]; reflexivity.
Qed.

(** Where an id can be after [moveState], when the sets agreed with
    [stateOf] before. *)
Lemma moveState_sets (i : string) (s : JobState) (q : Queue) :
  (forall s0 x, x ∈ bs_get (byState q) s0 -> stateOf q !! x = Some s0) ->
  forall s' x,
    x ∈ bs_get (byState (Queue.moveState i s q)) s' ->
    (x = i /\ s' = s) \/ (x <> i /\ x ∈ bs_get (byState q) s').
Proof.
  intros Hinv s' x. unfold Queue.moveState.
  destruct (stateOf q !! i) as [cur|] eqn:Ecur.
  - case_bool_decide as Hc.
    + subst cur. cbn. rewrite bs_get_set. case_bool_decide as Hs.
      * subst s'. rewrite elem_of_set_add. intros [->|Hx]; [auto|].
        destruct (decide (x = i)); auto.
      * intros Hx. destruct (decide (x = i)) as [->|]; [|auto].
        apply Hinv in Hx. congruence.
    + cbn. rewrite bs_get_set. case_bool_decide as Hs.
      * subst s'. rewrite elem_of_set_add, bs_get_set.
        rewrite bool_decide_eq_false_2 by exact Hc.
        intros [->|Hx]; [auto|].
        destruct (decide (x = i)) as [->|]; [|auto].
        apply Hinv in Hx. congruence.
      * rewrite bs_get_set. case_bool_decide as Hs2.
        -- subst s'. rewrite elem_of_set_delete. auto.
        -- intros Hx. destruct (decide (x = i)) as [->|]; [|auto].
           apply Hinv in Hx. congruence.
  - cbn. rewrite bs_get_set. case_bool_decide as Hs.
    + subst s'. rewrite elem_of_set_add. intros [->|Hx]; [auto|].
      destruct (decide (x = i)); auto.
    + intros Hx. destruct (decide (x = i)) as [->|]; [|auto].
      apply Hinv in Hx. congruence.
Qed.

Lemma moveState_adds (i : string) (s : JobState) (q : Queue) :
  i ∈ bs_get (byState (Queue.moveState i s q)) s.
Proof.
  unfold Queue.moveState.
  destruct (stateOf q !! i) as [cur|]; [case_bool_decide|];
    cbn; rewrite bs_get_set, bool_decide_eq_true_2 by reflexivity;
    apply elem_of_set_add; auto.
Qed.

Lemma moveState_keeps (i x : string) (s s' : JobState) (q : Queue) :
  x <> i ->
  x ∈ bs_get (byState q) s' ->
  x ∈ bs_get (byState (Queue.moveState i s q)) s'.
Proof.
  intros Hne Hx. unfold Queue.moveState.
  destruct (stateOf q !! i) as [cur|]; [case_bool_decide as Hc|]; cbn;
    rewrite bs_get_set; case_bool_decide; subst;
    rewrite ?elem_of_set_add, ?bs_get_set; auto.
  - right. case_bool_decide; [|exact Hx]. subst.
    apply elem_of_set_delete. auto.
  - case_bool_decide; [|exact Hx]. subst. apply elem_of_set_delete. auto.
Qed.

Lemma moveState_insertion (i : string) (s : JobState) (q : Queue) :
  insertionOrder (Queue.moveState i s q) = insertionOrder q /\
  insertSeq (Queue.moveState i s q) = insertSeq q.
Proof.
  unfold Queue.moveState.
  destruct (stateOf q !! i) as [cur|]; [case_bool_decide|]; auto.
Qed.

(** C2.  [dequeue] at query time [at_] (the argument, or the clock when it
    is absent), on any queue: it never throws; it returns no job, and
    leaves the queue as it was, exactly when no job in the pending or the
    failed set is due at [at_]; otherwise it returns a due job of those
    sets whose pair (effective due time, insertion sequence) is
    lexicographically minimal among all due jobs of both sets: with equal
    due times the smaller insertion sequence wins, whichever set the jobs
    are in.  The job comes back in state [processing], with [updated_at]
    the clock and every other member as it was; it is stored under its
    key, indexed as [processing] and in the processing set; and on a queue
    with consistent indexes it is in no other set, while every other job
    is where it was. *)
Theorem dequeue_selects_earliest :
  forall (q : Queue) (at_opt : option Z) (now : Z),
    match Queue.dequeue at_opt now q with
    | (Ok None, q') =>
        q' = q /\ forall i job, ~ isCandidate q (default now at_opt) i job
    | (Ok (Some job'), q') =>
        exists i job,
          isCandidate q (default now at_opt) i job /\
          (forall i2 job2,
             isCandidate q (default now at_opt) i2 job2 ->
             lexLe (dueTime now job) (seqOf q i) (dueTime now job2) (seqOf q i2)) /\
          job' = {| id := id job; command := command job; state := processing;
                    attempts := attempts job; max_retries := max_retries job;
                    created_at := created_at job; updated_at := now;
                    run_at := run_at job; next_attempt_at := next_attempt_at job;
                    backoff_base := backoff_base job;
                    last_error := last_error job |} /\
          jobs q' = <[i := job']> (jobs q) /\
          stateOf q' = <[id job' := processing]> (stateOf q) /\
          id job' ∈ bs_processing (byState q') /\
          insertionOrder q' = insertionOrder q /\
          (QueueInv q ->
           id job' = i /\
           forall s x,
             x ∈ bs_get (byState q') s <->
             (x = i /\ s = processing) \/ (x <> i /\ x ∈ bs_get (byState q) s))
    | (Throw _, _) => False
    end.
Proof.
  intros q at_opt now. rewrite dequeue_eq.
  pose proof (scan_scanned q (default now at_opt) now) as H.
  destruct (Queue.scan q (default now at_opt) now) as [s|]; simpl in H.
  - destruct H as (Hin & Hseq & (job & Hj & Hd & Hdue) & Hmin).
    rewrite Hj.
    destruct (markProcessing now job) as [job'|e] eqn:Em.
    + apply markProcessing_inv in Em. destruct Em as [_ Ejob].
      set (q1 := Queue.set_jobs (fun m => <[Queue.sel_id s := job']> m) q).
      exists (Queue.sel_id s), job.
      split; [repeat split; auto|].
      split.
      { intros i2 job2 (Hi2 & Hj2 & Hd2). rewrite <- Hdue, <- Hseq. eauto. }
      split; [exact Ejob|].
      split; [rewrite moveState_jobs; reflexivity|].
      split; [rewrite moveState_stateOf; reflexivity|].
      split; [apply (moveState_adds (id job') processing q1)|].
      split; [apply (moveState_insertion (id job') processing q1)|].
      intros Hinv.
      assert (Hid : id job' = Queue.sel_id s).
      { rewrite Ejob. cbn. apply (inv_key q Hinv _ _ Hj). }
      split; [exact Hid|]. rewrite Hid.
      intros st x. split.
      * intros Hx. apply moveState_sets in Hx; [exact Hx|].
        intros s0 y Hy. apply (inv_sets q Hinv). exact Hy.
      * intros [[-> ->] | [Hne Hx]].
        -- apply (moveState_adds (Queue.sel_id s) processing q1).
        -- apply moveState_keeps; [exact Hne | exact Hx].
    + pose proof (markProcessing_ok now job (isDue_state _ _ Hd)) as Hok.
      rewrite Em in Hok. discriminate.
  - split; [reflexivity|].
    intros i job (Hi & Hj & Hd). rewrite (H i job Hi Hj) in Hd. discriminate.
Qed.

Lemma empty_inv : QueueInv Queue.empty.
Proof.
  split.
  - intros s i H. destruct s; inversion H.
  - intros i s H. cbn in H. rewrite lookup_empty in H. discriminate.
  - intros k job H. cbn in H. rewrite lookup_empty in H. discriminate.
Qed.

(** The shape of every successful mutation: the object under [k] now is
    [job'], and the indexes were moved to its state. *)
Lemma relocate_inv (q : Queue) (k : string) (job' : Job) :
  QueueInv q ->
  id job' = k ->
  QueueInv (Queue.moveState k (state job')
              (Queue.set_jobs (fun m => <[k := job']> m) q)).
Proof.
  intros [H1 H2 H3] Hid. split.
  - intros s x Hx. apply moveState_sets in Hx; [|exact H1].
    rewrite moveState_stateOf. cbn.
    destruct Hx as [[-> ->] | [Hne Hx]].
    + apply lookup_insert_eq.
    + rewrite lookup_insert_ne by congruence. apply H1. exact Hx.
  - intros x s. rewrite moveState_stateOf, moveState_jobs. cbn.
    destruct (decide (x = k)) as [->|Hne].
    + rewrite !lookup_insert_eq. intros H. inversion H. eauto.
    + rewrite !lookup_insert_ne by congruence. apply H2.
  - intros x job. rewrite moveState_jobs. cbn.
    destruct (decide (x = k)) as [->|Hne].
    + rewrite lookup_insert_eq. intros H. inversion H; subst. reflexivity.
    + rewrite lookup_insert_ne by congruence. apply H3.
Qed.

(** Putting back the object that is stored changes nothing. *)
Lemma set_jobs_same (q : Queue) (k : string) (job : Job) :
  jobs q !! k = Some job -> Queue.set_jobs (fun m => <[k := job]> m) q = q.
Proof.
  intros H. destruct q as [js so bs n io]. unfold Queue.set_jobs. cbn in *.
  f_equal. apply insert_id. exact H.
Qed.

(** [fail], outcome by outcome. *)
Lemma fail_eq (i : string) (e : Thrown) (now : Z) (q : Queue) :
  Queue.fail i e now q =
  match jobs q !! i with
  | None => (Throw (JobNotFound i), q)
  | Some job =>
      if bool_decide (stateOf q !! i = Some processing) then
        match markFailed now e job with
        | (Ok _, job') =>
            (Ok job',
             Queue.moveState i (if bool_decide (state job' = dead) then dead else failed)
               (Queue.set_jobs (fun m => <[i := job']> m) q))
        | (Throw err, job') =>
            (Throw err, Queue.set_jobs (fun m => <[i := job']> m) q)
        end
      else (Throw (FailRequiresProcessing (stateOf q !! i)), q)
  end.
Proof.
  unfold Queue.fail. run_m.
  destruct (jobs q !! i) as [job|]; [|reflexivity].
  case_bool_decide; [|reflexivity].
  destruct (markFailed now e job) as [[[]|err] job']; cbn; [|reflexivity].
  case_bool_decide; reflexivity.
Qed.

(** [fail] does one of three things: it throws and changes nothing; it
    returns, with the job relocated to [failed] or [dead]; or it throws
    the [RangeError] of [markFailed] and leaves the job halfway, [failed]
    under the index [processing]. *)
Lemma fail_cases (i : string) (e : Thrown) (now : Z) (q : Queue) :
  (exists err, Queue.fail i e now q = (Throw err, q) /\ err <> InvalidTimeValue) \/
  (exists job job',
     jobs q !! i = Some job /\ stateOf q !! i = Some processing /\
     markFailed now e job = (Ok tt, job') /\
     Queue.fail i e now q = (Ok job', relocate q i job')) \/
  (exists job,
     jobs q !! i = Some job /\ stateOf q !! i = Some processing /\
     state job = processing /\
     markFailed now e job = (Throw InvalidTimeValue, failedHalfway now e job) /\
     Queue.fail i e now q =
       (Throw InvalidTimeValue,
        Queue.set_jobs (fun m => <[i := failedHalfway now e job]> m) q)).
Proof.
  rewrite fail_eq.
  destruct (jobs q !! i) as [job|] eqn:Ej; [|left; eexists; split; [reflexivity|discriminate]].
  case_bool_decide as Hp; [|left; eexists; split; [reflexivity|discriminate]].
  destruct (markFailed now e job) as [[[]|err] job'] eqn:Em.
  - right. left. exists job, job'. repeat split; auto.
    apply markFailed_inv in Em.
    destruct Em as (_ & _ & _ & _ & _ & _ & _ & [(_ & Hs & _) | (_ & Hs & _)]);
      unfold relocate; rewrite Hs; reflexivity.
  - pose proof Em as Em2. apply markFailed_throw_inv in Em2.
    destruct Em2 as [(-> & _ & ->) | (-> & Hs & _ & -> & _)].
    + left. eexists. rewrite (set_jobs_same q i job Ej).
      split; [reflexivity | discriminate].
    + right. right. exists job. repeat split; auto.
Qed.

Lemma relocate_stateOf (q : Queue) (k x : string) (job' : Job) (s : JobState) :
  x <> k ->
  stateOf (Queue.moveState k s (Queue.set_jobs (fun m => <[k := job']> m) q)) !! x
  = stateOf q !! x.
Proof.
  intros Hne. rewrite moveState_stateOf. cbn.
  apply lookup_insert_ne. congruence.
Qed.

Lemma sameIndex_refl (q : Queue) : sameIndex q q.
Proof. repeat split. Qed.

Lemma sameIndex_inv (q1 q2 : Queue) :
  sameIndex q1 q2 -> QueueInv q2 -> QueueInv q1.
Proof.
  intros (Hj & Hs & Hb) [H1 H2 H3]. split.
  - intros s i. rewrite Hb, Hs. apply H1.
  - intros i s. rewrite Hs, Hj. apply H2.
  - intros k job. rewrite Hj. apply H3.
Qed.

Lemma enqueue_effect (job : Job) (q : Queue) :
  QueueInv q -> effectOf (OpEnqueue job) q (snd (Queue.enqueue job q)).
Proof.
  intros Hinv. unfold Queue.enqueue. run_m.
  case_bool_decide as Hin; cbn.
  { left. apply sameIndex_refl. }
  destruct (state job) eqn:Es; cbn; try (left; apply sameIndex_refl).
  assert (Hnone : stateOf q !! id job = None).
  { destruct (stateOf q !! id job) as [s|] eqn:E; [|reflexivity].
    destruct (inv_state q Hinv _ _ E) as (j0 & Hj0 & _).
    exfalso. apply Hin. rewrite Hj0. eauto. }
  right. left. exists (id job), job. split; [reflexivity|]. split.
  - unfold relocate, Queue.moveState. cbn. rewrite Hnone, Es.
    repeat split.
  - right. intros [Hl _]. congruence.
Qed.

Lemma markProcessing_id now (j j' : Job) :
  markProcessing now j = Ok j' -> id j' = id j /\ state j' = processing.
Proof. intros H. apply markProcessing_inv in H. destruct H as [_ ->]. auto. Qed.

Lemma dequeue_effect (a : option Z) (now : Z) (q : Queue) :
  QueueInv q -> effectOf (OpDequeue a) q (snd (Queue.dequeue a now q)).
Proof.
  intros Hinv. rewrite dequeue_eq.
  pose proof (scan_scanned q (default now a) now) as H.
  destruct (Queue.scan q (default now a) now) as [s|]; simpl in H;
    [|left; apply sameIndex_refl].
  destruct H as (Hin & _ & (job & Hj & Hd & _) & _). rewrite Hj.
  destruct (markProcessing now job) as [job'|e] eqn:Em;
    [|left; apply sameIndex_refl].
  apply markProcessing_id in Em. destruct Em as [Hid Hst].
  pose proof (inv_key q Hinv _ _ Hj) as Hk.
  right. left. exists (Queue.sel_id s), job'. split; [congruence|]. split.
  - cbn [snd]. unfold relocate. rewrite Hst, Hid, Hk. apply sameIndex_refl.
  - right. intros [Hl _]. apply elem_of_app in Hin. destruct Hin as [Hin|Hin].
    + rewrite (inv_sets q Hinv pending _ Hin) in Hl. discriminate.
    + rewrite (inv_sets q Hinv failed _ Hin) in Hl. discriminate.
Qed.

Lemma updateJob_effect (u : Job) (q : Queue) :
  QueueInv q -> effectOf (OpUpdateJob u) q (snd (Queue.updateJob u q)).
Proof.
  intros Hinv. unfold Queue.updateJob. run_m.
  destruct (jobs q !! id u) as [existing|] eqn:Ej; cbn;
    [|left; apply sameIndex_refl].
  pose proof (inv_key q Hinv _ _ Ej) as Hk. rewrite Hk.
  assert (Ht : touches (id u) (OpUpdateJob u) = true).
  { cbn. apply bool_decide_eq_true. reflexivity. }
  case_bool_decide as Hp; cbn.
  - right. right. exists (id u), u, (state u). repeat split; auto.
  - right. left. exists (id u), u. split; [reflexivity|]. split; [|auto].
    unfold relocate, Queue.moveState. cbn.
    destruct (stateOf q !! id u) as [p|] eqn:Ep.
    + rewrite bool_decide_eq_false_2 by congruence. repeat split.
    + repeat split.
Qed.

Lemma complete_effect (i : string) (now : Z) (q : Queue) :
  QueueInv q -> effectOf (OpComplete i) q (snd (Queue.complete i now q)).
Proof.
  intros Hinv. unfold Queue.complete. run_m.
  destruct (jobs q !! i) as [job|] eqn:Ej; cbn; [|left; apply sameIndex_refl].
  case_bool_decide as Hp; cbn; [|left; apply sameIndex_refl].
  destruct (markCompleted now job) as [job'|e] eqn:Em; cbn;
    [|left; apply sameIndex_refl].
  apply markCompleted_inv in Em. destruct Em as (_ & Hs & _ & _ & Hid & _).
  pose proof (inv_key q Hinv _ _ Ej) as Hk.
  right. left. exists i, job'. split; [congruence|]. split.
  - unfold relocate. rewrite Hs. apply sameIndex_refl.
  - left. cbn. apply bool_decide_eq_true. reflexivity.
Qed.

Lemma fail_effect (i : string) (e : Thrown) (now : Z) (q : Queue) :
  QueueInv q -> effectOf (OpFail i e) q (snd (Queue.fail i e now q)).
Proof.
  intros Hinv.
  assert (Ht : touches i (OpFail i e) = true).
  { cbn. apply bool_decide_eq_true. reflexivity. }
  destruct (fail_cases i e now q)
    as [(err & -> & _) | [(job & job' & Hj & Hp & Em & ->) | (job & Hj & Hp & Hs & _ & ->)]];
    cbn [snd].
  - left. apply sameIndex_refl.
  - apply markFailed_inv in Em. destruct Em as (_ & _ & Hid & _).
    pose proof (inv_key q Hinv _ _ Hj) as Hk.
    right. left. exists i, job'. split; [congruence|]. split; [apply sameIndex_refl|].
    left. exact Ht.
  - pose proof (inv_key q Hinv _ _ Hj) as Hk.
    right. right. exists i, (failedHalfway now e job), processing.
    split; [exact Hk|]. split; [exact Ht|]. split; [exact Hp|].
    split; [right; split; reflexivity | apply sameIndex_refl].
Qed.

Lemma requeue_effect (i : string) (now : Z) (q : Queue) :
  QueueInv q -> effectOf (OpRequeue i) q (snd (Queue.requeue i now q)).
Proof.
  intros Hinv. unfold Queue.requeue. run_m.
  destruct (jobs q !! i) as [job|] eqn:Ej; cbn; [|left; apply sameIndex_refl].
  pose proof (inv_key q Hinv _ _ Ej) as Hk.
  destruct (state job) eqn:Es; cbn; try (left; apply sameIndex_refl);
    (right; left; exists i, (Queue.markPendingFallback now job);
     split; [exact Hk|]; split;
     [unfold relocate; cbn; apply sameIndex_refl
     |left; cbn; apply bool_decide_eq_true; reflexivity]).
Qed.

Lemma resetForRetry_effect (i : string) (k : bool) (now : Z) (q : Queue) :
  QueueInv q ->
  effectOf (OpResetForRetry i k) q (snd (Queue.resetForRetry i k now q)).
Proof.
  intros Hinv. unfold Queue.resetForRetry. run_m.
  destruct (jobs q !! i) as [job|] eqn:Ej; cbn; [|left; apply sameIndex_refl].
  destruct (resetForRetry now k job) as [job'|err] eqn:Em; cbn;
    [|left; apply sameIndex_refl].
  apply resetForRetry_inv in Em.
  destruct Em as (Hfrom & Hs & _ & _ & _ & Hid & _).
  pose proof (inv_key q Hinv _ _ Ej) as Hk.
  right. left. exists i, job'. split; [congruence|]. split.
  - unfold relocate. rewrite Hs. apply sameIndex_refl.
  - right. intros (_ & j0 & Hj0 & Hs0).
    assert (j0 = job) by congruence. subst j0.
    destruct Hfrom; congruence.
Qed.

Lemma step_snd (now : Z) (op : Op) (q : Queue) :
  snd (step now op q) =
  match op with
  | OpEnqueue job => snd (Queue.enqueue job q)
  | OpDequeue a => snd (Queue.dequeue a now q)
  | OpUpdateJob u => snd (Queue.updateJob u q)
  | OpComplete i => snd (Queue.complete i now q)
  | OpFail i e => snd (Queue.fail i e now q)
  | OpRequeue i => snd (Queue.requeue i now q)
  | OpResetForRetry i k => snd (Queue.resetForRetry i k now q)
  end.
Proof.
  destruct op; try reflexivity. cbn [step].
  destruct (Queue.dequeue at_opt now q) as [[[j|]|e] q']; reflexivity.
Qed.

Lemma step_effect (now : Z) (op : Op) (q : Queue) :
  QueueInv q -> effectOf op q (snd (step now op q)).
Proof.
  intros Hinv. rewrite step_snd. destruct op.
  - apply enqueue_effect, Hinv.
  - apply dequeue_effect, Hinv.
  - apply updateJob_effect, Hinv.
  - apply complete_effect, Hinv.
  - apply fail_effect, Hinv.
  - apply requeue_effect, Hinv.
  - apply resetForRetry_effect, Hinv.
Qed.

Lemma effect_inv (op : Op) (q q' : Queue) :
  QueueInv q -> effectOf op q q' -> QueueInv q'.
Proof.
  intros Hinv [Hsame | [(k & job' & Hid & Hsame & _)
                       | (k & job' & s0 & Hid & _ & Hst & Hidx & Hsame)]].
  - exact (sameIndex_inv _ _ Hsame Hinv).
  - apply (sameIndex_inv _ _ Hsame). apply relocate_inv; assumption.
  - apply (sameIndex_inv _ _ Hsame). destruct Hinv as [H1 H2 H3]. split.
    + exact H1.
    + intros x s. cbn. destruct (decide (x = k)) as [->|Hne].
      * rewrite lookup_insert_eq. intros Hx. exists job'. split; [reflexivity|].
        assert (s = s0) by congruence. subst s. exact Hidx.
      * rewrite lookup_insert_ne by congruence. apply H2.
    + intros x job. cbn. destruct (decide (x = k)) as [->|Hne].
      * rewrite lookup_insert_eq. intros Hx. inversion Hx; subst. reflexivity.
      * rewrite lookup_insert_ne by congruence. apply H3.
Qed.

Lemma effect_keeps_lease (op : Op) (q q' : Queue) (x : string) :
  effectOf op q q' ->
  leased q x ->
  touches x op = false ->
  leased q' x.
Proof.
  intros [Hsame | [(k & job' & Hid & Hsame & Hk)
                  | (k & job' & s0 & Hid & Ht & _ & _ & Hsame)]]
         Hx Hnt.
  - destruct Hsame as (Hj & Hs & _). unfold leased. rewrite Hj, Hs. exact Hx.
  - destruct Hsame as (Hj & Hs & _).
    assert (x <> k) by (intros ->; destruct Hk; [congruence | tauto]).
    unfold leased. rewrite Hj, Hs. unfold relocate.
    rewrite relocate_stateOf by assumption. rewrite moveState_jobs. cbn.
    rewrite lookup_insert_ne by congruence. exact Hx.
  - destruct Hsame as (Hj & Hs & _).
    assert (x <> k) by (intros ->; congruence).
    unfold leased. rewrite Hj, Hs. cbn.
    rewrite lookup_insert_ne by congruence. exact Hx.
Qed.

Lemma exec_inv (ops : list (Z * Op)) :
  forall q, QueueInv q -> QueueInv (exec ops q).
Proof.
  induction ops as [|[now op] ops IH]; intros q Hinv; [exact Hinv|].
  apply IH. eapply effect_inv; [exact Hinv|]. apply step_effect, Hinv.
Qed.

Lemma exec_keeps_lease (x : string) (ops : list (Z * Op)) :
  forall q,
    QueueInv q ->
    leased q x ->
    forallb (fun p => negb (touches x (snd p))) ops = true ->
    leased (exec ops q) x.
Proof.
  induction ops as [|[now op] ops IH]; intros q Hinv Hx Hall; [exact Hx|].
  cbn [forallb snd] in Hall. apply andb_true_iff in Hall. destruct Hall as [Ht Hall].
  apply negb_true_iff in Ht.
  pose proof (step_effect now op q Hinv) as He.
  apply IH; [eapply effect_inv; eauto | | exact Hall].
  eapply effect_keeps_lease; eauto.
Qed.

(** ** Delivery *)

Lemma dequeue_step_leases (now : Z) (a : option Z) (q : Queue) (x : string) :
  QueueInv q ->
  fst (step now (OpDequeue a) q) = Some x ->
  leased (snd (step now (OpDequeue a) q)) x.
Proof.
  intros Hinv. cbn [step]. rewrite dequeue_eq.
  destruct (Queue.scan q (default now a) now) as [s|]; [|discriminate].
  destruct (jobs q !! Queue.sel_id s) as [job|] eqn:Hj; [|discriminate].
  destruct (markProcessing now job) as [job'|e] eqn:Em; [|discriminate].
  cbn [fst snd]. intros H. inversion H; subst.
  apply markProcessing_id in Em. destruct Em as [Hid Hst].
  pose proof (inv_key q Hinv _ _ Hj) as Hk.
  split.
  - rewrite moveState_stateOf. apply lookup_insert_eq.
  - exists job'. rewrite moveState_jobs. cbn. rewrite Hid, Hk.
    split; [apply lookup_insert_eq | exact Hst].
Qed.

Lemma dequeue_step_skips_leased (now : Z) (a : option Z) (q : Queue) (x : string) :
  QueueInv q ->
  stateOf q !! x = Some processing ->
  fst (step now (OpDequeue a) q) <> Some x.
Proof.
  intros Hinv Hx. cbn [step]. rewrite dequeue_eq.
  pose proof (scan_scanned q (default now a) now) as H.
  destruct (Queue.scan q (default now a) now) as [s|]; simpl in H; [|discriminate].
  destruct H as (Hin & _ & (job & Hj & _ & _) & _). rewrite Hj.
  destruct (markProcessing now job) as [job'|e] eqn:Em; [|discriminate].
  cbn [fst snd]. intros H. inversion H; subst.
  apply markProcessing_id in Em. destruct Em as [Hid _].
  pose proof (inv_key q Hinv _ _ Hj) as Hk.
  rewrite Hid, Hk in Hx.
  apply elem_of_app in Hin. destruct Hin as [Hin|Hin].
  - rewrite (inv_sets q Hinv pending _ Hin) in Hx. discriminate.
  - rewrite (inv_sets q Hinv failed _ Hin) in Hx. discriminate.
Qed.

Lemma isDue_scheduled (at_ now : Z) (job : Job) (t : Z) :
  isDue at_ job = true ->
  scheduledFor job = Some t ->
  t <= at_ /\ dueTime now job = t.
Proof.
  unfold isDue, scheduledFor, dueTime.
  destruct (state job); try discriminate.
  - intros Hd Hr. rewrite Hr in *. apply Z.leb_le in Hd. auto.
  - destruct (isRetryable job); [|discriminate].
    intros Hd Hn. rewrite Hn in *. apply Z.leb_le in Hd. auto.
Qed.

Lemma forallb_false_elem {A} (f : A -> bool) (l : list A) :
  forallb f l = false -> exists x, x ∈ l /\ f x = false.
Proof.
  induction l as [|a l IH]; simpl; [discriminate|].
  destruct (f a) eqn:E; simpl.
  - intros H. destruct (IH H) as (x & Hx & Hf). exists x. split; [|exact Hf].
    apply list_elem_of_further. exact Hx.
  - intros _. exists a. split; [apply list_elem_of_here | exact E].
Qed.

(** C6, as the code has it.  On a queue driven from empty by its own
    methods, a job that came out of one [dequeue] comes out of a later
    [dequeue] only if [complete], [fail], [requeue] or [updateJob] was
    called on it in between.  And the job [dequeue] returns at query time
    [at_] was due at [at_]: when it was scheduled ([run_at] of a pending
    job, [next_attempt_at] of a failed one), that time is its effective
    due time and is not after [at_]. *)
Theorem dequeue_delivery :
  (forall pre mid n1 a1 n2 a2 x,
     dequeuedTwice pre mid n1 a1 n2 a2 x ->
     exists p, p ∈ mid /\ touches x (snd p) = true) /\
  (forall q at_opt now job' q',
     Queue.dequeue at_opt now q = (Ok (Some job'), q') ->
     exists i job,
       jobs q !! i = Some job /\
       markProcessing now job = Ok job' /\
       isDue (default now at_opt) job = true /\
       forall t, scheduledFor job = Some t ->
         t <= default now at_opt /\ dueTime now job = t).
Proof.
  split.
  - intros pre mid n1 a1 n2 a2 x [H1 H2].
    destruct (forallb (fun p => negb (touches x (snd p))) mid) eqn:Hall.
    + exfalso.
      pose proof (exec_inv pre Queue.empty empty_inv) as Hpre.
      pose proof (step_effect n1 (OpDequeue a1) _ Hpre) as He.
      pose proof (effect_inv _ _ _ Hpre He) as Hq1.
      pose proof (dequeue_step_leases n1 a1 _ x Hpre H1) as Hl.
      pose proof (exec_keeps_lease x mid _ Hq1 Hl Hall) as Hl2.
      pose proof (exec_inv mid _ Hq1) as Hq2.
      exact (dequeue_step_skips_leased n2 a2 _ x Hq2 (proj1 Hl2) H2).
    + apply forallb_false_elem in Hall. destruct Hall as (p & Hp & Ht).
      exists p. split; [exact Hp|].
      apply negb_false_iff in Ht. exact Ht.
  - intros q at_opt now job' q' H. rewrite dequeue_eq in H.
    pose proof (scan_scanned q (default now at_opt) now) as Hs.
    destruct (Queue.scan q (default now at_opt) now) as [s|]; simpl in Hs;
      [|discriminate].
    destruct Hs as (_ & _ & (job & Hj & Hd & _) & _). rewrite Hj in H.
    destruct (markProcessing now job) as [j'|e] eqn:Em; [|discriminate].
    inversion H; subst.
    exists (Queue.sel_id s), job. repeat split; auto;
      eapply isDue_scheduled; eauto.
Qed.

Lemma dequeue_delivery_witness :
  let j := mkJob "a" "X" pending 0 3 0 0 None None (Some 2) None in
  dequeuedTwice [(1, OpEnqueue j)] [(3, OpRequeue "a")] 2 None 4 None "a" /\
  exists p, p ∈ [(3, OpRequeue "a")] /\ touches "a" (snd p) = true.
Proof.
  intros j.
  assert (H : dequeuedTwice [(1, OpEnqueue j)] [(3, OpRequeue "a")] 2 None 4 None "a").
  { split; vm_compute; reflexivity. }
  split; [exact H|].
  exact (proj1 dequeue_delivery [(1, OpEnqueue j)] [(3, OpRequeue "a")]
           2 None 4 None "a" H).
Defined.

(** C6, as first written, fails on both counts.  [updateJob] with a
    pending copy of a leased job makes [dequeue] return it again with no
    [complete], [fail] or [requeue] in between; and a pending job with no
    [run_at], created at 100, is returned by [dequeue] at query time 50. *)
Lemma dequeue_redelivers_and_is_early : ~ neverRedelivered /\ ~ neverEarly.
Proof.
  split.
  - intros H.
    pose (j := mkJob "a" "X" pending 0 3 0 0 None None (Some 2) None).
    destruct (H [(1, OpEnqueue j)] [(3, OpUpdateJob j)] 2 None 4 None "a")
      as (p & Hp & Hf).
    + split; vm_compute; reflexivity.
    + apply list_elem_of_singleton in Hp. subst p. discriminate.
  - intros H.
    pose (j := mkJob "a" "X" pending 0 3 100 100 None None (Some 2) None).
    pose (q := exec [(100, OpEnqueue j)] Queue.empty).
    assert (Hle : dueTime 200 j <= 50).
    { apply (H q 50 200 j
               (mkJob "a" "X" processing 0 3 100 200 None None (Some 2) None)
               (snd (Queue.dequeue (Some 50) 200 q))).
      - vm_compute. reflexivity.
      - vm_compute. reflexivity. }
    vm_compute in Hle. apply Hle. reflexivity.
Qed.

(** ** Moving a job to the dead letter queue *)

Lemma json_moveToDLQ_eq (job : Job) (st : JsonStore) :
  JsonStorage.moveToDLQ job st =
  if lockFile st then (Throw LockTimeout, st)
  else (Ok tt,
        mkJsonStore
          (match findIndex (JsonStorage.has_id (id job)) (jobsFile st) with
           | Some idx => delete idx (jobsFile st)
           | None => jobsFile st
           end)
          (dlqFile st ++ [toJSON job]) false).
Proof.
  unfold JsonStorage.moveToDLQ, JsonStorage.withLock.
  destruct (lockFile st); reflexivity.
Qed.

Lemma sqlite_moveToDLQ_eq (job : Job) (now : Z) (db : Db) :
  SqliteStorage.moveToDLQ job now db =
  if existsb (SqliteStorage.dlq_has_id (id job)) (dlqTable db)
  then (Throw (SqliteConstraintPrimaryKey "dlq" (id job)), db)
  else (Ok tt,
        mkDb (List.filter (fun r => negb (SqliteStorage.row_has_id (id job) r))
                (jobsTable db))
             (dlqTable db ++ [mkDlqRow (id job) (toJSON job) now])).
Proof.
  unfold SqliteStorage.moveToDLQ, SqliteStorage.transaction,
    SqliteStorage.deleteJob, SqliteStorage.insertDlq.
  unfold mbind, M_bind, m_bind, m_get, m_modify, m_throw. cbn.
  destruct (existsb (SqliteStorage.dlq_has_id (id job)) (dlqTable db)); reflexivity.
Qed.

Lemma existsb_app_true {A} (f : A -> bool) (l : list A) (x : A) :
  f x = true -> existsb f (l ++ [x]) = true.
Proof.
  intros H. rewrite existsb_app. simpl. rewrite H.
  destruct (existsb f l); reflexivity.
Qed.

(** C10.  [JsonStorage.moveToDLQ] with the lock free always succeeds: it
    takes the job's document out of the jobs collection if one is there,
    and appends the snapshot to the DLQ whether or not one was; the only
    error it can raise is the lock timeout, never "not found".  Called
    twice for one job it leaves two DLQ entries with that id.
    [SqliteStorage.moveToDLQ] called again for the same job is rejected by
    the primary key of [dlq] and changes nothing. *)
Theorem moveToDLQ_unconditional_append :
  (forall (job : Job) (st : JsonStore),
     match JsonStorage.moveToDLQ job st with
     | (Ok _, st') =>
         lockFile st = false /\
         dlqFile st' = dlqFile st ++ [toJSON job] /\
         jobsFile st' =
           match findIndex (JsonStorage.has_id (id job)) (jobsFile st) with
           | Some idx => delete idx (jobsFile st)
           | None => jobsFile st
           end
     | (Throw e, st') => e = LockTimeout /\ lockFile st = true /\ st' = st
     end) /\
  (forall (job : Job) (st : JsonStore),
     lockFile st = false ->
     exists st2,
       (JsonStorage.moveToDLQ job;; JsonStorage.moveToDLQ job) st = (Ok tt, st2) /\
       dlqFile st2 = dlqFile st ++ [toJSON job; toJSON job]) /\
  (forall (job : Job) (n1 n2 : Z) (db db' : Db),
     SqliteStorage.moveToDLQ job n1 db = (Ok tt, db') ->
     SqliteStorage.moveToDLQ job n2 db' =
       (Throw (SqliteConstraintPrimaryKey "dlq" (id job)), db')).
Proof.
  split; [|split].
  - intros job st. rewrite json_moveToDLQ_eq.
    destruct (lockFile st) eqn:El; cbn; auto.
  - intros job st Hl. unfold mbind, M_bind, m_bind.
    rewrite json_moveToDLQ_eq, Hl, json_moveToDLQ_eq. cbn.
    eexists. split; [reflexivity|]. cbn. rewrite <- app_assoc. reflexivity.
  - intros job n1 n2 db db'. rewrite !sqlite_moveToDLQ_eq.
    destruct (existsb (SqliteStorage.dlq_has_id (id job)) (dlqTable db));
      [discriminate|].
    intros H. inversion H; subst. cbn [dlqTable].
    rewrite existsb_app_true; [reflexivity|].
    unfold SqliteStorage.dlq_has_id. apply bool_decide_eq_true. reflexivity.
Qed.

Lemma moveToDLQ_unconditional_append_witness :
  let job := mkJob "a" "X" dead 1 0 0 20 None None (Some 2) (Some "e") in
  let st := mkJsonStore [] [] false in
  lockFile st = false /\
  (exists st2,
     (JsonStorage.moveToDLQ job;; JsonStorage.moveToDLQ job) st = (Ok tt, st2) /\
     dlqFile st2 = [toJSON job; toJSON job]) /\
  SqliteStorage.moveToDLQ job 40
    (mkDb [] [mkDlqRow "a" (toJSON job) 30]) =
  (Throw (SqliteConstraintPrimaryKey "dlq" "a"),
   mkDb [] [mkDlqRow "a" (toJSON job) 30]).
Proof.
  intros job st.
  destruct moveToDLQ_unconditional_append as (_ & H2 & H3).
  split; [reflexivity|]. split.
  - apply (H2 job st). reflexivity.
  - apply (H3 job 30 40 (mkDb [toJSON job] [])). reflexivity.
Defined.

(** ** Revival from the dead letter queue *)

Lemma findIndex_existsb {A} (p : A -> bool) (l : list A) :
  existsb p l = match findIndex p l with Some _ => true | None => false end.
Proof.
  induction l as [|x l IH]; simpl; [reflexivity|].
  destruct (p x); simpl; [reflexivity|].
  rewrite IH. destruct (findIndex p l); reflexivity.
Qed.

Lemma findIndex_lookup {A} (p : A -> bool) (l : list A) (idx : nat) :
  findIndex p l = Some idx -> exists x, l !! idx = Some x /\ p x = true.
Proof.
  revert idx. induction l as [|y l IH]; simpl; intros idx H; [discriminate|].
  destruct (p y) eqn:E.
  - inversion H; subst. exists y. auto.
  - destruct (findIndex p l) as [k|]; [|discriminate].
    inversion H; subst. destruct (IH k eq_refl) as (x & Hx & Hp).
    exists x. auto.
Qed.

Lemma json_store_unlock (st : JsonStore) :
  lockFile st = false -> mkJsonStore (jobsFile st) (dlqFile st) false = st.
Proof. destruct st as [a b c]. simpl. intros ->. reflexivity. Qed.

(** On the flat-file backend an id that is not in the DLQ gives "not
    found" and changes neither collection. *)
Lemma json_retryFromDLQ_absent (i : string) (now : Z) (st : JsonStore) :
  lockFile st = false ->
  findIndex (JsonStorage.has_id i) (dlqFile st) = None ->
  JsonStorage.retryFromDLQ i now st = (Ok None, st).
Proof.
  intros Hl Hf. unfold JsonStorage.retryFromDLQ, JsonStorage.withLock.
  rewrite Hl. run_m. unfold JsonStorage.readJobs, JsonStorage.readDLQ. run_m.
  cbn. rewrite Hf. cbn. rewrite (json_store_unlock st Hl). reflexivity.
Qed.

(** On the flat-file backend the snapshot of a dead job is taken out of
    the DLQ, reset, and put into the jobs collection: over the document
    with the same id when there is one, at the end otherwise. *)
Lemma json_retryFromDLQ_present (i : string) (now : Z) (st : JsonStore)
    (idx : nat) (snapshot : JobJSON) (j0 : Job) :
  lockFile st = false ->
  findIndex (JsonStorage.has_id i) (dlqFile st) = Some idx ->
  dlqFile st !! idx = Some snapshot ->
  fromJSON snapshot = Ok j0 ->
  state j0 = dead \/ state j0 = failed ->
  exists job,
    resetForRetry now false j0 = Ok job /\
    state job = pending /\ attempts job = 0 /\
    next_attempt_at job = None /\ last_error job = None /\ id job = i /\
    JsonStorage.retryFromDLQ i now st =
      (Ok (Some job),
       mkJsonStore
         (match findIndex (JsonStorage.has_id i) (jobsFile st) with
          | Some jdx => <[jdx := toJSON job]> (jobsFile st)
          | None => jobsFile st ++ [toJSON job]
          end)
         (delete idx (dlqFile st)) false).
Proof.
  intros Hl Hf Hs Hj Hst.
  destruct (resetForRetry now false j0) as [job|e] eqn:Er.
  2:{ unfold resetForRetry in Er. destruct Hst as [E|E]; rewrite E in Er; discriminate. }
  pose proof Er as Hinv. apply resetForRetry_inv in Hinv.
  destruct Hinv as (_ & Hp & Hn & Hle & Ha & Hid & _).
  assert (Hi : id job = i).
  { destruct (findIndex_lookup _ _ _ Hf) as (x & Hx & Hpx).
    assert (x = snapshot) by congruence. subst x.
    unfold JsonStorage.has_id in Hpx. apply bool_decide_eq_true in Hpx.
    apply fromJSON_inv in Hj. destruct Hj as [_ ->]. simpl in Hid. congruence. }
  exists job. repeat split; auto.
  unfold JsonStorage.retryFromDLQ, JsonStorage.withLock.
  rewrite Hl. run_m. unfold JsonStorage.readJobs, JsonStorage.readDLQ,
    JsonStorage.writeJobs, JsonStorage.writeDLQ. run_m.
  cbn. rewrite Hf. cbn. rewrite Hs. cbn. rewrite Hj. cbn. rewrite Er. cbn.
  rewrite Hi, findIndex_existsb.
  destruct (findIndex (JsonStorage.has_id i) (jobsFile st)); reflexivity.
Qed.

(** C9 on the relational backend, where it fails.  When the DLQ holds the
    snapshot of a dead job and [jobs] holds a row with the same id,
    [SqliteStorage.retryFromDLQ] does not overwrite that row: the INSERT
    of [enqueue] violates the primary key, the call throws, and the
    transaction is rolled back, the snapshot staying in the DLQ. *)
Theorem sqlite_retryFromDLQ_collision :
  forall (i : string) (now : Z) (db : Db) (row : DlqRow) (j0 : Job),
    List.find (SqliteStorage.dlq_has_id i) (dlqTable db) = Some row ->
    fromJSON (payload row) = Ok j0 ->
    state j0 = dead ->
    existsb (SqliteStorage.row_has_id (id j0)) (jobsTable db) = true ->
    SqliteStorage.retryFromDLQ i now db =
      (Throw (SqliteConstraintPrimaryKey "jobs" (id j0)), db).
Proof.
  intros i now db row j0 Hf Hj Hs He.
  unfold SqliteStorage.retryFromDLQ, SqliteStorage.transaction.
  run_m. rewrite Hf. unfold SqliteStorage.deleteDlq. run_m. cbn.
  rewrite Hj. cbn.
  unfold resetForRetry. rewrite Hs. cbn.
  unfold SqliteStorage.enqueue, SqliteStorage.insertJob. run_m. cbn.
  rewrite He. reflexivity.
Qed.

Lemma sqlite_retryFromDLQ_collision_witness :
  let db := snd (deadThenReusedId SqliteStorage.tieFirst (mkDb [] [])) in
  fst (deadThenReusedId SqliteStorage.tieFirst (mkDb [] [])) = Ok tt /\
  SqliteStorage.retryFromDLQ "a" 40 db =
    (Throw (SqliteConstraintPrimaryKey "jobs" "a"), db) /\
  exists revived,
    (deadThenReusedIdJson;; JsonStorage.retryFromDLQ "a" 40)
      (mkJsonStore [] [] false) =
    (Ok (Some revived), mkJsonStore [toJSON revived] [] false).
Proof.
  intros db. split; [reflexivity|]. split.
  - apply (sqlite_retryFromDLQ_collision "a" 40 db
             (mkDlqRow "a" (mkJobJSON "a" "X" dead 1 0 0 20 None None (Some 2) (Some "e")) 20)
             (mkJob "a" "X" dead 1 0 0 20 None None (Some 2) (Some "e")));
      reflexivity.
  - exists (mkJob "a" "X" pending 0 0 0 40 None None (Some 2) None).
    vm_compute. reflexivity.
Defined.

(** ** The retry after the last budgeted failure *)

(** [markFailed] keeps a job [failed], with a retry time, up to and
    including [attempts = max_retries]; [isDue] asks for
    [attempts < max_retries].  At [attempts = max_retries] the job is
    [failed] and due at no time. *)
Lemma failed_at_budget_never_due (j : Job) (at_ : Z) :
  state j = failed -> attempts j = max_retries j -> isDue at_ j = false.
Proof.
  intros Hs Ha. unfold isDue, isRetryable. rewrite Hs, Ha, Z.ltb_irrefl.
  reflexivity.
Qed.

(** Inside the years 0000 to 9999 the strings compare as the instants. *)
Lemma isoCompare_common (a b : Z) :
  SqliteStorage.YEAR_0 <= a < SqliteStorage.YEAR_10000 ->
  SqliteStorage.YEAR_0 <= b < SqliteStorage.YEAR_10000 ->
  SqliteStorage.isoCompare a b = a - b.
Proof.
  intros Ha Hb. unfold SqliteStorage.isoCompare, SqliteStorage.isoClass.
  destruct (Z.leb_spec SqliteStorage.YEAR_10000 a); [lia|].
  destruct (Z.leb_spec SqliteStorage.YEAR_10000 b); [lia|].
  destruct (Z.ltb_spec a SqliteStorage.YEAR_0); [lia|].
  destruct (Z.ltb_spec b SqliteStorage.YEAR_0); [lia|].
  rewrite bool_decide_eq_false_2 by (intros HH; apply HH; reflexivity).
  reflexivity.
Qed.

(** From year 10000 on the string begins with ['+'] and sorts before
    every string of the years 0000 to 9999. *)
Lemma isoCompare_past_9999 (a b : Z) :
  SqliteStorage.YEAR_0 <= a < SqliteStorage.YEAR_10000 ->
  SqliteStorage.YEAR_10000 <= b ->
  SqliteStorage.isoCompare a b = 2.
Proof.
  intros Ha Hb. unfold SqliteStorage.isoCompare, SqliteStorage.isoClass.
  destruct (Z.leb_spec SqliteStorage.YEAR_10000 a); [lia|].
  destruct (Z.leb_spec SqliteStorage.YEAR_10000 b); [|lia].
  destruct (Z.ltb_spec a SqliteStorage.YEAR_0); [lia|].
  rewrite bool_decide_eq_true_2 by discriminate.
  reflexivity.
Qed.

(** A lease on a table of one row does not depend on the engine. *)
Lemma sqlite_leaseNext_single tie (t now : Z) (r : JobsRow) (d : list DlqRow) :
  SqliteStorage.leaseNext tie (Some t) now (mkDb [r] d) =
  if SqliteStorage.dueRow t r then
    match fromJSON (JsonStorage.leasedCopy t r) with
    | Ok j => (Ok (Some j), mkDb [JsonStorage.leasedCopy t r] d)
    | Throw e => (Throw e, mkDb [JsonStorage.leasedCopy t r] d)
    end
  else (Ok None, mkDb [r] d).
Proof.
  unfold SqliteStorage.leaseNext, SqliteStorage.transaction.
  change (default now (Some t)) with t.
  unfold mbind, M_bind, m_bind.
  rewrite leaseLoop_step, select_single.
  destruct (SqliteStorage.dueRow t r) eqn:Hd; [|reflexivity].
  rewrite update_single by exact Hd. cbn [fst snd jobsTable].
  rewrite bool_decide_eq_true_2 by reflexivity. cbn [List.find].
  change (json_id r) with (json_id (JsonStorage.leasedCopy t r)).
  rewrite row_has_id_refl. unfold m_lift, rowToJSON.
  destruct (fromJSON (JsonStorage.leasedCopy t r)); reflexivity.
Qed.

Lemma sqlite_lease_single tie (t : Z) (r : JobsRow) (d : list DlqRow) :
  SqliteStorage.dueRow t r = true ->
  fst (SqliteStorage.leaseNext tie (Some t) t (mkDb [r] d)) =
  match fromJSON (JsonStorage.leasedCopy t r) with
  | Ok j => Ok (Some j)
  | Throw e => Throw e
  end.
Proof.
  intros Hd. rewrite sqlite_leaseNext_single, Hd.
  destruct (fromJSON (JsonStorage.leasedCopy t r)); reflexivity.
Qed.

Lemma firstFailureSqlite_run tie :
  firstFailureSqlite tie (mkDb [] []) =
  (Ok (mkJob "a" "X" failed 1 1 0 20 None (Some 2020) (Some 2) (Some "e")),
   mkDb [mkJobJSON "a" "X" failed 1 1 0 20 None (Some 2020) (Some 2) (Some "e")] []).
Proof.
  unfold firstFailureSqlite.
  assert (Hc : create "u" 0 retryJobInit
               = Ok (mkJob "a" "X" pending 0 1 0 0 None None (Some 2) None))
    by (vm_compute; reflexivity).
  unfold mbind, M_bind, m_bind at 1. unfold m_lift at 1. rewrite Hc.
  unfold m_bind at 1.
  assert (He : SqliteStorage.enqueue
                 (mkJob "a" "X" pending 0 1 0 0 None None (Some 2) None) (mkDb [] [])
               = (Ok tt, mkDb [mkJobJSON "a" "X" pending 0 1 0 0 None None (Some 2) None] []))
    by (vm_compute; reflexivity).
  rewrite He. unfold m_bind at 1.
  rewrite sqlite_leaseNext_single.
  vm_compute. reflexivity.
Qed.

(** C5 on the flat-file backend, where it fails at the second lease.  The
    job with [max_retries = 1] and [backoff_base = 2], leased and failed
    once at time 20, is [failed] with [attempts = 1] and
    [next_attempt_at = 20 + 2] seconds; from then on
    [JsonStorage.leaseNext] returns no job at any query time, while
    [SqliteStorage.leaseNext] on the same history returns the job at every
    query time from [next_attempt_at] to the end of year 9999 (and at none
    after it, where the query time is written with a sign and compares
    as text below every four-digit year). *)
Theorem json_second_lease_returns_nothing :
  exists (f : Job) (st : JsonStore) (db : Db),
    firstFailureJson (mkJsonStore [] [] false) = (Ok f, st) /\
    (forall tie, firstFailureSqlite tie (mkDb [] []) = (Ok f, db)) /\
    state f = failed /\ attempts f = 1 /\
    next_attempt_at f = Some (20 + 2 * 1000) /\
    (forall at_opt now, fst (JsonStorage.leaseNext at_opt now st) = Ok None) /\
    (forall tie at_, 2020 <= at_ -> at_ < SqliteStorage.YEAR_10000 ->
       exists j, fst (SqliteStorage.leaseNext tie (Some at_) at_ db) = Ok (Some j) /\
                 id j = "a" /\ state j = processing /\ attempts j = 1) /\
    (forall tie at_, SqliteStorage.YEAR_10000 <= at_ ->
       fst (SqliteStorage.leaseNext tie (Some at_) at_ db) = Ok None).
Proof.
  exists (mkJob "a" "X" failed 1 1 0 20 None (Some 2020) (Some 2) (Some "e")).
  exists (mkJsonStore
            [mkJobJSON "a" "X" failed 1 1 0 20 None (Some 2020) (Some 2) (Some "e")]
            [] false).
  exists (mkDb
            [mkJobJSON "a" "X" failed 1 1 0 20 None (Some 2020) (Some 2) (Some "e")]
            []).
  split; [vm_compute; reflexivity|].
  split; [exact firstFailureSqlite_run|].
  split; [reflexivity|]. split; [reflexivity|]. split; [reflexivity|].
  split; [|split].
  - intros at_opt now. vm_compute. reflexivity.
  - intros tie at_ Hat Hmax.
    exists (mkJob "a" "X" processing 1 1 0 at_ None (Some 2020) (Some 2) (Some "e")).
    split; [|auto].
    rewrite sqlite_lease_single; [reflexivity|].
    unfold SqliteStorage.dueRow. cbn [json_state json_next_attempt_at].
    rewrite isoCompare_common by (unfold SqliteStorage.YEAR_0, SqliteStorage.YEAR_10000 in *; lia).
    apply Z.leb_le. lia.
  - intros tie at_ Hat.
    rewrite sqlite_leaseNext_single.
    unfold SqliteStorage.dueRow. cbn [json_state json_next_attempt_at].
    rewrite isoCompare_past_9999
      by (unfold SqliteStorage.YEAR_0, SqliteStorage.YEAR_10000 in *; lia).
    reflexivity.
Qed.

(** The run that C5 describes goes through on the relational backend:
    [failed] with one attempt and a retry two seconds after the failure,
    [dead] with two attempts, one DLQ entry, [pending] with no attempts
    after the revival, [completed] with the DLQ empty. *)
Lemma sqlite_end_to_end tie :
  exists db,
    endToEndSqlite tie (mkDb [] []) =
    (Ok (mkObserved
           (mkJob "a" "X" failed 1 1 0 20 None (Some 2020) (Some 2) (Some "e1"))
           (mkJob "a" "X" dead 2 1 0 2030 None None (Some 2) (Some "e2"))
           1
           (mkJob "a" "X" pending 0 1 0 3000 None None (Some 2) None)
           (mkJob "a" "X" completed 0 1 0 3020 None None (Some 2) None)
           0),
     db).
Proof.
  eexists. unfold endToEndSqlite.
  assert (Hc : create "u" 0 retryJobInit
               = Ok (mkJob "a" "X" pending 0 1 0 0 None None (Some 2) None))
    by (vm_compute; reflexivity).
  unfold mbind, M_bind, m_bind at 1. unfold m_lift at 1. rewrite Hc.
  unfold m_bind at 1.
  assert (He : SqliteStorage.enqueue
                 (mkJob "a" "X" pending 0 1 0 0 None None (Some 2) None) (mkDb [] [])
               = (Ok tt, mkDb [mkJobJSON "a" "X" pending 0 1 0 0 None None (Some 2) None] []))
    by (vm_compute; reflexivity).
  rewrite He. unfold m_bind at 1.
  rewrite sqlite_leaseNext_single.
  change (SqliteStorage.dueRow 10
            (mkJobJSON "a" "X" pending 0 1 0 0 None None (Some 2) None)) with true.
  cbv iota.
  assert (H1 : fromJSON (JsonStorage.leasedCopy 10
                 (mkJobJSON "a" "X" pending 0 1 0 0 None None (Some 2) None))
               = Ok (mkJob "a" "X" processing 0 1 0 10 None None (Some 2) None))
    by (vm_compute; reflexivity).
  rewrite H1.
  unfold m_bind at 1. unfold expectJob at 1. unfold m_ret at 1.
  unfold m_bind at 1. unfold m_lift at 1.
  assert (Hf1 : returned (markFailed 20 (StringValue "e1")
                  (mkJob "a" "X" processing 0 1 0 10 None None (Some 2) None))
                = Ok (mkJob "a" "X" failed 1 1 0 20 None (Some 2020) (Some 2) (Some "e1")))
    by (vm_compute; reflexivity).
  rewrite Hf1.
  unfold m_bind at 1.
  assert (Hu : SqliteStorage.update
                 (mkJob "a" "X" failed 1 1 0 20 None (Some 2020) (Some 2) (Some "e1"))
                 (mkDb [JsonStorage.leasedCopy 10
                          (mkJobJSON "a" "X" pending 0 1 0 0 None None (Some 2) None)] [])
               = (Ok tt, mkDb [mkJobJSON "a" "X" failed 1 1 0 20 None (Some 2020)
                                 (Some 2) (Some "e1")] []))
    by (vm_compute; reflexivity).
  rewrite Hu. unfold m_bind at 1.
  rewrite sqlite_leaseNext_single.
  change (SqliteStorage.dueRow 2020
            (mkJobJSON "a" "X" failed 1 1 0 20 None (Some 2020) (Some 2) (Some "e1")))
    with true.
  cbv iota.
  assert (H2 : fromJSON (JsonStorage.leasedCopy 2020
                 (mkJobJSON "a" "X" failed 1 1 0 20 None (Some 2020) (Some 2) (Some "e1")))
               = Ok (mkJob "a" "X" processing 1 1 0 2020 None (Some 2020) (Some 2)
                       (Some "e1")))
    by (vm_compute; reflexivity).
  rewrite H2.
  unfold m_bind at 1. unfold expectJob at 1. unfold m_ret at 1.
  unfold m_bind at 1. unfold m_lift at 1.
  assert (Hf2 : returned (markFailed 2030 (StringValue "e2")
                  (mkJob "a" "X" processing 1 1 0 2020 None (Some 2020) (Some 2)
                     (Some "e1")))
                = Ok (mkJob "a" "X" dead 2 1 0 2030 None None (Some 2) (Some "e2")))
    by (vm_compute; reflexivity).
  rewrite Hf2.
  unfold m_bind at 1.
  match goal with |- context [SqliteStorage.moveToDLQ ?j ?t ?d] =>
    let r := eval vm_compute in (SqliteStorage.moveToDLQ j t d) in
    change (SqliteStorage.moveToDLQ j t d) with r
  end.
  cbv iota. unfold m_bind at 1.
  match goal with |- context [SqliteStorage.listDLQ ?d] =>
    let r := eval vm_compute in (SqliteStorage.listDLQ d) in
    change (SqliteStorage.listDLQ d) with r
  end.
  cbv iota. unfold m_bind at 1.
  match goal with |- context [SqliteStorage.retryFromDLQ ?i ?t ?d] =>
    let r := eval vm_compute in (SqliteStorage.retryFromDLQ i t d) in
    change (SqliteStorage.retryFromDLQ i t d) with r
  end.
  cbv iota. unfold m_bind at 1. unfold expectJob at 1. unfold m_ret at 1.
  unfold m_bind at 1.
  rewrite sqlite_leaseNext_single.
  vm_compute. reflexivity.
Qed.

(** ** A lease on a store of many documents *)

(** Whatever else the store holds, the job [JsonStorage.leaseNext] hands
    back is the hydration of one of its documents with [state] and
    [updated_at] assigned, that document is replaced in place, and the DLQ
    is not touched. *)
Lemma json_lease_any_store (at_opt : option Z) (now : Z) (st st' : JsonStore)
    (j' : Job) :
  JsonStorage.leaseNext at_opt now st = (Ok (Some j'), st') ->
  exists idx doc,
    jobsFile st !! idx = Some doc /\
    fromJSON (JsonStorage.leasedCopy now doc) = Ok j' /\
    jobsFile st' = <[idx := JsonStorage.leasedCopy now doc]> (jobsFile st) /\
    dlqFile st' = dlqFile st /\ lockFile st = false /\ lockFile st' = false.
Proof.
  unfold JsonStorage.leaseNext, JsonStorage.withLock.
  destruct (lockFile st) eqn:El; [discriminate|].
  run_m. unfold JsonStorage.readJobs, JsonStorage.writeJobs. run_m.
  cbn [jobsFile dlqFile lockFile].
  destruct (JsonStorage.dueCandidates (default now at_opt) (jobsFile st))
    as [cands|e]; [|discriminate].
  destruct (stable_sort JsonStorage.compareCandidates cands) as [|sel rest];
    [discriminate|].
  destruct (findIndex (JsonStorage.has_id (json_id sel)) (jobsFile st)) as [idx|];
    [|discriminate].
  destruct (jobsFile st !! idx) as [doc|] eqn:Ed; [|discriminate].
  destruct (fromJSON (JsonStorage.leasedCopy now doc)) as [jl|e] eqn:Ef;
    [|discriminate].
  cbn. intros H. inversion H; subst.
  exists idx, doc. cbn. auto 10.
Qed.

Lemma leasedCopy_hydrated (now : Z) (d : JobJSON) (j : Job) :
  fromJSON (JsonStorage.leasedCopy now d) = Ok j ->
  id j = json_id d /\ state j = processing.
Proof. intros H. apply fromJSON_inv in H. destruct H as [_ ->]. auto. Qed.

Lemma elem_of_sort_insert {A} (cmp : A -> A -> Z) (x y : A) (l : list A) :
  y ∈ sort_insert cmp x l <-> y = x \/ y ∈ l.
Proof.
  induction l as [|z l IH]; simpl.
  - rewrite list_elem_of_singleton. split; [auto|]. intros [H|H]; [exact H|inversion H].
  - destruct (cmp x z <=? 0).
    + rewrite elem_of_cons. tauto.
    + rewrite !elem_of_cons, IH. tauto.
Qed.

Lemma elem_of_stable_sort {A} (cmp : A -> A -> Z) (y : A) (l : list A) :
  y ∈ stable_sort cmp l <-> y ∈ l.
Proof.
  unfold stable_sort. induction l as [|x l IH]; simpl; [tauto|].
  rewrite elem_of_sort_insert, IH, elem_of_cons. tauto.
Qed.

Lemma dueCandidates_elem (at_ : Z) (docs cands : list JobJSON) (c : JobJSON) :
  JsonStorage.dueCandidates at_ docs = Ok cands ->
  c ∈ cands ->
  c ∈ docs /\ exists job, fromJSON c = Ok job /\ isDue at_ job = true.
Proof.
  revert cands. induction docs as [|d docs IH]; simpl; intros cands H Hc.
  - inversion H; subst. inversion Hc.
  - destruct (fromJSON d) as [job|e] eqn:Ej; [|discriminate]. cbn in H.
    destruct (JsonStorage.dueCandidates at_ docs) as [rest|e]; [|discriminate].
    cbn in H. inversion H; subst. clear H.
    destruct (isDue at_ job) eqn:Ed.
    + apply elem_of_cons in Hc. destruct Hc as [->|Hc].
      * split; [apply list_elem_of_here|]. eauto.
      * destruct (IH rest eq_refl Hc) as [Hin Hjob].
        split; [apply list_elem_of_further; exact Hin | exact Hjob].
    + destruct (IH rest eq_refl Hc) as [Hin Hjob].
      split; [apply list_elem_of_further; exact Hin | exact Hjob].
Qed.

(** With one document per id, the document [leaseNext] rewrites is the
    due candidate it selected. *)
Lemma json_lease_selects_due (at_opt : option Z) (now : Z) (st st' : JsonStore)
    (j' : Job) :
  NoDup (json_id <$> jobsFile st) ->
  JsonStorage.leaseNext at_opt now st = (Ok (Some j'), st') ->
  exists idx doc job,
    jobsFile st !! idx = Some doc /\
    fromJSON doc = Ok job /\ isDue (default now at_opt) job = true /\
    id j' = json_id doc /\ state j' = processing /\
    jobsFile st' = <[idx := JsonStorage.leasedCopy now doc]> (jobsFile st).
Proof.
  intros Hnd. unfold JsonStorage.leaseNext, JsonStorage.withLock.
  destruct (lockFile st) eqn:El; [discriminate|].
  run_m. unfold JsonStorage.readJobs, JsonStorage.writeJobs. run_m.
  cbn [jobsFile dlqFile lockFile].
  destruct (JsonStorage.dueCandidates (default now at_opt) (jobsFile st))
    as [cands|e] eqn:Ec; [|discriminate].
  destruct (stable_sort JsonStorage.compareCandidates cands) as [|sel rest] eqn:Es;
    [discriminate|].
  destruct (findIndex (JsonStorage.has_id (json_id sel)) (jobsFile st)) as [idx|] eqn:Ef;
    [|discriminate].
  destruct (jobsFile st !! idx) as [doc|] eqn:Ed; [|discriminate].
  destruct (fromJSON (JsonStorage.leasedCopy now doc)) as [jl|e] eqn:El2;
    [|discriminate].
  cbn. intros H. inversion H; subst. clear H.
  assert (Hsel : sel ∈ cands).
  { apply (elem_of_stable_sort JsonStorage.compareCandidates). rewrite Es.
    apply list_elem_of_here. }
  destruct (dueCandidates_elem _ _ _ _ Ec Hsel) as (Hin & job & Hjob & Hdue).
  destruct (findIndex_lookup _ _ _ Ef) as (x & Hx & Hp).
  assert (x = doc) by congruence. subst x.
  unfold JsonStorage.has_id in Hp. apply bool_decide_eq_true in Hp.
  assert (doc = sel).
  { apply list_elem_of_lookup in Hin. destruct Hin as [k Hk].
    assert (idx = k).
    { apply (NoDup_lookup _ idx k (json_id sel) Hnd);
        rewrite list_lookup_fmap; [rewrite Ed | rewrite Hk]; cbn; congruence. }
    congruence. }
  subst doc. exists idx, sel, job.
  apply leasedCopy_hydrated in El2. destruct El2 as [Hi Hs].
  cbn. auto 10.
Qed.

(** No double lease in a serial run of the flat-file backend: the job one
    [leaseNext] returned is not returned by the next one, whatever the
    query times. *)
Lemma json_no_double_lease (a1 a2 : option Z) (n1 n2 : Z)
    (st st1 st2 : JsonStore) (j1 j2 : Job) :
  NoDup (json_id <$> jobsFile st) ->
  JsonStorage.leaseNext a1 n1 st = (Ok (Some j1), st1) ->
  JsonStorage.leaseNext a2 n2 st1 = (Ok (Some j2), st2) ->
  id j1 <> id j2.
Proof.
  intros Hnd H1 H2.
  destruct (json_lease_selects_due _ _ _ _ _ Hnd H1)
    as (i1 & d1 & b1 & Hd1 & _ & _ & Hid1 & _ & Hst1).
  assert (Hnd1 : NoDup (json_id <$> jobsFile st1)).
  { rewrite Hst1, list_fmap_insert. cbn.
    rewrite list_insert_id; [exact Hnd|].
    rewrite list_lookup_fmap, Hd1. reflexivity. }
  destruct (json_lease_selects_due _ _ _ _ _ Hnd1 H2)
    as (i2 & d2 & b2 & Hd2 & Hb2 & Hdue2 & Hid2 & _ & _).
  intros Heq.
  assert (Hl1 : jobsFile st1 !! i1 = Some (JsonStorage.leasedCopy n1 d1)).
  { rewrite Hst1. apply list_lookup_insert_eq. eapply lookup_lt_Some; eauto. }
  assert (i1 = i2).
  { apply (NoDup_lookup _ i1 i2 (id j1) Hnd1);
      rewrite list_lookup_fmap; [rewrite Hl1 | rewrite Hd2]; cbn; congruence. }
  subst i2. assert (d2 = JsonStorage.leasedCopy n1 d1) by congruence. subst d2.
  apply fromJSON_inv in Hb2. destruct Hb2 as [_ ->].
  unfold isDue in Hdue2. cbn in Hdue2. discriminate.
Qed.

(** ** Worked runs of the queue *)

(** Job [a] is enqueued before job [b]; [a] fails once and is due again at
    2020, the time [b] is scheduled for.  At 2020 the pending set, scanned
    first, holds [b] and the failed set holds [a]: [dequeue] returns [a],
    the earlier insertion. *)
Example dequeue_tie_prefers_earlier_insertion :
  let a := mkJob "a" "X" pending 0 3 0 0 None None (Some 2) None in
  let b := mkJob "b" "Y" pending 0 3 5 5 (Some 2020) None (Some 2) None in
  let q := exec [(0, OpEnqueue a); (5, OpEnqueue b); (10, OpDequeue None);
                 (20, OpFail "a" (StringValue "e"))] Queue.empty in
  bs_pending (byState q) = ["b"] /\ bs_failed (byState q) = ["a"] /\
  fst (step 2020 (OpDequeue None) q) = Some "a" /\
  fst (step 2020 (OpDequeue None) (snd (step 2020 (OpDequeue None) q))) = Some "b".
Proof. vm_compute. auto. Qed.

(** The same queue one millisecond earlier: nothing is due. *)
Example dequeue_nothing_due :
  let a := mkJob "a" "X" pending 0 3 0 0 None None (Some 2) None in
  let b := mkJob "b" "Y" pending 0 3 5 5 (Some 2020) None (Some 2) None in
  let q := exec [(0, OpEnqueue a); (5, OpEnqueue b); (10, OpDequeue None);
                 (20, OpFail "a" (StringValue "e"))] Queue.empty in
  Queue.dequeue None 2019 q = (Ok None, q).
Proof. vm_compute. reflexivity. Qed.

(** * Further properties *)

#[local] Arguments Queue.moveState : simpl never.

(** ** The command of a created job *)

Lemma after_prefix_spec (p l r : list Ascii.ascii) :
  after_prefix p l = Some r <-> l = p ++ r.
Proof.
  revert l. induction p as [|a p IH]; intros l; simpl.
  - split; [intros H; inversion H; reflexivity | intros ->; reflexivity].
  - destruct l as [|b l]; [split; discriminate|].
    destruct (Ascii.eqb a b) eqn:E.
    + apply Ascii.eqb_eq in E. subst b. rewrite IH.
      split; [intros ->; reflexivity | intros H; inversion H; reflexivity].
    + apply Ascii.eqb_neq in E. split; [discriminate|].
      intros H. inversion H. congruence.
Qed.

Lemma after_any_Some (pats : list (list Ascii.ascii)) (l r : list Ascii.ascii) :
  after_any pats l = Some r -> exists p, p ∈ pats /\ l = p ++ r.
Proof.
  induction pats as [|p ps IH]; simpl; [discriminate|].
  destruct (after_prefix p l) as [r'|] eqn:E.
  - intros H. inversion H; subst. exists p. split; [apply list_elem_of_here|].
    apply after_prefix_spec. exact E.
  - intros H. destruct (IH H) as (p' & Hp & Hl). exists p'.
    split; [apply list_elem_of_further; exact Hp | exact Hl].
Qed.

Lemma after_any_None (pats : list (list Ascii.ascii)) (l : list Ascii.ascii) :
  after_any pats l = None <-> forall p r, p ∈ pats -> l <> p ++ r.
Proof.
  induction pats as [|p ps IH]; simpl.
  - split; [intros _ p r Hp; inversion Hp | reflexivity].
  - destruct (after_prefix p l) as [r'|] eqn:E.
    + split; [discriminate|]. intros H. exfalso.
      apply (H p r' (list_elem_of_here _ _)). apply after_prefix_spec. exact E.
    + rewrite IH. split.
      * intros H p' r Hp. apply elem_of_cons in Hp. destruct Hp as [->|Hp]; [|eauto].
        intros Hl. apply after_prefix_spec in Hl. congruence.
      * intros H p' r Hp. apply H. apply list_elem_of_further. exact Hp.
Qed.

(** A string that starts with none of the patterns has no prefix that
    does. *)
Lemma after_any_prefix (pats : list (list Ascii.ascii)) (l y : list Ascii.ascii) :
  after_any pats (l ++ y) = None -> after_any pats l = None.
Proof.
  rewrite !after_any_None. intros H p r Hp Hl. apply (H p (r ++ y) Hp).
  rewrite Hl, <- app_assoc. reflexivity.
Qed.

Lemma strip_suffix (n : nat) (pats : list (list Ascii.ascii)) :
  forall l, exists x, l = x ++ strip n pats l.
Proof.
  induction n as [|n IH]; intros l; simpl; [exists []; reflexivity|].
  destruct (after_any pats l) as [r|] eqn:E; [|exists []; reflexivity].
  apply after_any_Some in E. destruct E as (p & _ & ->).
  destruct (IH r) as (x & Hx). exists (p ++ x).
  rewrite <- app_assoc, <- Hx. reflexivity.
Qed.

Lemma strip_done (n : nat) (pats : list (list Ascii.ascii)) :
  Forall (fun p => p <> []) pats ->
  forall l, (length l <= n)%nat -> after_any pats (strip n pats l) = None.
Proof.
  intros Hne. induction n as [|n IH]; intros l Hl; simpl.
  - destruct l; [|simpl in Hl; lia].
    apply after_any_None. intros p r Hp Hnil.
    symmetry in Hnil. apply app_eq_nil in Hnil. destruct Hnil as [-> _].
    rewrite Forall_forall in Hne. exact (Hne _ Hp eq_refl).
  - destruct (after_any pats l) as [r|] eqn:E; [|exact E].
    apply IH. apply after_any_Some in E. destruct E as (p & Hp & ->).
    rewrite Forall_forall in Hne. specialize (Hne _ Hp).
    rewrite length_app in Hl. destruct p; [congruence|]. simpl in Hl. lia.
Qed.

Lemma strip_clean (n : nat) (pats : list (list Ascii.ascii)) (l : list Ascii.ascii) :
  after_any pats l = None -> strip n pats l = l.
Proof. destruct n; simpl; [reflexivity|]. intros ->. reflexivity. Qed.

Lemma white_space_nonempty : Forall (fun p => p <> []) white_space.
Proof. repeat constructor; discriminate. Qed.

Lemma white_space_rev_nonempty : Forall (fun p => p <> []) (map (@rev _) white_space).
Proof. repeat constructor; discriminate. Qed.

Lemma list_of_string_length (s : string) :
  length (String.list_ascii_of_string s) = String.length s.
Proof. induction s; simpl; congruence. Qed.

Lemma trim_start_no_space (s : string) : starts_with_space (trim_start s) = false.
Proof.
  unfold starts_with_space, trim_start.
  rewrite String.list_ascii_of_string_of_list_ascii.
  rewrite strip_done;
    [| exact white_space_nonempty | rewrite list_of_string_length; lia].
  apply bool_decide_eq_false_2. intros [x Hx]. discriminate.
Qed.

Lemma trim_end_no_space (s : string) : ends_with_space (trim_end s) = false.
Proof.
  unfold ends_with_space, trim_end.
  rewrite String.list_ascii_of_string_of_list_ascii, rev_involutive.
  rewrite strip_done;
    [| exact white_space_rev_nonempty
     | rewrite length_rev, list_of_string_length; lia].
  apply bool_decide_eq_false_2. intros [x Hx]. discriminate.
Qed.

(** Stripping the end uncovers no white space at the start. *)
Lemma trim_end_keeps_head (s : string) :
  starts_with_space s = false -> starts_with_space (trim_end s) = false.
Proof.
  unfold starts_with_space, trim_end. intros H.
  apply bool_decide_eq_false_1 in H.
  rewrite String.list_ascii_of_string_of_list_ascii.
  destruct (strip_suffix (String.length s) (map (@rev _) white_space)
              (rev (String.list_ascii_of_string s))) as (x & Hx).
  assert (Hl : String.list_ascii_of_string s =
               rev (strip (String.length s) (map (@rev _) white_space)
                      (rev (String.list_ascii_of_string s))) ++ rev x).
  { rewrite <- rev_app_distr, <- Hx, rev_involutive. reflexivity. }
  apply bool_decide_eq_false_2. intros [r Hr]. apply H.
  destruct (after_any white_space (String.list_ascii_of_string s)) as [r'|] eqn:E;
    [eauto|].
  rewrite Hl in E. apply after_any_prefix in E. congruence.
Qed.

Lemma trim_start_id (s : string) :
  starts_with_space s = false -> trim_start s = s.
Proof.
  unfold starts_with_space, trim_start. intros H.
  apply bool_decide_eq_false_1 in H.
  rewrite strip_clean; [apply String.string_of_list_ascii_of_string|].
  destruct (after_any white_space (String.list_ascii_of_string s)); [|reflexivity].
  exfalso. apply H. eauto.
Qed.

Lemma trim_end_id (s : string) :
  ends_with_space s = false -> trim_end s = s.
Proof.
  unfold ends_with_space, trim_end. intros H.
  apply bool_decide_eq_false_1 in H.
  rewrite strip_clean.
  - rewrite rev_involutive. apply String.string_of_list_ascii_of_string.
  - destruct (after_any _ (rev (String.list_ascii_of_string s))); [|reflexivity].
    exfalso. apply H. eauto.
Qed.

Lemma trim_clean (s : string) :
  starts_with_space (trim s) = false /\ ends_with_space (trim s) = false /\
  trim (trim s) = trim s.
Proof.
  assert (H1 : starts_with_space (trim s) = false).
  { unfold trim. apply trim_end_keeps_head, trim_start_no_space. }
  assert (H2 : ends_with_space (trim s) = false).
  { unfold trim. apply trim_end_no_space. }
  split; [exact H1|]. split; [exact H2|].
  unfold trim at 1. rewrite (trim_start_id _ H1). apply trim_end_id. exact H2.
Qed.

(** A command between a no-break space and a byte order mark comes out
    bare, and a command of white space alone is refused. *)
Example trim_strips_unicode_space :
  let nbsp := [Ascii.ascii_of_nat 194; Ascii.ascii_of_nat 160] in
  let bom := [Ascii.ascii_of_nat 239; Ascii.ascii_of_nat 187; Ascii.ascii_of_nat 191] in
  let padded := String.string_of_list_ascii (nbsp ++ String.list_ascii_of_string "X" ++ bom) in
  trim padded = "X" /\
  command <$> to_option (create "u" 0 (mkJobInit (Some "a") padded None None None))
    = Some "X" /\
  create "u" 0 (mkJobInit (Some "a") (String.string_of_list_ascii nbsp) None None None)
    = Throw CommandRequired.
Proof. vm_compute. auto. Qed.

Lemma step_keeps_identity (t : Transition) (j j' : Job) :
  applyTransition t j = Some j' ->
  id j' = id j /\ command j' = command j /\ max_retries j' = max_retries j /\
  created_at j' = created_at j /\ run_at j' = run_at j /\
  backoff_base j' =
    match t with
    | TJsonLease _ _ | TSqliteLease _ =>
        Some (default DEFAULT_BACKOFF_BASE (backoff_base j))
    | _ => backoff_base j
    end.
Proof.
  destruct t as [now|now|now e|now k|now|at_ now|at_]; cbn [applyTransition]; intros H.
  - destruct (markProcessing now j) as [x|] eqn:E; inversion H; subst.
    apply markProcessing_inv in E. destruct E as [_ ->]. simpl. auto 10.
  - destruct (markCompleted now j) as [x|] eqn:E; inversion H; subst.
    unfold markCompleted in E. destruct (state j); inversion E; subst. simpl. auto 10.
  - change (applyTransition (TMarkFailed now e) j = Some j') in H.
    apply markFailed_step_snd in H. subst j'.
    destruct (markFailed_keeps now e j) as (H1 & H2 & H3 & H4 & H5 & H6). auto 10.
  - destruct (resetForRetry now k j) as [x|] eqn:E; inversion H; subst.
    unfold resetForRetry in E. destruct (state j); inversion E; subst; simpl; auto 10.
  - destruct (state j); inversion H; subst; simpl; auto 10.
  - apply json_lease_inv in H. destruct H as [H _].
    apply leased_fields in H. destruct H as [_ ->]. simpl. auto 10.
  - apply sqlite_lease_inv in H. destruct H as [H _].
    apply leased_fields in H. destruct H as [_ ->]. simpl. auto 10.
Qed.

(** X1.  The command of a job made by [create] is the trimmed input; it
    is not empty, neither starts nor ends with white space, and stays as
    it is through every transition and lease. *)
Theorem created_command_is_trimmed :
  forall uuid now init j0 ts j,
    create uuid now init = Ok j0 ->
    runTransitions ts j0 = Some j ->
    command j = trim (init_command init) /\
    command j <> EmptyString /\
    starts_with_space (command j) = false /\
    ends_with_space (command j) = false /\
    trim (command j) = command j.
Proof.
  intros uuid now init j0 ts j Hc Hr.
  assert (Hcmd : command j = command j0).
  { apply (runTransitions_ind_from (fun x => command x = command j0)) with (ts := ts) (j0 := j0);
      [| reflexivity | exact Hr].
    intros t a b E Ha. apply step_keeps_identity in E.
    destruct E as (_ & Hb & _). congruence. }
  pose proof Hc as Hv. apply create_inv in Hv. destruct Hv as (Hv & _).
  apply validate_ok_iff in Hv. destruct Hv as (_ & Hne & _).
  assert (Hj0 : command j0 = trim (init_command init)).
  { unfold create in Hc.
    match type of Hc with context [validate ?x] =>
      destruct (validate x); [|discriminate] end.
    inversion Hc; subst. reflexivity. }
  rewrite Hcmd, Hj0 in *.
  destruct (trim_clean (init_command init)) as (H1 & H2 & H3). auto 10.
Qed.

Lemma created_command_is_trimmed_witness :
  let j := mkJob "a" "echo  hi" processing 0 3 0 10 None None (Some 2) None in
  command j = trim "  echo  hi  " /\
  command j <> EmptyString /\
  starts_with_space (command j) = false /\
  ends_with_space (command j) = false /\
  trim (command j) = command j.
Proof.
  intros j.
  apply (created_command_is_trimmed "u" 0
           (mkJobInit (Some "a") "  echo  hi  " None None None)
           (mkJob "a" "echo  hi" pending 0 3 0 0 None None (Some 2) None)
           [TMarkProcessing 10] j);
    reflexivity.
Defined.

(** ** The state graph *)

(** X2.  Each step moves a job only along its own edges of the state
    graph: [markProcessing] and the leases from [pending] or [failed] to
    [processing], [markCompleted] from [processing] to [completed],
    [markFailed] from [processing] to [failed] or [dead], [resetForRetry]
    from [dead] or [failed] to [pending], [Queue.requeue] from [failed],
    [processing] or [pending] to [pending].  Nothing leaves [completed]. *)
Theorem transitions_follow_state_graph :
  forall (t : Transition) (j : Job),
    match applyTransition t j with
    | Some j' => legalStep t (state j) (state j') = true
    | None => True
    end /\
    match state j with
    | completed => applyTransition t j = None
    | _ => True
    end.
Proof.
  intros t j. split.
  - destruct (applyTransition t j) as [j'|] eqn:H; [|exact I].
    destruct t as [now|now|now e|now k|now|at_ now|at_]; cbn [applyTransition] in H.
    + destruct (markProcessing now j) as [x|] eqn:E; inversion H; subst.
      apply markProcessing_inv in E. destruct E as [[Hs|Hs] ->]; rewrite Hs; reflexivity.
    + destruct (markCompleted now j) as [x|] eqn:E; inversion H; subst.
      apply markCompleted_inv in E. destruct E as (-> & -> & _). reflexivity.
    + change (applyTransition (TMarkFailed now e) j = Some j') in H.
      apply markFailed_step in H. rename H into E.
      destruct E as (-> & _ & _ & _ & _ & _ & _ & [(_ & -> & _) | (_ & ->)]);
        reflexivity.
    + destruct (resetForRetry now k j) as [x|] eqn:E; inversion H; subst.
      apply resetForRetry_inv in E. destruct E as ([Hs|Hs] & -> & _); rewrite Hs; reflexivity.
    + destruct (state j); inversion H; subst; reflexivity.
    + apply json_lease_inv in H. destruct H as [H (jh & Hh & Hd)].
      apply leased_fields in H. destruct H as [_ ->]. simpl.
      apply fromJSON_inv in Hh. destruct Hh as [_ ->].
      unfold isDue in Hd. simpl in Hd. destruct (state j); try discriminate; reflexivity.
    + apply sqlite_lease_inv in H. destruct H as [H Hd].
      apply leased_fields in H. destruct H as [_ ->]. simpl.
      unfold SqliteStorage.dueRow in Hd. simpl in Hd.
      destruct (state j); try discriminate; reflexivity.
  - destruct (state j) eqn:Hs; try exact I.
    destruct (applyTransition t j) as [j'|] eqn:H; [|reflexivity]. exfalso.
    destruct t as [now|now|now e|now k|now|at_ now|at_]; cbn [applyTransition] in H.
    + unfold markProcessing in H. rewrite Hs in H. discriminate.
    + unfold markCompleted in H. rewrite Hs in H. discriminate.
    + unfold markFailed in H. rewrite Hs in H. discriminate.
    + unfold resetForRetry in H. rewrite Hs in H. discriminate.
    + rewrite Hs in H. discriminate.
    + apply json_lease_inv in H. destruct H as [_ (jh & Hh & Hd)].
      apply fromJSON_inv in Hh. destruct Hh as [_ ->].
      unfold isDue in Hd. simpl in Hd. rewrite Hs in Hd. discriminate.
    + apply sqlite_lease_inv in H. destruct H as [_ Hd].
      unfold SqliteStorage.dueRow in Hd. simpl in Hd. rewrite Hs in Hd. discriminate.
Qed.

(** ** Due times *)

(** X3.  Once due, always due: a job that [isDue] at one time is due at
    every later time, as long as it is not touched. *)
Theorem isDue_monotone :
  forall (j : Job) (t t' : Z),
    isDue t j = true -> t <= t' -> isDue t' j = true.
Proof.
  intros j t t'. unfold isDue.
  destruct (state j); try discriminate.
  - destruct (run_at j) as [r|]; [|reflexivity].
    rewrite !Z.leb_le. lia.
  - destruct (isRetryable j); [|discriminate].
    destruct (next_attempt_at j) as [n|]; [|reflexivity].
    rewrite !Z.leb_le. lia.
Qed.

Lemma isDue_monotone_witness :
  let j := mkJob "a" "X" failed 1 3 0 20 None (Some 2020) (Some 2) (Some "e") in
  isDue 2020 j = true /\ isDue 5000 j = true.
Proof.
  intros j. split; [reflexivity|].
  apply (isDue_monotone j 2020 5000); [reflexivity | lia].
Defined.

(** ** The retry budget along a lifecycle *)

Lemma step_budget (t : Transition) (j j' : Job) :
  applyTransition t j = Some j' ->
  0 <= attempts j ->
  0 <= attempts j' /\
  (state j' = failed -> 1 <= attempts j' <= max_retries j') /\
  (state j' = dead -> max_retries j' < attempts j').
Proof.
  destruct t as [now|now|now e|now k|now|at_ now|at_]; cbn [applyTransition];
    intros H Ha.
  - destruct (markProcessing now j) as [x|] eqn:E; inversion H; subst.
    apply markProcessing_inv in E. destruct E as [_ ->]. simpl.
    repeat split; auto; discriminate.
  - destruct (markCompleted now j) as [x|] eqn:E; inversion H; subst.
    apply markCompleted_inv in E.
    destruct E as (_ & Hs & _ & _ & _ & _ & Hat & _).
    rewrite Hs, Hat. repeat split; auto; discriminate.
  - change (applyTransition (TMarkFailed now e) j = Some j') in H.
    apply markFailed_step in H. rename H into E.
    destruct E as (_ & Hat & _ & _ & Hm & _ & _ & [(Hlt & Hs & _) | (Hle & Hs)]);
      rewrite Hs, Hat, Hm; repeat split; try discriminate; lia.
  - destruct (resetForRetry now k j) as [x|] eqn:E; inversion H; subst.
    apply resetForRetry_inv in E.
    destruct E as (_ & Hs & _ & _ & Hat & _).
    rewrite Hs, Hat. repeat split; try discriminate. destruct k; lia.
  - destruct (state j); inversion H; subst; simpl;
      repeat split; auto; discriminate.
  - apply json_lease_inv in H. destruct H as [H _].
    apply leased_fields in H. destruct H as [_ ->]. simpl.
    repeat split; auto; discriminate.
  - apply sqlite_lease_inv in H. destruct H as [H _].
    apply leased_fields in H. destruct H as [_ ->]. simpl.
    repeat split; auto; discriminate.
Qed.

(** X4.  Along every lifecycle that starts at [create]: [attempts] is
    never negative; a [failed] job has failed at least once and at most
    [max_retries] times; a [dead] job has failed more than [max_retries]
    times. *)
Theorem state_reflects_retry_budget :
  forall uuid now init j0 ts j,
    create uuid now init = Ok j0 ->
    runTransitions ts j0 = Some j ->
    0 <= attempts j /\
    (state j = failed -> 1 <= attempts j <= max_retries j) /\
    (state j = dead -> max_retries j < attempts j).
Proof.
  intros uuid now init j0 ts j Hc Hr.
  apply (runTransitions_ind_from
           (fun x => 0 <= attempts x /\
                     (state x = failed -> 1 <= attempts x <= max_retries x) /\
                     (state x = dead -> max_retries x < attempts x)))
    with (ts := ts) (j0 := j0); [| |exact Hr].
  - intros t a b E (Ha & _). exact (step_budget t a b E Ha).
  - apply create_inv in Hc. destruct Hc as (_ & Hs & Ha & _).
    rewrite Hs, Ha. repeat split; try discriminate; lia.
Qed.

Lemma state_reflects_retry_budget_witness :
  let j := mkJob "a" "X" dead 2 1 0 3010 None None (Some 2) (Some "e2") in
  0 <= attempts j /\
  (state j = failed -> 1 <= attempts j <= max_retries j) /\
  (state j = dead -> max_retries j < attempts j).
Proof.
  intros j.
  apply (state_reflects_retry_budget "u" 0
           (mkJobInit (Some "a") "X" (Some 1) (Some 2) None)
           (mkJob "a" "X" pending 0 1 0 0 None None (Some 2) None)
           [TMarkProcessing 10; TMarkFailed 20 (StringValue "e1");
            TMarkProcessing 3000; TMarkFailed 3010 (StringValue "e2")] j);
    reflexivity.
Defined.

(** ** What never changes, and how attempts are counted *)

(** X5.  The identity of a job is fixed when it is constructed: no
    transition, requeue or lease changes its id, command, retry budget,
    creation time, scheduled time or backoff base. *)
Theorem identity_is_immutable :
  forall (c : Construction) (j0 : Job) (ts : list Transition) (j : Job),
    construct c = Ok j0 ->
    runTransitions ts j0 = Some j ->
    id j = id j0 /\ command j = command j0 /\ max_retries j = max_retries j0 /\
    created_at j = created_at j0 /\ run_at j = run_at j0 /\
    backoff_base j = backoff_base j0.
Proof.
  intros c j0 ts j Hc Hr.
  pose proof (construct_hydrated c j0 Hc) as [_ [b Hb]].
  apply (runTransitions_ind_from
           (fun x => id x = id j0 /\ command x = command j0 /\
                     max_retries x = max_retries j0 /\
                     created_at x = created_at j0 /\ run_at x = run_at j0 /\
                     backoff_base x = backoff_base j0))
    with (ts := ts) (j0 := j0); [| auto 10 | exact Hr].
  intros t a a' E (H1 & H2 & H3 & H4 & H5 & H6).
  apply step_keeps_identity in E.
  destruct E as (E1 & E2 & E3 & E4 & E5 & E6).
  repeat split; try congruence.
  rewrite E6, H6, Hb. destruct t; reflexivity.
Qed.

Lemma identity_is_immutable_witness :
  let j0 := mkJob "a" "X" pending 0 1 0 0 (Some 5) None (Some 2) None in
  let j := mkJob "a" "X" failed 1 1 0 20 (Some 5) (Some 2020) (Some 2) (Some "e") in
  id j = id j0 /\ command j = command j0 /\ max_retries j = max_retries j0 /\
  created_at j = created_at j0 /\ run_at j = run_at j0 /\
  backoff_base j = backoff_base j0.
Proof.
  intros j0 j.
  apply (identity_is_immutable
           (ByCreate "u" 0 (mkJobInit (Some "a") "X" (Some 1) (Some 2) (Some 5)))
           j0 [TJsonLease 10 10; TMarkFailed 20 (StringValue "e")] j);
    reflexivity.
Defined.


(** ** Queue: what a call does *)

Lemma enqueue_effect2 (job : Job) (q : Queue) :
  QueueInv q -> Effect q (snd (Queue.enqueue job q)).
Proof.
  intros Hinv. unfold Queue.enqueue. run_m.
  case_bool_decide as Hin; cbn; [apply EffNone|].
  destruct (state job) eqn:Es; cbn; try apply EffNone.
  assert (Hnone : jobs q !! id job = None).
  { destruct (jobs q !! id job); [exfalso; apply Hin; eauto | reflexivity]. }
  exact (EffEnqueue q job Hnone Es).
Qed.

Lemma dequeue_effect2 (a : option Z) (now : Z) (q : Queue) :
  QueueInv q -> Effect q (snd (Queue.dequeue a now q)).
Proof.
  intros Hinv. rewrite dequeue_eq.
  pose proof (scan_scanned q (default now a) now) as H.
  destruct (Queue.scan q (default now a) now) as [s|]; simpl in H; [|apply EffNone].
  destruct H as (Hin & _ & (job & Hj & Hd & _) & _). rewrite Hj.
  destruct (markProcessing now job) as [job'|e] eqn:Em; [|apply EffNone].
  apply markProcessing_id in Em. destruct Em as [Hid Hst].
  pose proof (inv_key q Hinv _ _ Hj) as Hk.
  cbn [snd].
  replace (Queue.moveState (id job') processing _) with
    (relocate q (Queue.sel_id s) job')
    by (unfold relocate; rewrite Hst, Hid, Hk; reflexivity).
  apply EffRelocate; [congruence | rewrite Hj; eauto].
Qed.

Lemma updateJob_effect2 (u : Job) (q : Queue) :
  QueueInv q -> Effect q (snd (Queue.updateJob u q)).
Proof.
  intros Hinv. unfold Queue.updateJob. run_m.
  destruct (jobs q !! id u) as [existing|] eqn:Ej; cbn; [|apply EffNone].
  pose proof (inv_key q Hinv _ _ Ej) as Hk. rewrite Hk.
  case_bool_decide as Hp; cbn.
  - apply EffReplace; [rewrite Ej; eauto | exact Hp].
  - replace (Queue.set_stateOf _ _) with (relocate q (id u) u).
    + apply EffRelocate; [reflexivity | rewrite Ej; eauto].
    + unfold relocate, Queue.moveState. cbn.
      destruct (stateOf q !! id u) as [p|] eqn:Ep; [|reflexivity].
      rewrite bool_decide_eq_false_2 by congruence. reflexivity.
Qed.

Lemma complete_effect2 (i : string) (now : Z) (q : Queue) :
  QueueInv q -> Effect q (snd (Queue.complete i now q)).
Proof.
  intros Hinv. unfold Queue.complete. run_m.
  destruct (jobs q !! i) as [job|] eqn:Ej; cbn; [|apply EffNone].
  case_bool_decide as Hp; cbn; [|apply EffNone].
  destruct (markCompleted now job) as [job'|e] eqn:Em; cbn; [|apply EffNone].
  apply markCompleted_inv in Em. destruct Em as (_ & Hs & _ & _ & Hid & _).
  pose proof (inv_key q Hinv _ _ Ej) as Hk.
  replace (Queue.moveState i completed _) with (relocate q i job')
    by (unfold relocate; rewrite Hs; reflexivity).
  apply EffRelocate; [congruence | rewrite Ej; eauto].
Qed.

Lemma fail_effect2 (i : string) (e : Thrown) (now : Z) (q : Queue) :
  QueueInv q -> Effect q (snd (Queue.fail i e now q)).
Proof.
  intros Hinv.
  destruct (fail_cases i e now q)
    as [(err & -> & _) | [(job & job' & Hj & Hp & Em & ->) | (job & Hj & Hp & Hs & _ & ->)]];
    cbn [snd].
  - apply EffNone.
  - apply markFailed_inv in Em. destruct Em as (_ & _ & Hid & _).
    pose proof (inv_key q Hinv _ _ Hj) as Hk.
    apply EffRelocate; [congruence | rewrite Hj; eauto].
  - pose proof (inv_key q Hinv _ _ Hj) as Hk. subst i.
    apply (EffStrand q (failedHalfway now e job));
      [cbn; rewrite Hj; eauto | exact Hp | reflexivity].
Qed.

Lemma requeue_effect2 (i : string) (now : Z) (q : Queue) :
  QueueInv q -> Effect q (snd (Queue.requeue i now q)).
Proof.
  intros Hinv. unfold Queue.requeue. run_m.
  destruct (jobs q !! i) as [job|] eqn:Ej; cbn; [|apply EffNone].
  pose proof (inv_key q Hinv _ _ Ej) as Hk.
  destruct (state job) eqn:Es; cbn; try apply EffNone;
    (match goal with |- Effect q ?x =>
       change x with (relocate q i (Queue.markPendingFallback now job)) end;
     apply EffRelocate; [exact Hk | rewrite Ej; eauto]).
Qed.

Lemma resetForRetry_effect2 (i : string) (k : bool) (now : Z) (q : Queue) :
  QueueInv q -> Effect q (snd (Queue.resetForRetry i k now q)).
Proof.
  intros Hinv. unfold Queue.resetForRetry. run_m.
  destruct (jobs q !! i) as [job|] eqn:Ej; cbn; [|apply EffNone].
  destruct (resetForRetry now k job) as [job'|err] eqn:Em; cbn; [|apply EffNone].
  apply resetForRetry_inv in Em.
  destruct Em as (_ & Hs & _ & _ & _ & Hid & _).
  pose proof (inv_key q Hinv _ _ Ej) as Hk.
  replace (Queue.moveState i pending _) with (relocate q i job')
    by (unfold relocate; rewrite Hs; reflexivity).
  apply EffRelocate; [congruence | rewrite Ej; eauto].
Qed.

Lemma step_effect2 (now : Z) (op : Op) (q : Queue) :
  QueueInv q -> Effect q (snd (step now op q)).
Proof.
  intros Hinv. rewrite step_snd. destruct op.
  - apply enqueue_effect2, Hinv.
  - apply dequeue_effect2, Hinv.
  - apply updateJob_effect2, Hinv.
  - apply complete_effect2, Hinv.
  - apply fail_effect2, Hinv.
  - apply requeue_effect2, Hinv.
  - apply resetForRetry_effect2, Hinv.
Qed.

(** ** Queue: the indexes stay consistent *)

Lemma NoDup_set_add (x : string) (l : list string) :
  NoDup l -> NoDup (set_add x l).
Proof.
  intros H. unfold set_add, set_has. case_bool_decide as Hx; [exact H|].
  apply NoDup_app. split; [exact H|]. split.
  - intros y Hy Hy'. apply list_elem_of_singleton in Hy'. subst. contradiction.
  - apply NoDup_singleton.
Qed.

Lemma NoDup_set_delete (x : string) (l : list string) :
  NoDup l -> NoDup (set_delete x l).
Proof. intros H. unfold set_delete. apply NoDup_filter. exact H. Qed.

Lemma moveState_nodup (i : string) (s s' : JobState) (q : Queue) :
  (forall s0, NoDup (bs_get (byState q) s0)) ->
  NoDup (bs_get (byState (Queue.moveState i s q)) s').
Proof.
  intros H. unfold Queue.moveState.
  destruct (stateOf q !! i) as [cur|]; [case_bool_decide as Hc|]; cbn;
    rewrite bs_get_set; case_bool_decide; subst;
    rewrite ?bs_get_set; repeat case_bool_decide;
    auto using NoDup_set_add, NoDup_set_delete.
Qed.

Lemma is_Some_insert_existing {A} (m : gmap string A) (k x : string) (v : A) :
  is_Some (m !! k) -> (is_Some (<[k := v]> m !! x) <-> is_Some (m !! x)).
Proof.
  intros Hk. destruct (decide (x = k)) as [->|Hne].
  - rewrite lookup_insert_eq. split; eauto.
  - rewrite lookup_insert_ne by congruence. tauto.
Qed.

Lemma empty_wf : QueueWf Queue.empty.
Proof.
  split.
  - exact empty_inv.
  - intros i job H. cbn in H. rewrite lookup_empty in H. discriminate.
  - intros s. destruct s; apply NoDup_nil_2.
  - cbn. lia.
  - intros i [x H]. cbn in H. rewrite lookup_empty in H. discriminate.
  - intros i n H. cbn in H. rewrite lookup_empty in H. discriminate.
  - intros i j n H. cbn in H. rewrite lookup_empty in H. discriminate.
Qed.

(** Replacing the object of a job by one that the index of the job
    admits keeps everything the indexes promise. *)
Lemma replace_wf (q : Queue) (job' : Job) (s0 : JobState) :
  QueueWf q ->
  is_Some (jobs q !! id job') ->
  stateOf q !! id job' = Some s0 ->
  state job' = s0 \/ stranded s0 job' ->
  QueueWf (Queue.set_jobs (fun m => <[id job' := job']> m) q).
Proof.
  intros [Hinv Hmem Hnd Hnn Hseq Hbound Hinj] Hk Hst Hidx.
  destruct Hinv as [H1 H2 H3]. split; cbn.
  - split; cbn.
    + exact H1.
    + intros x s. destruct (decide (x = id job')) as [->|Hne].
      * rewrite lookup_insert_eq. intros Hx. exists job'. split; [reflexivity|].
        assert (s = s0) by congruence. subst s. exact Hidx.
      * rewrite lookup_insert_ne by congruence. apply H2.
    + intros x jx. destruct (decide (x = id job')) as [->|Hne].
      * rewrite lookup_insert_eq. intros Hx. inversion Hx; subst. reflexivity.
      * rewrite lookup_insert_ne by congruence. apply H3.
  - intros x jx. destruct (decide (x = id job')) as [->|Hne].
    + rewrite lookup_insert_eq. intros Hx. inversion Hx; subst.
      destruct Hk as [old Hold].
      destruct (Hmem _ _ Hold) as (s1 & Hin & _).
      pose proof (H1 _ _ Hin) as Hs1.
      assert (s1 = s0) by congruence. subst s1.
      exists s0. split; [exact Hin | exact Hidx].
    + rewrite lookup_insert_ne by congruence. apply Hmem.
  - exact Hnd.
  - exact Hnn.
  - intros x. rewrite (is_Some_insert_existing _ _ _ _ Hk). apply Hseq.
  - intros x n. rewrite (is_Some_insert_existing _ _ _ _ Hk). apply Hbound.
  - exact Hinj.
Qed.

Lemma effect_wf (q q' : Queue) : QueueWf q -> Effect q q' -> QueueWf q'.
Proof.
  intros Hwf He.
  destruct He as [|k job' Hid Hk|job' Hk Hst|job' Hk Hst Hf|job Hnone Hs].
  - exact Hwf.
  - (* the job under k is mutated and re-indexed *)
    destruct Hwf as [Hinv Hmem Hnd Hnn Hseq Hbound Hinj].
    unfold relocate. split.
    + apply relocate_inv; assumption.
    + intros x jx. rewrite moveState_jobs. cbn [jobs Queue.set_jobs].
      destruct (decide (x = k)) as [->|Hne].
      * rewrite lookup_insert_eq. intros H. inversion H; subst.
        exists (state jx). split; [apply moveState_adds | left; reflexivity].
      * rewrite lookup_insert_ne by congruence. intros H.
        destruct (Hmem _ _ H) as (s1 & Hin & Hidx).
        exists s1. split; [|exact Hidx].
        apply moveState_keeps; [exact Hne|]. cbn [byState Queue.set_jobs]. exact Hin.
    + intros s. apply moveState_nodup. exact Hnd.
    + destruct (moveState_insertion k (state job')
                  (Queue.set_jobs (fun m => <[k := job']> m) q)) as [_ ->].
      exact Hnn.
    + intros x. rewrite moveState_jobs.
      destruct (moveState_insertion k (state job')
                  (Queue.set_jobs (fun m => <[k := job']> m) q)) as [-> _].
      cbn [jobs Queue.set_jobs]. rewrite (is_Some_insert_existing _ _ _ _ Hk). apply Hseq.
    + intros x n. rewrite moveState_jobs.
      destruct (moveState_insertion k (state job')
                  (Queue.set_jobs (fun m => <[k := job']> m) q)) as [-> ->].
      cbn [jobs Queue.set_jobs]. rewrite (is_Some_insert_existing _ _ _ _ Hk). apply Hbound.
    + intros x y n.
      destruct (moveState_insertion k (state job')
                  (Queue.set_jobs (fun m => <[k := job']> m) q)) as [-> _].
      cbn [jobs Queue.set_jobs]. apply Hinj.
  - (* the object is replaced by one in the same state *)
    apply (replace_wf q job' (state job') Hwf Hk Hst). left. reflexivity.
  - (* the object is left failed under the index processing *)
    apply (replace_wf q job' processing Hwf Hk Hst). right. split; [reflexivity | exact Hf].
  - (* a new job is added *)
    destruct Hwf as [Hinv Hmem Hnd Hnn Hseq Hbound Hinj].
    assert (Hfresh : forall s x, x ∈ bs_get (byState q) s -> x <> id job).
    { intros s x Hx ->. apply (inv_sets q Hinv) in Hx.
      destruct (inv_state q Hinv _ _ Hx) as (j0 & Hj0 & _). congruence. }
    unfold enqueued. split; cbn [jobs stateOf byState insertSeq insertionOrder].
    + split; cbn [jobs stateOf byState insertSeq insertionOrder].
      * intros s x. rewrite bs_get_set. case_bool_decide as Hsp.
        -- subst s. rewrite elem_of_set_add. intros [->|Hx].
           ++ apply lookup_insert_eq.
           ++ rewrite lookup_insert_ne
                by (apply not_eq_sym; apply (Hfresh pending); exact Hx).
              apply (inv_sets q Hinv pending). exact Hx.
        -- intros Hx.
           rewrite lookup_insert_ne
             by (apply not_eq_sym; apply (Hfresh s); exact Hx).
           apply (inv_sets q Hinv). exact Hx.
      * intros x s. destruct (decide (x = id job)) as [->|Hne].
        -- rewrite !lookup_insert_eq. intros Hx. inversion Hx; subst. eauto.
        -- rewrite !lookup_insert_ne by congruence. apply (inv_state q Hinv).
      * intros x jx. destruct (decide (x = id job)) as [->|Hne].
        -- rewrite lookup_insert_eq. intros Hx. inversion Hx; subst. reflexivity.
        -- rewrite lookup_insert_ne by congruence. apply (inv_key q Hinv).
    + intros x jx. destruct (decide (x = id job)) as [->|Hne].
      * rewrite lookup_insert_eq. intros Hx. inversion Hx; subst.
        exists pending. split; [|left; exact Hs].
        rewrite bs_get_set, bool_decide_eq_true_2 by reflexivity.
        apply elem_of_set_add. auto.
      * rewrite lookup_insert_ne by congruence. intros Hx.
        destruct (Hmem _ _ Hx) as (s1 & Hin & Hidx).
        exists s1. split; [|exact Hidx].
        rewrite bs_get_set. case_bool_decide as Hsp.
        -- apply elem_of_set_add. right. rewrite <- Hsp in Hin. exact Hin.
        -- exact Hin.
    + intros s. rewrite bs_get_set. case_bool_decide; [|apply Hnd].
      apply NoDup_set_add. apply (Hnd pending).
    + lia.
    + intros x. destruct (decide (x = id job)) as [->|Hne].
      * rewrite !lookup_insert_eq. eauto.
      * rewrite !lookup_insert_ne by congruence. apply Hseq.
    + intros x n. destruct (decide (x = id job)) as [->|Hne].
      * rewrite !lookup_insert_eq. intros Hx. inversion Hx; subst.
        split; [lia | eauto].
      * rewrite !lookup_insert_ne by congruence. intros Hx.
        destruct (Hbound _ _ Hx) as [Hb Hi]. split; [lia | exact Hi].
    + intros x y n.
      destruct (decide (x = id job)) as [->|Hx];
        destruct (decide (y = id job)) as [->|Hy]; auto;
        rewrite ?lookup_insert_eq, ?lookup_insert_ne by congruence;
        intros H1 H2.
      * inversion H1; subst. apply Hbound in H2. lia.
      * inversion H2; subst. apply Hbound in H1. lia.
      * eapply Hinj; eauto.
Qed.

Lemma exec_wf (ops : list (Z * Op)) :
  forall q, QueueWf q -> QueueWf (exec ops q).
Proof.
  induction ops as [|[now op] ops IH]; intros q Hwf; [exact Hwf|].
  apply IH. eapply effect_wf; [exact Hwf|].
  apply step_effect2. apply (wf_inv q Hwf).
Qed.

(** ** Queue: errors *)

Ltac run_m_in H :=
  unfold mbind, M_bind, m_bind, m_get, m_gets, m_modify, m_throw, m_ret, mret,
         M_ret, m_lift, Queue.requireJob, Queue.mutated in H.

Lemma callOp_snd (now : Z) (op : Op) (q : Queue) :
  snd (callOp now op q) = snd (step now op q).
Proof.
  rewrite step_snd. destruct op; cbn [callOp]; run_m;
    match goal with |- context [?f q] =>
      match f with
      | Queue.enqueue _ => idtac | Queue.dequeue _ _ => idtac
      | Queue.updateJob _ => idtac | Queue.complete _ _ => idtac
      | Queue.fail _ _ _ => idtac | Queue.requeue _ _ => idtac
      | Queue.resetForRetry _ _ _ => idtac
      end;
      destruct (f q) as [[x|e] q']; reflexivity
    end.
Qed.

(** X7.  A queue method that throws has changed nothing, with one
    exception.  After [enqueue], [dequeue], [updateJob], [complete],
    [requeue] or [resetForRetry] ends in an error the queue is exactly as
    it was before the call, and so it is after [fail] ends in any error
    but the [RangeError] of [markFailed]; that error comes only from
    [fail] on a leased job, whose object it leaves [failed], with one
    more attempt and its old [next_attempt_at], while the indexes stay as
    they were. *)
Theorem queue_throw_changes_at_most_one_object :
  forall (now : Z) (op : Op) (q : Queue),
    match callOp now op q with
    | (Throw err, q') =>
        (err <> InvalidTimeValue /\ q' = q) \/
        (err = InvalidTimeValue /\
         exists i e job,
           op = OpFail i e /\
           QueueQueries.getById i q = Some job /\ state job = processing /\
           stateOf q !! i = Some processing /\
           q' = mkQueue (<[i := failedHalfway now e job]> (jobs q)) (stateOf q)
                  (byState q) (insertSeq q) (insertionOrder q))
    | (Ok _, _) => True
    end.
Proof.
  intros now op q. destruct op; cbn [callOp].
  - unfold Queue.enqueue. run_m. case_bool_decide; cbn;
      [left; split; [discriminate | reflexivity]|].
    destruct (state job); cbn; auto; left; split; (discriminate || reflexivity).
  - rewrite dequeue_eq.
    destruct (Queue.scan q (default now at_opt) now) as [s|]; [|exact I].
    destruct (jobs q !! Queue.sel_id s) as [job|];
      [|left; split; [discriminate | reflexivity]].
    destruct (markProcessing now job) as [j'|err] eqn:Em; [exact I|].
    left. split; [|reflexivity].
    unfold markProcessing in Em. destruct (state job); inversion Em; discriminate.
  - unfold Queue.updateJob. run_m.
    destruct (jobs q !! id updated); cbn;
      [|left; split; [discriminate | reflexivity]].
    case_bool_decide; cbn; exact I.
  - unfold Queue.complete. run_m.
    destruct (jobs q !! jobId) as [job|]; cbn;
      [|left; split; [discriminate | reflexivity]].
    case_bool_decide; cbn; [|left; split; [discriminate | reflexivity]].
    destruct (markCompleted now job) as [j'|err] eqn:Em; cbn; [exact I|].
    left. split; [|reflexivity].
    unfold markCompleted in Em. destruct (state job); inversion Em; discriminate.
  - run_m.
    destruct (fail_cases jobId error now q)
      as [(err & -> & Hne) | [(job & job' & _ & _ & _ & ->)
                             | (job & Hj & Hp & Hs & _ & ->)]].
    + left. auto.
    + exact I.
    + right. split; [reflexivity|]. exists jobId, error, job. auto 10.
  - unfold Queue.requeue. run_m.
    destruct (jobs q !! jobId) as [job|]; cbn;
      [|left; split; [discriminate | reflexivity]].
    destruct (state job); cbn; auto; left; split; (discriminate || reflexivity).
  - unfold Queue.resetForRetry. run_m.
    destruct (jobs q !! jobId) as [job|]; cbn;
      [|left; split; [discriminate | reflexivity]].
    destruct (resetForRetry now keepAttempts job) as [j'|err] eqn:Em; cbn; [exact I|].
    left. split; [|reflexivity].
    unfold resetForRetry in Em. destruct (state job); inversion Em; discriminate.
Qed.

Lemma exec_empty_wf (ops : list (Z * Op)) : QueueWf (exec ops Queue.empty).
Proof. apply exec_wf, empty_wf. Qed.

(** On a queue with consistent indexes, whose object says [processing]
    is indexed as [processing]. *)
Lemma wf_processing (q : Queue) (i : string) (job : Job) :
  QueueWf q -> jobs q !! i = Some job -> state job = processing ->
  stateOf q !! i = Some processing.
Proof.
  intros Hwf Hj Hs.
  destruct (wf_member q Hwf _ _ Hj) as (s & Hin & [Hst | [_ Hf]]); [|congruence].
  apply (inv_sets q (wf_inv q Hwf)). rewrite <- Hs, Hst. exact Hin.
Qed.

(** X8.  On a queue driven from empty by its own methods, [complete]
    succeeds exactly on the jobs that are leased (present and
    [processing]), and leaves the job [completed].  [fail] gets past its
    guards exactly on the leased jobs: it returns, with the job [failed]
    or [dead], or it throws the [RangeError] of [markFailed], with the job
    [failed] and still in the processing set.  In each case [getById]
    shows the job as the call left it. *)
Theorem finalize_exactly_the_leased :
  forall (ops : list (Z * Op)) (i : string) (now : Z) (e : Thrown),
    let q := exec ops Queue.empty in
    let leased := exists job, QueueQueries.getById i q = Some job /\ state job = processing in
    (leased <->
       exists job' q', Queue.complete i now q = (Ok job', q') /\
         state job' = completed /\ QueueQueries.getById i q' = Some job') /\
    (leased <->
       (exists job' q', Queue.fail i e now q = (Ok job', q') /\
          (state job' = failed \/ state job' = dead) /\
          QueueQueries.getById i q' = Some job' /\
          i ∈ bs_get (byState q') (state job')) \/
       (exists job' q', Queue.fail i e now q = (Throw InvalidTimeValue, q') /\
          state job' = failed /\
          QueueQueries.getById i q' = Some job' /\
          i ∈ bs_processing (byState q'))).
Proof.
  intros ops i now e q leased. subst leased.
  pose proof (exec_empty_wf ops) as Hwf. fold q in Hwf.
  pose proof (wf_inv q Hwf) as Hinv.
  unfold QueueQueries.getById.
  split; split.
  - intros (job & Hj & Hs).
    unfold Queue.complete. run_m. rewrite Hj. cbn.
    rewrite (wf_processing q i job Hwf Hj Hs), bool_decide_eq_true_2 by reflexivity. cbn.
    destruct (markCompleted now job) as [job'|err] eqn:Em.
    2:{ unfold markCompleted in Em. rewrite Hs in Em. discriminate. }
    cbn. eexists _, _. split; [reflexivity|].
    apply markCompleted_inv in Em. destruct Em as (_ & Hc & _).
    split; [exact Hc|]. rewrite moveState_jobs. cbn. apply lookup_insert_eq.
  - intros (job' & q' & H & _). unfold Queue.complete in H. run_m_in H.
    destruct (jobs q !! i) as [job|] eqn:Hj; cbn in H; [|discriminate].
    exists job. split; [reflexivity|].
    destruct (bool_decide _) eqn:Hb; cbn in H; [|discriminate].
    destruct (markCompleted now job) as [j2|err] eqn:Em; [|discriminate].
    apply markCompleted_inv in Em. tauto.
  - intros (job & Hj & Hs).
    pose proof (wf_processing q i job Hwf Hj Hs) as Hp.
    destruct (fail_cases i e now q)
      as [(err & E & _) | [(job0 & job' & Hj0 & _ & Em & E)
                          | (job0 & Hj0 & _ & _ & _ & E)]].
    + exfalso. rewrite fail_eq, Hj, bool_decide_eq_true_2 in E by exact Hp.
      destruct (markFailed_ok now e job Hs) as [[j' Ej] | Ej]; rewrite Ej in E.
      * discriminate.
      * inversion E as [[He Hq]].
        pose proof (f_equal (fun x => jobs x !! i) Hq) as Hq'. cbn in Hq'.
        rewrite lookup_insert_eq, Hj in Hq'. inversion Hq' as [Hjj].
        pose proof (f_equal state Hjj) as Hst. cbn in Hst. congruence.
    + left. exists job', (relocate q i job'). split; [exact E|].
      apply markFailed_inv in Em.
      destruct Em as (_ & _ & _ & _ & _ & _ & _ & Hcase).
      split; [destruct Hcase as [(_ & Hx & _)|(_ & Hx & _)]; auto|].
      unfold relocate. rewrite moveState_jobs. cbn.
      split; [apply lookup_insert_eq | apply moveState_adds].
    + right. assert (job0 = job) by congruence. subst job0.
      exists (failedHalfway now e job),
        (Queue.set_jobs (fun m => <[i := failedHalfway now e job]> m) q).
      split; [exact E|]. split; [reflexivity|]. cbn.
      split; [apply lookup_insert_eq|].
      destruct (wf_member q Hwf _ _ Hj) as (s & Hin & [Hst | [_ Hf]]); [|congruence].
      subst s. rewrite Hs in Hin. exact Hin.
  - intros H.
    assert (Hpast : exists r q', Queue.fail i e now q = (r, q') /\
                      (is_Ok r = true \/ r = Throw InvalidTimeValue)).
    { destruct H as [(job' & q' & E & _) | (job' & q' & E & _)];
        eexists _, _; (split; [exact E|]); auto. }
    destruct Hpast as (r & q' & E & Hr).
    rewrite fail_eq in E.
    destruct (jobs q !! i) as [job|] eqn:Hj;
      [|inversion E; subst; destruct Hr; discriminate].
    exists job. split; [reflexivity|].
    destruct (bool_decide _) eqn:Hb;
      [|inversion E; subst; destruct Hr; discriminate].
    destruct (markFailed now e job) as [[[]|err] j2] eqn:Em.
    + apply markFailed_inv in Em. tauto.
    + apply markFailed_throw_inv in Em.
      destruct Em as [(-> & _ & _) | (_ & Hs & _)]; [|exact Hs].
      inversion E; subst. destruct Hr; discriminate.
Qed.

(** ** Queue: the queries *)

Lemma elem_of_list_ (st : JobState) (q : Queue) (job : Job) :
  job ∈ QueueQueries.list_ st q <->
  exists i, i ∈ bs_get (byState q) st /\ jobs q !! i = Some job.
Proof. unfold QueueQueries.list_. apply list_elem_of_omap. Qed.

Lemma NoDup_omap_inj {A B} (f : A -> option B) (l : list A) :
  (forall x y z, f x = Some z -> f y = Some z -> x = y) ->
  NoDup l -> NoDup (omap f l).
Proof.
  intros Hinj. induction 1 as [|x l Hx Hnd IH]; cbn; [constructor|].
  destruct (f x) as [z|] eqn:E; [|exact IH].
  constructor; [|exact IH].
  intros Hz. apply list_elem_of_omap in Hz. destruct Hz as (y & Hy & Hfy).
  assert (x = y) by (eapply Hinj; eauto). subst. contradiction.
Qed.

(** A job whose backoff delay leaves the range of [Date] on its first
    failure: [fail] throws, and the job is [failed] and listed under
    [processing]. *)
Example fail_strands_job :
  let j := mkJob "a" "X" pending 0 3 0 0 None None (Some (10 ^ 13)) None in
  let q := exec [(0, OpEnqueue j); (10, OpDequeue None)] Queue.empty in
  let j' := mkJob "a" "X" failed 1 3 0 20 None None (Some (10 ^ 13)) (Some "e") in
  create "u" 0 (mkJobInit (Some "a") "X" None (Some (10 ^ 13)) None) = Ok j /\
  fst (Queue.fail "a" (StringValue "e") 20 q) = Throw InvalidTimeValue /\
  QueueQueries.list_ processing (snd (Queue.fail "a" (StringValue "e") 20 q)) = [j'] /\
  QueueQueries.list_ failed (snd (Queue.fail "a" (StringValue "e") 20 q)) = [].
Proof. vm_compute. auto. Qed.

(** X9.  On a queue driven from empty by its own methods, [list(state)]
    returns stored jobs, each once, and every stored job is in the list
    of exactly one state.  The lists of [pending], [completed], [failed]
    and [dead] hold only jobs in that state; the list of [processing]
    holds the jobs that are [processing] and the jobs that a throwing
    [fail] left [failed]. *)
Theorem list_by_state_is_exact :
  forall (ops : list (Z * Op)) (st : JobState),
    let q := exec ops Queue.empty in
    NoDup (QueueQueries.list_ st q) /\
    (forall job, job ∈ QueueQueries.list_ st q ->
       QueueQueries.getById (id job) q = Some job /\
       (state job = st \/ (st = processing /\ state job = failed))) /\
    (forall job, QueueQueries.getById (id job) q = Some job ->
       job ∈ QueueQueries.list_ (state job) q \/
       (state job = failed /\ job ∈ QueueQueries.list_ processing q)) /\
    (forall job st', job ∈ QueueQueries.list_ st q ->
       job ∈ QueueQueries.list_ st' q -> st' = st).
Proof.
  intros ops st q. pose proof (exec_empty_wf ops) as Hwf. fold q in Hwf.
  pose proof (wf_inv q Hwf) as Hinv. split; [|split; [|split]].
  - unfold QueueQueries.list_. apply NoDup_omap_inj; [|apply (wf_nodup q Hwf)].
    intros x y z Hx Hy.
    rewrite <- (inv_key q Hinv _ _ Hx), <- (inv_key q Hinv _ _ Hy). reflexivity.
  - intros job. rewrite elem_of_list_. unfold QueueQueries.getById.
    intros (i & Hi & Hj).
    pose proof (inv_key q Hinv _ _ Hj) as Hk. subst i. split; [exact Hj|].
    apply (inv_sets q Hinv) in Hi.
    destruct (inv_state q Hinv _ _ Hi) as (j0 & Hj0 & Hs0).
    assert (j0 = job) by congruence. subst j0. exact Hs0.
  - intros job Hj. unfold QueueQueries.getById in Hj.
    destruct (wf_member q Hwf _ _ Hj) as (s & Hin & [Hst | [-> Hf]]).
    + left. apply elem_of_list_. exists (id job). rewrite Hst. auto.
    + right. split; [exact Hf|]. apply elem_of_list_. exists (id job). auto.
  - intros job st'. rewrite !elem_of_list_.
    intros (i & Hi & Hj) (i' & Hi' & Hj').
    pose proof (inv_key q Hinv _ _ Hj). pose proof (inv_key q Hinv _ _ Hj').
    subst i i'. apply (inv_sets q Hinv) in Hi, Hi'. congruence.
Qed.

Lemma step_jobs (now : Z) (op : Op) (q : Queue) :
  match op, fst (callOp now op q) with
  | OpEnqueue job, Ok _ =>
      jobs q !! id job = None /\
      jobs (snd (callOp now op q)) = <[id job := job]> (jobs q)
  | _, _ =>
      jobs (snd (callOp now op q)) = jobs q \/
      exists k v, is_Some (jobs q !! k) /\
                  jobs (snd (callOp now op q)) = <[k := v]> (jobs q)
  end.
Proof.
  destruct op; cbn [callOp].
  - unfold Queue.enqueue. run_m. case_bool_decide as Hin; cbn; [auto|].
    destruct (state job); cbn; auto.
    split; [|reflexivity].
    destruct (jobs q !! id job); [exfalso; apply Hin; eauto | reflexivity].
  - rewrite dequeue_eq.
    destruct (Queue.scan q (default now at_opt) now) as [s|]; [|destruct (Ok _); auto].
    destruct (jobs q !! Queue.sel_id s) as [job|] eqn:Ej; [|cbn; auto].
    destruct (markProcessing now job) as [job'|]; cbn; [|auto].
    right. exists (Queue.sel_id s), job'. rewrite moveState_jobs, Ej. eauto.
  - unfold Queue.updateJob. run_m.
    destruct (jobs q !! id updated) eqn:Ej; cbn; [|auto].
    case_bool_decide; cbn; right; exists (id updated), updated; rewrite Ej;
      (split; [eauto|]); [reflexivity|].
    destruct (stateOf q !! id j); reflexivity.
  - unfold Queue.complete. run_m.
    destruct (jobs q !! jobId) as [job|] eqn:Ej; cbn; [|auto].
    case_bool_decide; cbn; [|auto].
    destruct (markCompleted now job) as [job'|]; cbn; [|auto].
    right. exists jobId, job'. rewrite moveState_jobs, Ej. eauto.
  - run_m. rewrite fail_eq.
    destruct (jobs q !! jobId) as [job|] eqn:Ej; cbn; [|auto].
    case_bool_decide; cbn; [|auto].
    destruct (markFailed now error job) as [[[]|err] job']; cbn;
      right; exists jobId, job'; rewrite ?moveState_jobs, Ej; eauto.
  - unfold Queue.requeue. run_m.
    destruct (jobs q !! jobId) as [job|] eqn:Ej; cbn; [|auto].
    destruct (state job); cbn; auto;
      right; exists jobId, (Queue.markPendingFallback now job);
      rewrite moveState_jobs, Ej; eauto.
  - unfold Queue.resetForRetry. run_m.
    destruct (jobs q !! jobId) as [job|] eqn:Ej; cbn; [|auto].
    destruct (resetForRetry now keepAttempts job) as [job'|]; cbn; [|auto].
    right. exists jobId, job'. rewrite moveState_jobs, Ej. eauto.
Qed.

(** X10.  The queue never forgets a job: through any call of a queue
    method, whatever is stored stays stored, and [size()] stays the same
    except that a successful [enqueue] makes it grow by one. *)
Theorem queue_never_drops_a_job :
  forall (now : Z) (op : Op) (q : Queue),
    let q' := snd (callOp now op q) in
    (forall i, is_Some (QueueQueries.getById i q) ->
               is_Some (QueueQueries.getById i q')) /\
    QueueQueries.size q' =
      match op, fst (callOp now op q) with
      | OpEnqueue _, Ok _ => S (QueueQueries.size q)
      | _, _ => QueueQueries.size q
      end.
Proof.
  intros now op q q'. subst q'.
  unfold QueueQueries.getById, QueueQueries.size.
  pose proof (step_jobs now op q) as H.
  assert (Hsame : forall m : gmap string Job,
            m = jobs q \/
            (exists k v, is_Some (jobs q !! k) /\ m = <[k := v]> (jobs q)) ->
            (forall i, is_Some (jobs q !! i) -> is_Some (m !! i)) /\
            base.size m = base.size (jobs q)).
  { intros m [-> | (k & v & Hk & ->)]; [auto|]. split.
    - intros i Hi. apply is_Some_insert_existing; assumption.
    - destruct Hk as [old Hold]. eapply map_size_insert_Some; eauto. }
  destruct op; try (apply Hsame; exact H).
  destruct (fst (callOp now (OpEnqueue job) q)) eqn:E; [|apply Hsame; exact H].
  destruct H as [Hnone ->]. split.
  - intros i Hi. destruct (decide (i = id job)) as [->|Hne].
    + rewrite lookup_insert_eq. eauto.
    + rewrite lookup_insert_ne by congruence. exact Hi.
  - apply map_size_insert_None. exact Hnone.
Qed.

(** ** Queue: insertion sequence numbers *)

Lemma effect_insertion (q q' : Queue) :
  Effect q q' ->
  (insertionOrder q' = insertionOrder q /\
   forall j, is_Some (jobs q' !! j) <-> is_Some (jobs q !! j)) \/
  (exists job, jobs q !! id job = None /\
     insertionOrder q' = <[id job := insertSeq q + 1]> (insertionOrder q) /\
     jobs q' = <[id job := job]> (jobs q)).
Proof.
  intros [|k job' Hid Hk|job' Hk Hst|job' Hk Hst Hf|job Hnone Hs].
  - left. split; [reflexivity | tauto].
  - left. unfold relocate.
    destruct (moveState_insertion k (state job')
                (Queue.set_jobs (fun m => <[k := job']> m) q)) as [-> _].
    split; [reflexivity|]. intros j. rewrite moveState_jobs. cbn.
    apply is_Some_insert_existing. exact Hk.
  - left. split; [reflexivity|]. intros j. cbn.
    apply is_Some_insert_existing. exact Hk.
  - left. split; [reflexivity|]. intros j. cbn.
    apply is_Some_insert_existing. exact Hk.
  - right. exists job. auto.
Qed.

Lemma wf_seqOf (q : Queue) (i : string) :
  QueueWf q -> is_Some (jobs q !! i) ->
  insertionOrder q !! i = Some (seqOf q i) /\ 1 <= seqOf q i <= insertSeq q.
Proof.
  intros Hwf Hi. destruct (wf_seq q Hwf i Hi) as [n Hn].
  unfold seqOf. rewrite Hn. cbn. split; [reflexivity|].
  apply (wf_seq_bound q Hwf i n Hn).
Qed.

(** X11.  On a queue driven from empty by its own methods, every stored
    job has an insertion sequence number, at least 1 and different from
    every other job's; no later call changes it (a job that fails or is
    requeued keeps its place in the FIFO order), and a job that enters the
    queue gets a number above all that are there. *)
Theorem insertion_sequence_is_stable :
  forall (ops : list (Z * Op)) (now : Z) (op : Op),
    let q := exec ops Queue.empty in
    let q' := snd (step now op q) in
    (forall i, is_Some (QueueQueries.getById i q) -> 1 <= seqOf q i) /\
    (forall i j, is_Some (QueueQueries.getById i q) ->
                 is_Some (QueueQueries.getById j q) ->
                 seqOf q i = seqOf q j -> i = j) /\
    (forall i, is_Some (QueueQueries.getById i q) -> seqOf q' i = seqOf q i) /\
    (forall i j, is_Some (QueueQueries.getById i q) ->
                 QueueQueries.getById j q = None ->
                 is_Some (QueueQueries.getById j q') ->
                 seqOf q i < seqOf q' j).
Proof.
  intros ops now op q q'. unfold QueueQueries.getById.
  pose proof (exec_empty_wf ops) as Hwf. fold q in Hwf.
  pose proof (step_effect2 now op q (wf_inv q Hwf)) as He. fold q' in He.
  split; [|split; [|split]].
  - intros i Hi. apply (wf_seqOf q i Hwf Hi).
  - intros i j Hi Hj Heq.
    destruct (wf_seqOf q i Hwf Hi) as [Hsi _].
    destruct (wf_seqOf q j Hwf Hj) as [Hsj _].
    rewrite Heq in Hsi. exact (wf_seq_inj q Hwf i j _ Hsi Hsj).
  - intros i Hi.
    destruct (effect_insertion q q' He) as [[Hio _] | (job & Hnone & Hio & _)];
      unfold seqOf; rewrite Hio; [reflexivity|].
    rewrite lookup_insert_ne; [reflexivity|].
    intros Heq. rewrite <- Heq, Hnone in Hi. destruct Hi as [x Hx]. discriminate.
  - intros i j Hi Hj Hj'.
    destruct (effect_insertion q q' He) as [[_ Hdom] | (job & Hnone & Hio & Hjobs)].
    + apply Hdom in Hj'. rewrite Hj in Hj'. destruct Hj' as [x Hx]. discriminate.
    + assert (j = id job).
      { destruct (decide (j = id job)) as [|Hne]; [assumption|].
        rewrite Hjobs, lookup_insert_ne, Hj in Hj' by congruence.
        destruct Hj' as [x Hx]. discriminate. }
      subst j. unfold seqOf at 2. rewrite Hio, lookup_insert_eq. cbn.
      destruct (wf_seqOf q i Hwf Hi) as [_ Hb]. lia.
Qed.

(** X12.  On a queue driven from empty by its own methods the winner of
    [dequeue] is unique: every other due job of the pending and failed
    sets is strictly later in (effective due time, insertion sequence). *)
Theorem dequeue_winner_is_strictly_first :
  forall (ops : list (Z * Op)) (at_opt : option Z) (now : Z),
    let q := exec ops Queue.empty in
    match Queue.dequeue at_opt now q with
    | (Ok (Some job'), _) =>
        exists job,
          QueueQueries.getById (id job') q = Some job /\
          isDue (default now at_opt) job = true /\
          forall i2 job2,
            isCandidate q (default now at_opt) i2 job2 -> i2 <> id job' ->
            lexLt (dueTime now job) (seqOf q (id job'))
                  (dueTime now job2) (seqOf q i2)
    | _ => True
    end.
Proof.
  intros ops at_opt now q. unfold QueueQueries.getById.
  pose proof (exec_empty_wf ops) as Hwf. fold q in Hwf.
  pose proof (wf_inv q Hwf) as Hinv.
  rewrite dequeue_eq.
  pose proof (scan_scanned q (default now at_opt) now) as H.
  destruct (Queue.scan q (default now at_opt) now) as [s|]; simpl in H; [|exact I].
  destruct H as (Hin & Hseq & (job & Hj & Hd & Hdue) & Hmin). rewrite Hj.
  destruct (markProcessing now job) as [job'|e] eqn:Em; [|exact I].
  apply markProcessing_id in Em. destruct Em as [Hid _].
  pose proof (inv_key q Hinv _ _ Hj) as Hk.
  assert (Hi : id job' = Queue.sel_id s) by congruence.
  rewrite Hi. exists job. split; [exact Hj|]. split; [exact Hd|].
  intros i2 job2 (Hi2 & Hj2 & Hd2) Hne.
  pose proof (Hmin i2 job2 Hi2 Hj2 Hd2) as Hle.
  rewrite Hdue, Hseq in Hle. unfold lexLe in Hle. unfold lexLt.
  destruct Hle as [Hlt | [Heq Hle]]; [auto|].
  right. split; [exact Heq|].
  destruct (Z.eq_dec (seqOf q (Queue.sel_id s)) (seqOf q i2)) as [Hs|Hs]; [|lia].
  exfalso. apply Hne.
  destruct (wf_seqOf q (Queue.sel_id s) Hwf) as [Ha _]; [rewrite Hj; eauto|].
  destruct (wf_seqOf q i2 Hwf) as [Hb _]; [rewrite Hj2; eauto|].
  rewrite Hs in Ha. symmetry. exact (wf_seq_inj q Hwf _ _ _ Ha Hb).
Qed.

(** ** Sorting *)

Lemma ordered_nil {A} (R : A -> A -> Prop) : ordered R [].
Proof. intros i j a b _ H. inversion H. Qed.

Lemma ordered_cons {A} (R : A -> A -> Prop) (x : A) (l : list A) :
  ordered R (x :: l) <-> (forall y, y ∈ l -> R x y) /\ ordered R l.
Proof.
  split.
  - intros H. split.
    + intros y Hy. apply list_elem_of_lookup in Hy. destruct Hy as [k Hk].
      apply (H 0%nat (S k) x y); [lia | reflexivity | exact Hk].
    + intros i j a b Hij Ha Hb. apply (H (S i) (S j) a b); [lia | exact Ha | exact Hb].
  - intros [Hx Hl] i j a b Hij Ha Hb.
    destruct j as [|j]; [lia|]. cbn in Hb.
    destruct i as [|i].
    + cbn in Ha. inversion Ha; subst. apply Hx.
      apply list_elem_of_lookup. eauto.
    + cbn in Ha. apply (Hl i j a b); [lia | exact Ha | exact Hb].
Qed.

Section StableSort.

Context {A : Type} (cmp : A -> A -> Z).
Hypothesis cmp_total : forall a b, cmp a b <= 0 \/ cmp b a <= 0.
Hypothesis cmp_trans : forall a b c, cmp a b <= 0 -> cmp b c <= 0 -> cmp a c <= 0.

Lemma sort_insert_ordered (x : A) (l : list A) :
  ordered (fun a b => cmp a b <= 0) l ->
  ordered (fun a b => cmp a b <= 0) (sort_insert cmp x l).
Proof.
  induction l as [|y r IH]; intros Hl; cbn.
  - apply ordered_cons. split; [intros y Hy; inversion Hy | apply ordered_nil].
  - apply ordered_cons in Hl. destruct Hl as [Hy Hr].
    destruct (Z.leb_spec (cmp x y) 0) as [Hle|Hgt].
    + apply ordered_cons. split.
      * intros z Hz. apply elem_of_cons in Hz. destruct Hz as [->|Hz]; [exact Hle|].
        apply (cmp_trans x y z Hle). apply Hy. exact Hz.
      * apply ordered_cons. auto.
    + apply ordered_cons. split.
      * intros z Hz. apply elem_of_sort_insert in Hz. destruct Hz as [->|Hz].
        -- destruct (cmp_total y x); [assumption | lia].
        -- apply Hy. exact Hz.
      * apply IH. exact Hr.
Qed.

Lemma stable_sort_ordered (l : list A) :
  ordered (fun a b => cmp a b <= 0) (stable_sort cmp l).
Proof.
  unfold stable_sort. induction l as [|x l IH]; cbn.
  - apply ordered_nil.
  - apply sort_insert_ordered. exact IH.
Qed.

End StableSort.

Lemma sort_insert_perm {A} (cmp : A -> A -> Z) (x : A) (l : list A) :
  sort_insert cmp x l ≡ₚ x :: l.
Proof.
  induction l as [|y r IH]; cbn; [reflexivity|].
  destruct (cmp x y <=? 0); [reflexivity|].
  rewrite IH. apply Permutation_swap.
Qed.

Lemma stable_sort_perm {A} (cmp : A -> A -> Z) (l : list A) :
  stable_sort cmp l ≡ₚ l.
Proof.
  unfold stable_sort. induction l as [|x l IH]; cbn; [reflexivity|].
  rewrite sort_insert_perm, IH. reflexivity.
Qed.

(** ** Queue: [getPendingJobs] *)

Lemma compareJobs_le (q : Queue) (now : Z) (a b : Job) :
  QueueQueries.compareJobs q now a b <= 0 <-> pendingKeyLe q now a b.
Proof.
  unfold QueueQueries.compareJobs, pendingKeyLe, lexLe, seqOf.
  case_bool_decide; lia.
Qed.

Lemma elem_of_collect (dueOnly : bool) (at_ : Z) (q : Queue) (ids : list string)
    (job : Job) :
  job ∈ QueueQueries.collect dueOnly at_ q ids <->
  exists i, i ∈ ids /\ jobs q !! i = Some job /\
            (dueOnly = false \/ isDue at_ job = true).
Proof.
  unfold QueueQueries.collect. rewrite list_elem_of_omap. split.
  - intros (i & Hi & H). exists i. split; [exact Hi|].
    destruct (jobs q !! i) as [j0|]; [|discriminate].
    destruct dueOnly; cbn in H.
    + destruct (isDue at_ j0) eqn:Ed; inversion H; subst. auto.
    + inversion H; subst. auto.
  - intros (i & Hi & Hj & Hd). exists i. split; [exact Hi|]. rewrite Hj.
    destruct dueOnly; cbn; [|reflexivity].
    destruct Hd as [Hd|Hd]; [discriminate|]. rewrite Hd. reflexivity.
Qed.

(** X13.  [getPendingJobs] returns its jobs ordered by effective due
    time, then insertion sequence, whatever the options; it holds exactly
    the stored jobs of the pending set and, unless
    [includeFailedRetries] is false, of the failed set, restricted to the
    due ones when [dueOnly] is true. *)
Theorem getPendingJobs_is_ordered :
  forall (at_opt : option Z) (dueOnly_opt incl_opt : option bool) (now : Z)
         (q : Queue),
    let l := QueueQueries.getPendingJobs at_opt dueOnly_opt incl_opt now q in
    ordered (pendingKeyLe q now) l /\
    forall job,
      job ∈ l <->
      exists i,
        (i ∈ bs_pending (byState q) \/
         (default true incl_opt = true /\ i ∈ bs_failed (byState q))) /\
        QueueQueries.getById i q = Some job /\
        (default false dueOnly_opt = false \/
         isDue (default now at_opt) job = true).
Proof.
  intros at_opt dueOnly_opt incl_opt now q l. subst l.
  unfold QueueQueries.getPendingJobs, QueueQueries.getById. split.
  - intros i j a b Hij Ha Hb. apply compareJobs_le.
    revert i j a b Hij Ha Hb.
    apply (stable_sort_ordered (QueueQueries.compareJobs q now)).
    + intros a b. rewrite !compareJobs_le. unfold pendingKeyLe, lexLe. lia.
    + intros a b c. rewrite !compareJobs_le. unfold pendingKeyLe, lexLe. lia.
  - intros job. rewrite stable_sort_perm, elem_of_app, elem_of_collect.
    destruct (default true incl_opt).
    + rewrite elem_of_collect. split.
      * intros [(i & Hi & H) | (i & Hi & H)]; exists i; split; auto.
      * intros (i & [Hi | [_ Hi]] & H); [left | right]; exists i; auto.
    + split.
      * intros [(i & Hi & H) | H]; [|inversion H]. exists i. auto.
      * intros (i & [Hi | [Hf _]] & H); [|discriminate]. left. exists i. auto.
Qed.



(** ** Worker: one loop *)



Lemma moveState_get_other (i : string) (s s' : JobState) (q : Queue) :
  s' <> s -> stateOf q !! i <> Some s' ->
  bs_get (byState (Queue.moveState i s q)) s' = bs_get (byState q) s'.
Proof.
  intros Hne Hc. unfold Queue.moveState.
  destruct (stateOf q !! i) as [cur|]; [case_bool_decide as Hcs|]; cbn;
    rewrite bs_get_set, bool_decide_eq_false_2 by congruence; try reflexivity.
  rewrite bs_get_set, bool_decide_eq_false_2 by congruence. reflexivity.
Qed.








(** ** Storage backends *)

Lemma withLock_held {A} (fn : M JsonStore A) (st : JsonStore) :
  lockFile st = true -> JsonStorage.withLock fn st = (Throw LockTimeout, st).
Proof. intros Hl. unfold JsonStorage.withLock. rewrite Hl. reflexivity. Qed.

Lemma withLock_releases {A} (fn : M JsonStore A) (st : JsonStore) :
  lockFile st = false -> lockFile (snd (JsonStorage.withLock fn st)) = false.
Proof.
  intros Hl. unfold JsonStorage.withLock. rewrite Hl.
  destruct (fn _) as [r st']. reflexivity.
Qed.

Lemma withLock_bind_ret {A B} (fn : M JsonStore A) (f : A -> B) (st : JsonStore) :
  (x ← JsonStorage.withLock fn; m_ret (f x)) st =
  if lockFile st then (Throw LockTimeout, st)
  else (match fst (JsonStorage.withLock fn st) with
        | Ok a => Ok (f a)
        | Throw e => Throw e
        end, snd (JsonStorage.withLock fn st)).
Proof.
  run_m. destruct (lockFile st) eqn:Hl.
  - rewrite withLock_held by exact Hl. reflexivity.
  - destruct (JsonStorage.withLock fn st) as [[a|e] st']; reflexivity.
Qed.

(** X16.  The lock of the flat-file backend.  Every method that writes
    ([enqueue], [update], [moveToDLQ], [leaseNext], [retryFromDLQ]) ends
    in the lock timeout and leaves both collections as they are when the
    lock file exists, and when it does not, the method removes the lock
    file it made whether it returns or throws.  [getById], [list] and
    [listDLQ] take no lock and write nothing. *)
Theorem json_lock_discipline :
  forall (now : Z) (c : StorageCall) (st : JsonStore),
    if takesLock c then
      if lockFile st then call now c st = (Throw LockTimeout, st)
      else lockFile (snd (call now c st)) = false
    else
      snd (call now c st) = st /\
      call now c (mkJsonStore (jobsFile st) (dlqFile st) (negb (lockFile st))) =
      (fst (call now c st),
       mkJsonStore (jobsFile st) (dlqFile st) (negb (lockFile st))).
Proof.
  intros now c st.
  destruct c; cbn [takesLock call storage_enqueue storage_update storage_moveToDLQ
                   storage_leaseNext storage_retryFromDLQ storage_getById
                   storage_list storage_listDLQ JsonStorage_IStorage].
  1-3,5,8:
    unfold JsonStorage.enqueue, JsonStorage.update, JsonStorage.moveToDLQ,
      JsonStorage.leaseNext, JsonStorage.retryFromDLQ;
    match goal with
    | |- context [mbind _ (JsonStorage.withLock ?fn)] =>
        rewrite (withLock_bind_ret fn)
    end;
    destruct (lockFile st) eqn:Hl; [reflexivity|];
    cbn [snd]; apply withLock_releases; exact Hl.
  - unfold JsonStorage.getById, JsonStorage.readJobs. run_m. cbn.
    destruct (find _ _) as [found|]; cbn; [|auto].
    destruct (fromJSON found); cbn; auto.
  - unfold JsonStorage.list_, JsonStorage.readJobs. run_m. cbn.
    destruct (JsonStorage.hydrateAll _); cbn; auto.
  - unfold JsonStorage.listDLQ, JsonStorage.readDLQ. run_m. cbn.
    destruct (JsonStorage.hydrateAll _); cbn; auto.
Qed.

(** *** Ids stay unique *)

Lemma bind_ret_snd_eq {St A B} (m : M St A) (f : A -> B) (st : St) :
  snd ((x ← m; m_ret (f x)) st) = snd (m st).
Proof. run_m. destruct (m st) as [[a|e] st']; reflexivity. Qed.

Lemma existsb_has_id_false (i : string) (l : list JobJSON) :
  existsb (JsonStorage.has_id i) l = false -> i ∉ json_id <$> l.
Proof.
  induction l as [|d l IH]; cbn; intros H.
  - apply not_elem_of_nil.
  - apply orb_false_iff in H. destruct H as [Hd Hl].
    apply not_elem_of_cons. split; [|apply IH; exact Hl].
    unfold JsonStorage.has_id in Hd. apply bool_decide_eq_false in Hd. congruence.
Qed.

Lemma findIndex_has_id (i : string) (l : list JobJSON) (idx : nat) :
  findIndex (JsonStorage.has_id i) l = Some idx ->
  exists d, l !! idx = Some d /\ json_id d = i.
Proof.
  intros H. destruct (findIndex_lookup _ _ _ H) as (d & Hd & Hp).
  exists d. split; [exact Hd|].
  unfold JsonStorage.has_id in Hp. apply bool_decide_eq_true in Hp. exact Hp.
Qed.

Lemma ids_insert_same (l : list JobJSON) (idx : nat) (d d' : JobJSON) :
  l !! idx = Some d -> json_id d' = json_id d ->
  json_id <$> <[idx := d']> l = json_id <$> l.
Proof.
  intros Hd Hid. rewrite list_fmap_insert. apply list_insert_id.
  rewrite list_lookup_fmap, Hd. cbn. congruence.
Qed.

Lemma NoDup_ids_delete (l : list JobJSON) (idx : nat) :
  NoDup (json_id <$> l) -> NoDup (json_id <$> delete idx l).
Proof.
  intros H. eapply sublist_NoDup; [exact H|].
  apply fmap_sublist, sublist_delete.
Qed.

Lemma NoDup_ids_snoc (l : list JobJSON) (d : JobJSON) :
  NoDup (json_id <$> l) -> existsb (JsonStorage.has_id (json_id d)) l = false ->
  NoDup (json_id <$> (l ++ [d])).
Proof.
  intros H Hd. rewrite fmap_app. apply NoDup_app. split; [exact H|]. split.
  - intros x Hx Hx'. cbn in Hx'. apply list_elem_of_singleton in Hx'. subst x.
    apply existsb_has_id_false in Hd. contradiction.
  - cbn. apply NoDup_singleton.
Qed.

(** What [leaseNext] leaves in the store, whatever it returns. *)
Lemma json_lease_store (at_opt : option Z) (now : Z) (st : JsonStore) :
  dlqFile (snd (JsonStorage.leaseNext at_opt now st)) = dlqFile st /\
  (jobsFile (snd (JsonStorage.leaseNext at_opt now st)) = jobsFile st \/
   exists idx d,
     jobsFile st !! idx = Some d /\
     jobsFile (snd (JsonStorage.leaseNext at_opt now st)) =
       <[idx := JsonStorage.leasedCopy now d]> (jobsFile st)).
Proof.
  unfold JsonStorage.leaseNext, JsonStorage.withLock.
  destruct (lockFile st) eqn:El; [cbn; auto|].
  run_m. unfold JsonStorage.readJobs, JsonStorage.writeJobs. run_m.
  cbn [jobsFile dlqFile lockFile].
  destruct (JsonStorage.dueCandidates _ _) as [cands|e]; [|cbn; auto].
  destruct (stable_sort _ cands) as [|sel rest]; [cbn; auto|].
  destruct (findIndex _ _) as [idx|]; [|cbn; auto].
  destruct (jobsFile st !! idx) as [d|] eqn:Ed; [|cbn; auto].
  cbn [jobsFile dlqFile lockFile].
  destruct (fromJSON _); cbn; (split; [reflexivity|]); right; eauto.
Qed.

Lemma json_call_ids (now : Z) (c : StorageCall) (st : JsonStore) :
  NoDup (jsonIds st) -> NoDup (jsonIds (snd (call now c st))).
Proof.
  unfold jsonIds. intros Hnd.
  destruct c; cbn [call storage_enqueue storage_update storage_moveToDLQ
                   storage_leaseNext storage_retryFromDLQ storage_getById
                   storage_list storage_listDLQ JsonStorage_IStorage].
  - (* enqueue *)
    unfold JsonStorage.enqueue. rewrite withLock_bind_ret.
    destruct (lockFile st) eqn:Hl; [exact Hnd|]. cbn [snd].
    unfold JsonStorage.withLock. rewrite Hl.
    run_m. unfold JsonStorage.readJobs, JsonStorage.writeJobs. run_m. cbn.
    destruct (existsb _ _) eqn:Ee; cbn; [exact Hnd|].
    apply NoDup_ids_snoc; [exact Hnd | exact Ee].
  - (* update *)
    unfold JsonStorage.update. rewrite withLock_bind_ret.
    destruct (lockFile st) eqn:Hl; [exact Hnd|]. cbn [snd].
    unfold JsonStorage.withLock. rewrite Hl.
    run_m. unfold JsonStorage.readJobs, JsonStorage.writeJobs. run_m. cbn.
    destruct (findIndex _ _) as [idx|] eqn:Ef; cbn; [|exact Hnd].
    destruct (findIndex_has_id _ _ _ Ef) as (d & Hd & Hid).
    rewrite (ids_insert_same _ _ d); [exact Hnd | exact Hd | cbn; congruence].
  - (* moveToDLQ *)
    rewrite bind_ret_snd_eq. rewrite json_moveToDLQ_eq.
    destruct (lockFile st); [exact Hnd|]. cbn.
    destruct (findIndex _ _); [apply NoDup_ids_delete|]; exact Hnd.
  - (* getById *)
    rewrite bind_ret_snd_eq.
    unfold JsonStorage.getById, JsonStorage.readJobs. run_m. cbn.
    destruct (find _ _) as [found|]; cbn; [|exact Hnd].
    destruct (fromJSON found); exact Hnd.
  - (* leaseNext *)
    rewrite bind_ret_snd_eq.
    destruct (json_lease_store at_opt now st) as [_ [-> | (idx & d & Hd & ->)]];
      [exact Hnd|].
    rewrite (ids_insert_same _ _ d); [exact Hnd | exact Hd | reflexivity].
  - (* list *)
    rewrite bind_ret_snd_eq.
    unfold JsonStorage.list_, JsonStorage.readJobs. run_m. cbn. exact Hnd.
  - (* listDLQ *)
    rewrite bind_ret_snd_eq.
    unfold JsonStorage.listDLQ, JsonStorage.readDLQ. run_m. cbn. exact Hnd.
  - (* retryFromDLQ *)
    rewrite bind_ret_snd_eq.
    unfold JsonStorage.retryFromDLQ, JsonStorage.withLock.
    destruct (lockFile st) eqn:Hl; [exact Hnd|].
    run_m. unfold JsonStorage.readJobs, JsonStorage.readDLQ,
      JsonStorage.writeJobs, JsonStorage.writeDLQ. run_m. cbn.
    destruct (findIndex _ (dlqFile st)) as [idx|]; cbn; [|exact Hnd].
    destruct (dlqFile st !! idx) as [payload|]; cbn; [|exact Hnd].
    destruct (fromJSON payload) as [j0|e]; cbn; [|exact Hnd].
    destruct (resetForRetry now false j0) as [job|e]; cbn; [|exact Hnd].
    destruct (existsb _ _) eqn:Ee.
    + destruct (findIndex _ (jobsFile st)) as [jdx|] eqn:Ef; [|exact Hnd].
      destruct (findIndex_has_id _ _ _ Ef) as (d & Hd & Hid).
      rewrite (ids_insert_same _ _ d); [exact Hnd | exact Hd | cbn; congruence].
    + apply NoDup_ids_snoc; [exact Hnd | exact Ee].
Qed.

(** X17.  On the flat-file backend no sequence of calls, from a new
    directory on, puts two documents with the same id into the jobs
    collection: whatever the calls return or throw. *)
Theorem json_ids_stay_unique :
  forall (cs : list (Z * StorageCall)),
    NoDup (jsonIds (runCalls cs freshJsonStore)).
Proof.
  intros cs.
  assert (Hgen : forall st, NoDup (jsonIds st) -> NoDup (jsonIds (runCalls cs st))).
  { induction cs as [|[now c] rest IH]; intros st Hst; cbn [runCalls]; [exact Hst|].
    apply IH, json_call_ids, Hst. }
  apply Hgen. apply NoDup_nil_2.
Qed.

Lemma sublist_List_filter {A} (f : A -> bool) (l : list A) :
  List.filter f l `sublist_of` l.
Proof.
  induction l as [|x l IH]; cbn; [constructor|].
  destruct (f x); [apply sublist_skip | apply sublist_cons]; exact IH.
Qed.

Lemma existsb_row_has_id_false (i : string) (l : list JobsRow) :
  existsb (SqliteStorage.row_has_id i) l = false -> i ∉ json_id <$> l.
Proof. apply existsb_has_id_false. Qed.

Lemma existsb_dlq_has_id_false (i : string) (l : list DlqRow) :
  existsb (SqliteStorage.dlq_has_id i) l = false -> i ∉ dlq_id <$> l.
Proof.
  induction l as [|d l IH]; cbn; intros H.
  - apply not_elem_of_nil.
  - apply orb_false_iff in H. destruct H as [Hd Hl].
    apply not_elem_of_cons. split; [|apply IH; exact Hl].
    unfold SqliteStorage.dlq_has_id in Hd. apply bool_decide_eq_false in Hd. congruence.
Qed.

Lemma ids_map_same (f : JobsRow -> JobsRow) (l : list JobsRow) :
  (forall r, json_id (f r) = json_id r) ->
  json_id <$> List.map f l = json_id <$> l.
Proof.
  intros Hf. induction l as [|r l IH]; cbn; [reflexivity|].
  rewrite Hf. f_equal. exact IH.
Qed.

Lemma updateStmt_ids (t : Z) (i : string) (db : Db) :
  jobIds (fst (SqliteStorage.updateStmt t i db)) = jobIds db /\
  dlqTable (fst (SqliteStorage.updateStmt t i db)) = dlqTable db.
Proof.
  unfold SqliteStorage.updateStmt, jobIds. cbn. split; [|reflexivity].
  apply ids_map_same. intros r. destruct (_ && _); reflexivity.
Qed.

Lemma leaseLoop_ids tie (n : nat) (t : Z) (db : Db) :
  jobIds (snd (SqliteStorage.leaseLoop tie n t db)) = jobIds db /\
  dlqTable (snd (SqliteStorage.leaseLoop tie n t db)) = dlqTable db.
Proof.
  revert db. induction n as [|n IH]; intros db; [cbn; auto|].
  rewrite leaseLoop_step.
  destruct (SqliteStorage.selectStmt tie t db) as [i|]; [|cbn; auto].
  destruct (updateStmt_ids t i db) as [Hj Hd].
  case_bool_decide; cbn [snd]; [auto|].
  destruct (IH (fst (SqliteStorage.updateStmt t i db))) as [Hj' Hd'].
  split; congruence.
Qed.

Lemma transaction_snd {A} (fn : M Db A) (db : Db) :
  snd (SqliteStorage.transaction fn db) = snd (fn db) \/
  snd (SqliteStorage.transaction fn db) = db.
Proof.
  unfold SqliteStorage.transaction. destruct (fn db) as [[a|e] db']; cbn; auto.
Qed.

Lemma sqlite_lease_ids tie (at_opt : option Z) (now : Z) (db : Db) :
  jobIds (snd (SqliteStorage.leaseNext tie at_opt now db)) = jobIds db /\
  dlqTable (snd (SqliteStorage.leaseNext tie at_opt now db)) = dlqTable db.
Proof.
  unfold SqliteStorage.leaseNext. run_m.
  assert (Ht : jobIds (snd (SqliteStorage.transaction
                 (SqliteStorage.leaseLoop tie 5 (default now at_opt)) db)) = jobIds db /\
               dlqTable (snd (SqliteStorage.transaction
                 (SqliteStorage.leaseLoop tie 5 (default now at_opt)) db)) = dlqTable db).
  { destruct (transaction_snd (SqliteStorage.leaseLoop tie 5 (default now at_opt)) db)
      as [-> | ->]; [apply leaseLoop_ids | auto]. }
  destruct (SqliteStorage.transaction _ db) as [[[r|]|e] db']; cbn in *; try exact Ht.
  destruct (fromJSON _); cbn; exact Ht.
Qed.

Lemma sqlite_call_keys tie (now : Z) (c : StorageCall) (db : Db) :
  NoDup (jobIds db) /\ NoDup (dlqIds db) ->
  NoDup (jobIds (snd (@call _ (SqliteStorage_IStorage tie) now c db))) /\
  NoDup (dlqIds (snd (@call _ (SqliteStorage_IStorage tie) now c db))).
Proof.
  intros [Hj Hd].
  destruct c; cbn [call]; rewrite bind_ret_snd_eq;
    cbn [storage_enqueue storage_update storage_moveToDLQ
         storage_leaseNext storage_retryFromDLQ storage_getById
         storage_list storage_listDLQ SqliteStorage_IStorage].
  - (* enqueue *)
    unfold SqliteStorage.enqueue, SqliteStorage.insertJob. run_m.
    destruct (existsb _ _) eqn:Ee; cbn; [auto|].
    split; [|exact Hd]. apply NoDup_ids_snoc; [exact Hj | exact Ee].
  - (* update *)
    unfold SqliteStorage.update. run_m. cbn. split; [|exact Hd].
    unfold jobIds. cbn. rewrite ids_map_same; [exact Hj|].
    intros r. unfold SqliteStorage.row_has_id.
    case_bool_decide as Hr; [symmetry; exact Hr | reflexivity].
  - (* moveToDLQ *)
    rewrite sqlite_moveToDLQ_eq.
    destruct (existsb _ _) eqn:Ee; cbn; [auto|]. split.
    + eapply sublist_NoDup; [exact Hj|].
      apply fmap_sublist, sublist_List_filter.
    + unfold dlqIds. cbn. rewrite fmap_app. apply NoDup_app.
      split; [exact Hd|]. split; [|apply NoDup_singleton].
      intros x Hx Hx'. cbn in Hx'. apply list_elem_of_singleton in Hx'. subst x.
      apply existsb_dlq_has_id_false in Ee. contradiction.
  - (* getById *)
    unfold SqliteStorage.getById. run_m.
    destruct (List.find _ _) as [row|]; cbn; [|auto].
    destruct (fromJSON _); cbn; auto.
  - (* leaseNext *)
    destruct (sqlite_lease_ids tie at_opt now db) as [Hj' Hd'].
    unfold dlqIds. rewrite Hj', Hd'. auto.
  - (* list *)
    unfold SqliteStorage.list_. run_m. cbn. auto.
  - (* listDLQ *)
    unfold SqliteStorage.listDLQ. run_m. cbn. auto.
  - (* retryFromDLQ *)
    unfold SqliteStorage.retryFromDLQ.
    match goal with |- context [SqliteStorage.transaction ?fn db] =>
      destruct (transaction_snd fn db) as [-> | ->]; [|auto] end.
    run_m. destruct (List.find _ _) as [row|]; cbn; [|auto].
    unfold SqliteStorage.deleteDlq. run_m. cbn.
    assert (Hd' : NoDup (dlq_id <$>
              List.filter (fun r => negb (SqliteStorage.dlq_has_id i r)) (dlqTable db))).
    { eapply sublist_NoDup; [exact Hd|]. apply fmap_sublist, sublist_List_filter. }
    destruct (fromJSON _) as [j0|e]; cbn; [|auto].
    destruct (resetForRetry now false j0) as [j|e]; cbn; [|auto].
    unfold SqliteStorage.enqueue, SqliteStorage.insertJob. run_m. cbn.
    destruct (existsb _ _) eqn:Ee; cbn; [auto|].
    split; [|exact Hd']. apply NoDup_ids_snoc; [exact Hj | exact Ee].
Qed.

(** X18.  On the SQLite backend the primary keys hold through every
    sequence of calls from a new database on: no two rows of [jobs] and no
    two rows of [dlq] ever share an id, whatever the calls return or
    throw, and whichever row the engine picks among equals. *)
Theorem sqlite_primary_keys_hold :
  forall (tie : list JobsRow -> nat) (cs : list (Z * StorageCall)),
    NoDup (jobIds (@runCalls _ (SqliteStorage_IStorage tie) cs freshDb)) /\
    NoDup (dlqIds (@runCalls _ (SqliteStorage_IStorage tie) cs freshDb)).
Proof.
  intros tie cs.
  assert (Hgen : forall db, NoDup (jobIds db) /\ NoDup (dlqIds db) ->
                            NoDup (jobIds (@runCalls _ (SqliteStorage_IStorage tie) cs db)) /\
                            NoDup (dlqIds (@runCalls _ (SqliteStorage_IStorage tie) cs db))).
  { induction cs as [|[now c] rest IH]; intros db Hdb; cbn [runCalls]; [exact Hdb|].
    apply IH, sqlite_call_keys, Hdb. }
  apply Hgen. split; apply NoDup_nil_2.
Qed.

(** *** Writing and reading back *)

Lemma existsb_has_id_fresh (i : string) (l : list JobJSON) :
  i ∉ json_id <$> l -> existsb (JsonStorage.has_id i) l = false.
Proof.
  induction l as [|d l IH]; cbn; intros H; [reflexivity|].
  apply not_elem_of_cons in H. destruct H as [Hd Hl].
  rewrite (IH Hl). unfold JsonStorage.has_id.
  rewrite bool_decide_eq_false_2 by congruence. reflexivity.
Qed.

Lemma find_snoc_fresh {A} (p : A -> bool) (l : list A) (x : A) :
  existsb p l = false -> List.find p (l ++ [x]) = if p x then Some x else None.
Proof.
  induction l as [|y l IH]; cbn; intros H; [reflexivity|].
  apply orb_false_iff in H. destruct H as [Hy Hl]. rewrite Hy. exact (IH Hl).
Qed.

Lemma find_snoc_other {A} (p : A -> bool) (l : list A) (x : A) :
  p x = false -> List.find p (l ++ [x]) = List.find p l.
Proof.
  intros Hx. induction l as [|y l IH]; cbn; [rewrite Hx; reflexivity|].
  destruct (p y); [reflexivity | exact IH].
Qed.

Lemma has_id_other (i : string) (d : JobJSON) :
  i <> json_id d -> JsonStorage.has_id i d = false.
Proof. intros H. unfold JsonStorage.has_id. apply bool_decide_eq_false. congruence. Qed.

Lemma json_enqueue_fresh (job : Job) (st : JsonStore) :
  lockFile st = false -> id job ∉ jsonIds st ->
  JsonStorage.enqueue job st =
  (Ok tt, mkJsonStore (jobsFile st ++ [toJSON job]) (dlqFile st) false).
Proof.
  intros Hl Hid. unfold JsonStorage.enqueue, JsonStorage.withLock. rewrite Hl.
  run_m. unfold JsonStorage.readJobs, JsonStorage.writeJobs. run_m. cbn.
  rewrite (existsb_has_id_fresh _ _ Hid). reflexivity.
Qed.

Lemma sqlite_enqueue_fresh (job : Job) (db : Db) :
  id job ∉ jobIds db ->
  SqliteStorage.enqueue job db =
  (Ok tt, mkDb (jobsTable db ++ [toJSON job]) (dlqTable db)).
Proof.
  intros Hid. unfold SqliteStorage.enqueue, SqliteStorage.insertJob. run_m.
  change (existsb (SqliteStorage.row_has_id (json_id (toJSON job))) (jobsTable db))
    with (existsb (JsonStorage.has_id (id job)) (jobsTable db)).
  rewrite (existsb_has_id_fresh _ _ Hid). reflexivity.
Qed.

Lemma json_getById_snoc (job : Job) (l dlq : list JobJSON) (b : bool) :
  hydrated job -> id job ∉ json_id <$> l ->
  JsonStorage.getById (id job) (mkJsonStore (l ++ [toJSON job]) dlq b) =
  (Ok (Some job), mkJsonStore (l ++ [toJSON job]) dlq b).
Proof.
  intros Hh Hid. unfold JsonStorage.getById, JsonStorage.readJobs. run_m. cbn.
  rewrite find_snoc_fresh by (apply existsb_has_id_fresh; exact Hid).
  rewrite has_id_toJSON. cbn. rewrite (hydrated_roundtrip job Hh). reflexivity.
Qed.

Lemma sqlite_getById_snoc (job : Job) (l : list JobsRow) (dlq : list DlqRow) :
  hydrated job -> id job ∉ json_id <$> l ->
  SqliteStorage.getById (id job) (mkDb (l ++ [toJSON job]) dlq) =
  (Ok (Some job), mkDb (l ++ [toJSON job]) dlq).
Proof.
  intros Hh Hid. unfold SqliteStorage.getById. run_m. cbn.
  change (SqliteStorage.row_has_id (id job)) with (JsonStorage.has_id (id job)).
  rewrite find_snoc_fresh by (apply existsb_has_id_fresh; exact Hid).
  rewrite has_id_toJSON. cbn. unfold rowToJSON.
  rewrite (hydrated_roundtrip job Hh). reflexivity.
Qed.

(** X19.  A job that validates, enqueued under an id the backend does not
    hold, is stored, and [getById] then returns it equal in every member;
    what [getById] returns for any other id is as before.  Both backends
    agree. *)
Theorem enqueue_then_getById :
  forall (job : Job) (st : JsonStore) (db : Db),
    hydrated job ->
    lockFile st = false ->
    id job ∉ jsonIds st ->
    id job ∉ jobIds db ->
    (exists st',
       JsonStorage.enqueue job st = (Ok tt, st') /\
       JsonStorage.getById (id job) st' = (Ok (Some job), st') /\
       forall i, i <> id job ->
         fst (JsonStorage.getById i st') = fst (JsonStorage.getById i st)) /\
    (exists db',
       SqliteStorage.enqueue job db = (Ok tt, db') /\
       SqliteStorage.getById (id job) db' = (Ok (Some job), db') /\
       forall i, i <> id job ->
         fst (SqliteStorage.getById i db') = fst (SqliteStorage.getById i db)).
Proof.
  intros job st db Hh Hl Hst Hdb. split.
  - eexists. split; [apply json_enqueue_fresh; assumption|].
    split; [apply json_getById_snoc; assumption|].
    intros i Hi. unfold JsonStorage.getById, JsonStorage.readJobs. run_m. cbn.
    rewrite find_snoc_other by (apply has_id_other; exact Hi).
    destruct (List.find _ _) as [found|]; [|reflexivity].
    destruct (fromJSON found); reflexivity.
  - eexists. split; [apply sqlite_enqueue_fresh; assumption|].
    split; [apply sqlite_getById_snoc; assumption|].
    intros i Hi. unfold SqliteStorage.getById. run_m. cbn.
    change (SqliteStorage.row_has_id i) with (JsonStorage.has_id i).
    rewrite find_snoc_other by (apply has_id_other; exact Hi).
    destruct (List.find _ _) as [found|]; [|reflexivity].
    destruct (fromJSON _); reflexivity.
Qed.

Lemma enqueue_then_getById_witness :
  let job := mkJob "a" "X" pending 0 3 0 0 None None (Some 2) None in
  let other := mkJob "b" "Y" pending 0 3 0 0 None None (Some 2) None in
  let st := mkJsonStore [toJSON other] [] false in
  let db := mkDb [toJSON other] [] in
  (exists st',
     JsonStorage.enqueue job st = (Ok tt, st') /\
     JsonStorage.getById (id job) st' = (Ok (Some job), st') /\
     forall i, i <> id job ->
       fst (JsonStorage.getById i st') = fst (JsonStorage.getById i st)) /\
  (exists db',
     SqliteStorage.enqueue job db = (Ok tt, db') /\
     SqliteStorage.getById (id job) db' = (Ok (Some job), db') /\
     forall i, i <> id job ->
       fst (SqliteStorage.getById i db') = fst (SqliteStorage.getById i db)).
Proof.
  intros job other st db.
  apply (enqueue_then_getById job st db).
  - split; [reflexivity | exists 2; reflexivity].
  - reflexivity.
  - vm_compute. intros H. apply list_elem_of_singleton in H. discriminate.
  - vm_compute. intros H. apply list_elem_of_singleton in H. discriminate.
Defined.

Lemma map_no_hit (i : string) (j : JobJSON) (l : list JobsRow) :
  i ∉ json_id <$> l ->
  List.map (fun r => if SqliteStorage.row_has_id i r then j else r) l = l.
Proof.
  induction l as [|r l IH]; cbn; intros H; [reflexivity|].
  apply not_elem_of_cons in H. destruct H as [Hr Hl].
  rewrite (IH Hl). unfold SqliteStorage.row_has_id.
  rewrite bool_decide_eq_false_2 by congruence. reflexivity.
Qed.

(** X20.  [update] for an id the backend does not hold.  The flat-file
    backend throws "Job not found"; the SQLite backend returns normally,
    its UPDATE matching no row.  Neither stores anything. *)
Theorem update_of_unknown_job :
  forall (job : Job) (st : JsonStore) (db : Db),
    lockFile st = false ->
    id job ∉ jsonIds st ->
    id job ∉ jobIds db ->
    JsonStorage.update job st = (Throw (JobNotFound (id job)), st) /\
    SqliteStorage.update job db = (Ok tt, db).
Proof.
  intros job st db Hl Hst Hdb. split.
  - unfold JsonStorage.update, JsonStorage.withLock. rewrite Hl.
    run_m. unfold JsonStorage.readJobs. run_m. cbn.
    pose proof (findIndex_existsb (JsonStorage.has_id (id job)) (jobsFile st)) as He.
    rewrite (existsb_has_id_fresh _ _ Hst) in He.
    destruct (findIndex _ _); [discriminate|]. cbn.
    rewrite (json_store_unlock st Hl). reflexivity.
  - unfold SqliteStorage.update. run_m. cbn.
    rewrite (map_no_hit _ _ _ Hdb). destruct db; reflexivity.
Qed.

Lemma update_of_unknown_job_witness :
  let job := mkJob "a" "X" completed 0 3 0 9 None None (Some 2) None in
  let other := mkJob "b" "Y" pending 0 3 0 0 None None (Some 2) None in
  let st := mkJsonStore [toJSON other] [] false in
  let db := mkDb [toJSON other] [] in
  JsonStorage.update job st = (Throw (JobNotFound (id job)), st) /\
  SqliteStorage.update job db = (Ok tt, db).
Proof.
  intros job other st db.
  apply (update_of_unknown_job job st db).
  - reflexivity.
  - vm_compute. intros H. apply list_elem_of_singleton in H. discriminate.
  - vm_compute. intros H. apply list_elem_of_singleton in H. discriminate.
Defined.

(** *** The dead letter queue *)

Lemma findIndex_snoc_fresh {A} (p : A -> bool) (l : list A) (x : A) :
  existsb p l = false -> p x = true -> findIndex p (l ++ [x]) = Some (length l).
Proof.
  intros Hl Hx. induction l as [|y l IH]; cbn; [rewrite Hx; reflexivity|].
  cbn in Hl. apply orb_false_iff in Hl. destruct Hl as [Hy Hl].
  rewrite Hy, (IH Hl). reflexivity.
Qed.

Lemma delete_snoc {A} (l : list A) (x : A) : delete (length l) (l ++ [x]) = l.
Proof. induction l as [|y l IH]; cbn; [reflexivity|]. f_equal. exact IH. Qed.

Lemma lookup_snoc {A} (l : list A) (x : A) : (l ++ [x]) !! length l = Some x.
Proof. induction l as [|y l IH]; cbn; [reflexivity | exact IH]. Qed.

Lemma existsb_delete_found (i : string) (l : list JobJSON) (idx : nat) :
  NoDup (json_id <$> l) ->
  findIndex (JsonStorage.has_id i) l = Some idx ->
  existsb (JsonStorage.has_id i) (delete idx l) = false.
Proof.
  revert idx. induction l as [|d l IH]; intros idx Hnd Hf; [discriminate|].
  cbn in Hf, Hnd. apply NoDup_cons in Hnd. destruct Hnd as [Hd Hnd].
  destruct (JsonStorage.has_id i d) eqn:Ed.
  - inversion Hf; subst. cbn. apply existsb_has_id_fresh.
    unfold JsonStorage.has_id in Ed. apply bool_decide_eq_true in Ed. congruence.
  - destruct (findIndex _ l) as [k|] eqn:Ek; [|discriminate].
    inversion Hf; subst. cbn. rewrite Ed. cbn. apply IH; [exact Hnd | reflexivity].
Qed.

Lemma json_existsb_after_move (i : string) (l : list JobJSON) :
  NoDup (json_id <$> l) ->
  existsb (JsonStorage.has_id i)
    (match findIndex (JsonStorage.has_id i) l with
     | Some idx => delete idx l
     | None => l
     end) = false.
Proof.
  intros Hnd. destruct (findIndex _ l) as [idx|] eqn:Ef.
  - apply existsb_delete_found; assumption.
  - rewrite findIndex_existsb, Ef. reflexivity.
Qed.

Lemma existsb_filter_out (i : string) (l : list JobsRow) :
  existsb (SqliteStorage.row_has_id i)
    (List.filter (fun r => negb (SqliteStorage.row_has_id i r)) l) = false.
Proof.
  induction l as [|r l IH]; cbn; [reflexivity|].
  destruct (SqliteStorage.row_has_id i r) eqn:Er; cbn; [exact IH|].
  rewrite Er. exact IH.
Qed.

Lemma dlq_filter_snoc (i : string) (l : list DlqRow) (row : DlqRow) :
  existsb (SqliteStorage.dlq_has_id i) l = false ->
  SqliteStorage.dlq_has_id i row = true ->
  List.filter (fun r => negb (SqliteStorage.dlq_has_id i r)) (l ++ [row]) = l.
Proof.
  intros Hl Hr. rewrite List.filter_app. cbn. rewrite Hr. cbn.
  rewrite app_nil_r. induction l as [|d l IH]; cbn; [reflexivity|].
  cbn in Hl. apply orb_false_iff in Hl. destruct Hl as [Hd Hl].
  rewrite Hd. cbn. f_equal. exact (IH Hl).
Qed.

Lemma existsb_dlq_has_id_fresh (i : string) (l : list DlqRow) :
  i ∉ dlq_id <$> l -> existsb (SqliteStorage.dlq_has_id i) l = false.
Proof.
  induction l as [|d l IH]; cbn; intros H; [reflexivity|].
  apply not_elem_of_cons in H. destruct H as [Hd Hl].
  rewrite (IH Hl). unfold SqliteStorage.dlq_has_id.
  rewrite bool_decide_eq_false_2 by congruence. reflexivity.
Qed.

Lemma resetForRetry_hydrated (now : Z) (k : bool) (j j' : Job) :
  hydrated j -> resetForRetry now k j = Ok j' -> hydrated j'.
Proof.
  intros Hh Hr.
  apply (step_hydrated (TResetForRetry now k) j j'); [|exact Hh].
  cbn [applyTransition]. rewrite Hr. reflexivity.
Qed.

(** X21.  Round trip through the dead letter queue, on both backends.
    For a dead (or failed) job that validates and whose id is not in the
    DLQ yet: [moveToDLQ] followed by [retryFromDLQ] of its id succeeds and
    returns the job reset ([pending], [attempts] 0, no [next_attempt_at],
    no [last_error], everything else as it was); the DLQ is as before;
    and [getById] finds the reset job in the jobs collection. *)
Theorem dlq_round_trip :
  forall (job : Job) (t1 t2 : Z) (st : JsonStore) (db : Db),
    hydrated job ->
    state job = dead \/ state job = failed ->
    lockFile st = false ->
    NoDup (jsonIds st) ->
    id job ∉ json_id <$> dlqFile st ->
    id job ∉ dlqIds db ->
    exists job',
      resetForRetry t2 false job = Ok job' /\
      state job' = pending /\ attempts job' = 0 /\
      next_attempt_at job' = None /\ last_error job' = None /\
      (exists st1 st2,
         JsonStorage.moveToDLQ job st = (Ok tt, st1) /\
         JsonStorage.retryFromDLQ (id job) t2 st1 = (Ok (Some job'), st2) /\
         dlqFile st2 = dlqFile st /\
         JsonStorage.getById (id job) st2 = (Ok (Some job'), st2)) /\
      (exists db1 db2,
         SqliteStorage.moveToDLQ job t1 db = (Ok tt, db1) /\
         SqliteStorage.retryFromDLQ (id job) t2 db1 = (Ok (Some job'), db2) /\
         dlqTable db2 = dlqTable db /\
         SqliteStorage.getById (id job) db2 = (Ok (Some job'), db2)).
Proof.
  intros job t1 t2 st db Hh Hst Hl Hnd Hdlq Hdb.
  destruct (resetForRetry t2 false job) as [job'|e] eqn:Er.
  2:{ unfold resetForRetry in Er. destruct Hst as [E|E]; rewrite E in Er; discriminate. }
  pose proof (resetForRetry_hydrated _ _ _ _ Hh Er) as Hh'.
  pose proof Er as Hinv. apply resetForRetry_inv in Hinv.
  destruct Hinv as (_ & Hp & Hn & Hle & Ha & Hid & _).
  exists job'. split; [reflexivity|]. do 4 (split; [assumption|]). split.
  - (* the flat-file backend *)
    rewrite json_moveToDLQ_eq, Hl.
    set (jobs1 := match findIndex (JsonStorage.has_id (id job)) (jobsFile st) with
                  | Some idx => delete idx (jobsFile st)
                  | None => jobsFile st
                  end).
    assert (Hfree : existsb (JsonStorage.has_id (id job)) jobs1 = false)
      by (apply json_existsb_after_move; exact Hnd).
    eexists _, _. split; [reflexivity|].
    unfold JsonStorage.retryFromDLQ, JsonStorage.withLock. cbn [lockFile].
    run_m. unfold JsonStorage.readJobs, JsonStorage.readDLQ,
      JsonStorage.writeJobs, JsonStorage.writeDLQ. run_m.
    cbn [jobsFile dlqFile lockFile fst snd].
    rewrite (findIndex_snoc_fresh _ _ _ (existsb_has_id_fresh _ _ Hdlq)
               (has_id_toJSON job)).
    rewrite lookup_snoc. cbn [fst snd].
    rewrite (hydrated_roundtrip job Hh). cbn [fst snd]. rewrite Er. cbn [fst snd].
    rewrite Hid, Hfree. cbn [jobsFile dlqFile lockFile fst snd].
    rewrite delete_snoc.
    split; [reflexivity|]. split; [reflexivity|].
    rewrite <- Hid. apply json_getById_snoc; [exact Hh'|].
    rewrite Hid. intros Hin. apply existsb_has_id_false in Hfree. contradiction.
  - (* the SQLite backend *)
    rewrite sqlite_moveToDLQ_eq, (existsb_dlq_has_id_fresh _ _ Hdb).
    eexists _, _. split; [reflexivity|].
    unfold SqliteStorage.retryFromDLQ, SqliteStorage.transaction.
    run_m. cbn [jobsTable dlqTable fst snd].
    rewrite find_snoc_fresh by (apply existsb_dlq_has_id_fresh; exact Hdb).
    assert (Hrow : SqliteStorage.dlq_has_id (id job)
                     (mkDlqRow (id job) (toJSON job) t1) = true).
    { unfold SqliteStorage.dlq_has_id. apply bool_decide_eq_true. reflexivity. }
    rewrite Hrow. unfold SqliteStorage.deleteDlq. run_m.
    cbn [jobsTable dlqTable fst snd payload].
    rewrite (dlq_filter_snoc _ _ _ (existsb_dlq_has_id_fresh _ _ Hdb) Hrow).
    rewrite (hydrated_roundtrip job Hh). cbn [fst snd]. rewrite Er. cbn [fst snd].
    unfold SqliteStorage.enqueue, SqliteStorage.insertJob. run_m.
    cbn [jobsTable dlqTable fst snd].
    change (json_id (toJSON job')) with (id job'). rewrite Hid.
    rewrite existsb_filter_out. cbn [jobsTable dlqTable fst snd].
    split; [reflexivity|]. split; [reflexivity|].
    rewrite <- Hid. apply sqlite_getById_snoc; [exact Hh'|].
    rewrite Hid. apply existsb_row_has_id_false, existsb_filter_out.
Qed.

Lemma dlq_round_trip_witness :
  let job := mkJob "a" "X" dead 2 1 0 3010 None None (Some 2) (Some "e2") in
  let other := mkJob "b" "Y" pending 0 3 0 0 None None (Some 2) None in
  let st := mkJsonStore [toJSON job; toJSON other] [toJSON other] false in
  let db := mkDb [toJSON job; toJSON other] [mkDlqRow "b" (toJSON other) 5] in
  exists job',
    resetForRetry 4000 false job = Ok job' /\
    state job' = pending /\ attempts job' = 0 /\
    next_attempt_at job' = None /\ last_error job' = None /\
    (exists st1 st2,
       JsonStorage.moveToDLQ job st = (Ok tt, st1) /\
       JsonStorage.retryFromDLQ (id job) 4000 st1 = (Ok (Some job'), st2) /\
       dlqFile st2 = dlqFile st /\
       JsonStorage.getById (id job) st2 = (Ok (Some job'), st2)) /\
    (exists db1 db2,
       SqliteStorage.moveToDLQ job 3500 db = (Ok tt, db1) /\
       SqliteStorage.retryFromDLQ (id job) 4000 db1 = (Ok (Some job'), db2) /\
       dlqTable db2 = dlqTable db /\
       SqliteStorage.getById (id job) db2 = (Ok (Some job'), db2)).
Proof.
  intros job other st db.
  apply (dlq_round_trip job 3500 4000 st db).
  - split; [reflexivity | exists 2; reflexivity].
  - left. reflexivity.
  - reflexivity.
  - vm_compute. apply NoDup_cons. split.
    + intros H. apply list_elem_of_singleton in H. discriminate.
    + apply NoDup_singleton.
  - vm_compute. intros H. apply list_elem_of_singleton in H. discriminate.
  - vm_compute. intros H. apply list_elem_of_singleton in H. discriminate.
Defined.

(** *** Which job is leased *)

Lemma stable_sort_head_min {A} (cmp : A -> A -> Z) (l : list A) (x : A)
    (rest : list A) :
  (forall a b, cmp a b <= 0 \/ cmp b a <= 0) ->
  (forall a b c, cmp a b <= 0 -> cmp b c <= 0 -> cmp a c <= 0) ->
  stable_sort cmp l = x :: rest ->
  forall y, y ∈ l -> cmp x y <= 0.
Proof.
  intros Htot Htrans Hs y Hy.
  pose proof (stable_sort_ordered cmp Htot Htrans l) as Hord.
  rewrite Hs in Hord. apply ordered_cons in Hord. destruct Hord as [Hhead _].
  apply (elem_of_stable_sort cmp) in Hy. rewrite Hs in Hy.
  apply elem_of_cons in Hy. destruct Hy as [-> | Hy]; [|apply Hhead; exact Hy].
  destruct (Htot x x); assumption.
Qed.

Lemma compareCandidates_le (a b : JobJSON) :
  JsonStorage.compareCandidates a b <= 0 <-> leaseKeyLe a b.
Proof.
  unfold JsonStorage.compareCandidates, leaseKeyLe, lexLe.
  case_bool_decide; lia.
Qed.

(** The text order of two timestamps is the lexicographic order of
    first character, year before 0, instant. *)
Lemma isoCompare_le_key (a b : Z) :
  SqliteStorage.isoCompare a b <= 0 <->
  SqliteStorage.isoClass a < SqliteStorage.isoClass b \/
  (SqliteStorage.isoClass a = SqliteStorage.isoClass b /\
   (SqliteStorage.isoMinor a < SqliteStorage.isoMinor b \/
    (SqliteStorage.isoMinor a = SqliteStorage.isoMinor b /\ a <= b))).
Proof.
  unfold SqliteStorage.isoCompare, SqliteStorage.isoMinor.
  case_bool_decide as Hc; [lia|].
  assert (Hc' : SqliteStorage.isoClass a = SqliteStorage.isoClass b).
  { destruct (Z.eq_dec (SqliteStorage.isoClass a) (SqliteStorage.isoClass b));
      [assumption | contradiction]. }
  rewrite <- Hc'.
  destruct (Z.eqb_spec (SqliteStorage.isoClass a) 1) as [H1|H1]; cbn [andb negb].
  - destruct (Z.eqb_spec (SqliteStorage.yearOf a) (SqliteStorage.yearOf b)); cbn [negb]; lia.
  - lia.
Qed.

Lemma isoCompare_antisym (a b : Z) :
  SqliteStorage.isoCompare b a = - SqliteStorage.isoCompare a b.
Proof.
  unfold SqliteStorage.isoCompare.
  case_bool_decide as Hc; case_bool_decide as Hc'; try lia; try congruence.
  assert (Hcc : SqliteStorage.isoClass a = SqliteStorage.isoClass b).
  { destruct (Z.eq_dec (SqliteStorage.isoClass a) (SqliteStorage.isoClass b));
      [assumption | contradiction]. }
  rewrite <- Hcc.
  destruct (Z.eqb_spec (SqliteStorage.isoClass a) 1); cbn [andb]; [|lia].
  destruct (Z.eqb_spec (SqliteStorage.yearOf a) (SqliteStorage.yearOf b)) as [E|NE].
  - rewrite E, Z.eqb_refl. cbn [negb]. lia.
  - destruct (Z.eqb_spec (SqliteStorage.yearOf b) (SqliteStorage.yearOf a)); [congruence|].
    cbn [negb]. lia.
Qed.

Lemma isoCompare_zero (a b : Z) : SqliteStorage.isoCompare a b = 0 -> a = b.
Proof.
  intros H.
  assert (H1 : SqliteStorage.isoCompare a b <= 0) by lia.
  assert (H2 : SqliteStorage.isoCompare b a <= 0) by (rewrite isoCompare_antisym; lia).
  apply isoCompare_le_key in H1, H2. lia.
Qed.

Lemma isoCompare_trans (a b c : Z) :
  SqliteStorage.isoCompare a b <= 0 -> SqliteStorage.isoCompare b c <= 0 ->
  SqliteStorage.isoCompare a c <= 0.
Proof. rewrite !isoCompare_le_key. lia. Qed.

Lemma orderBy_le (a b : JobsRow) :
  SqliteStorage.orderBy a b <= 0 <-> sqlKeyLe a b.
Proof.
  unfold SqliteStorage.orderBy, sqlKeyLe.
  case_bool_decide as Hc; [lia|].
  assert (SqliteStorage.isoCompare (SqliteStorage.coalesceDue a)
            (SqliteStorage.coalesceDue b) = 0) by
    (destruct (Z.eq_dec (SqliteStorage.isoCompare (SqliteStorage.coalesceDue a)
                           (SqliteStorage.coalesceDue b)) 0); [assumption | contradiction]).
  lia.
Qed.

Lemma sqlKeyLe_total (a b : JobsRow) : sqlKeyLe a b \/ sqlKeyLe b a.
Proof.
  unfold sqlKeyLe.
  rewrite (isoCompare_antisym (SqliteStorage.coalesceDue a) (SqliteStorage.coalesceDue b)).
  rewrite (isoCompare_antisym (json_created_at a) (json_created_at b)).
  lia.
Qed.

Lemma sqlKeyLe_trans (a b c : JobsRow) :
  sqlKeyLe a b -> sqlKeyLe b c -> sqlKeyLe a c.
Proof.
  unfold sqlKeyLe.
  set (xa := SqliteStorage.coalesceDue a). set (xb := SqliteStorage.coalesceDue b).
  set (xc := SqliteStorage.coalesceDue c).
  intros [H1 | [H1 V1]] [H2 | [H2 V2]].
  - left. assert (Hle : SqliteStorage.isoCompare xa xc <= 0)
      by (apply (isoCompare_trans xa xb xc); lia).
    destruct (Z.eq_dec (SqliteStorage.isoCompare xa xc) 0) as [E|]; [|lia].
    apply isoCompare_zero in E.
    pose proof (isoCompare_antisym xa xb) as Ha. rewrite E in Ha, H1. lia.
  - left. apply isoCompare_zero in H2. rewrite <- H2. exact H1.
  - left. apply isoCompare_zero in H1. rewrite H1. exact H2.
  - right. apply isoCompare_zero in H1, H2. split.
    + rewrite H1, H2. apply isoCompare_refl.
    + apply (isoCompare_trans _ (json_created_at b)); assumption.
Qed.

(** Inside the years 0000 to 9999 that order is the order of the
    instants, as the flat-file backend has it. *)
Lemma sqlKeyLe_common (a b : JobsRow) :
  fourDigitYears a -> fourDigitYears b -> (sqlKeyLe a b <-> leaseKeyLe a b).
Proof.
  intros Ha Hb. unfold sqlKeyLe, leaseKeyLe, lexLe.
  assert (Hx : forall r, fourDigitYears r ->
            SqliteStorage.coalesceDue r = JsonStorage.effectiveDueAt r /\
            SqliteStorage.YEAR_0 <= SqliteStorage.coalesceDue r < SqliteStorage.YEAR_10000 /\
            SqliteStorage.YEAR_0 <= json_created_at r < SqliteStorage.YEAR_10000).
  { intros r Hr. unfold SqliteStorage.coalesceDue, JsonStorage.effectiveDueAt.
    split; [reflexivity|]. split; [|apply Hr; auto].
    destruct (json_next_attempt_at r) as [n|] eqn:En; [apply Hr; auto|].
    destruct (json_run_at r) as [x|] eqn:Er; [apply Hr; auto | apply Hr; auto]. }
  destruct (Hx a Ha) as (Ea & Ra & Ca). destruct (Hx b Hb) as (Eb & Rb & Cb).
  rewrite <- Ea, <- Eb.
  rewrite !isoCompare_common by assumption. lia.
Qed.

Lemma leaseKeyLe_total (a b : JobJSON) : leaseKeyLe a b \/ leaseKeyLe b a.
Proof. unfold leaseKeyLe, lexLe. lia. Qed.

Lemma leaseKeyLe_trans (a b c : JobJSON) :
  leaseKeyLe a b -> leaseKeyLe b c -> leaseKeyLe a c.
Proof. unfold leaseKeyLe. apply lexLe_trans. Qed.

Lemma dueCandidates_filter (at_ : Z) (docs cands : list JobJSON) :
  JsonStorage.dueCandidates at_ docs = Ok cands ->
  cands = List.filter (jsonDue at_) docs.
Proof.
  revert cands. induction docs as [|d docs IH]; cbn; intros cands H.
  - inversion H. reflexivity.
  - unfold jsonDue at 1.
    destruct (fromJSON d) as [job|e]; [|discriminate]. cbn in H.
    destruct (JsonStorage.dueCandidates at_ docs) as [rest|e]; [|discriminate].
    cbn in H. inversion H; subst. rewrite (IH rest eq_refl).
    destruct (isDue at_ job); reflexivity.
Qed.

Lemma elem_of_List_filter {A} (f : A -> bool) (l : list A) (x : A) :
  x ∈ List.filter f l <-> x ∈ l /\ f x = true.
Proof.
  rewrite !list_elem_of_In. apply List.filter_In.
Qed.

Lemma NoDup_ids_lookup (l : list JobJSON) (i k : nat) (a b : JobJSON) :
  NoDup (json_id <$> l) ->
  l !! i = Some a -> l !! k = Some b -> json_id a = json_id b -> i = k.
Proof.
  intros Hnd Ha Hb Hid.
  apply (NoDup_lookup _ i k (json_id a) Hnd);
    rewrite list_lookup_fmap; [rewrite Ha | rewrite Hb]; cbn; congruence.
Qed.

Lemma findIndex_NoDup (l : list JobJSON) (idx : nat) (d : JobJSON) :
  NoDup (json_id <$> l) -> l !! idx = Some d ->
  findIndex (JsonStorage.has_id (json_id d)) l = Some idx.
Proof.
  intros Hnd Hd.
  destruct (findIndex (JsonStorage.has_id (json_id d)) l) as [k|] eqn:Ef.
  - destruct (findIndex_has_id _ _ _ Ef) as (x & Hx & Hid).
    f_equal. apply (NoDup_ids_lookup l k idx x d); assumption.
  - exfalso. pose proof (findIndex_existsb (JsonStorage.has_id (json_id d)) l) as He.
    rewrite Ef in He. apply existsb_has_id_false in He. apply He.
    apply list_elem_of_fmap. exists d. split; [reflexivity|].
    apply list_elem_of_lookup. eauto.
Qed.

(** X22.  Which document the flat-file backend leases.  With unique ids
    in the jobs collection, a [leaseNext] that returns a job has taken a
    document that is due at the query time and comes first among all due
    documents by effective due time, then [created_at]; it has rewritten
    that document alone, as [processing].  A [leaseNext] that returns
    nothing found no due document and wrote nothing. *)
Theorem json_lease_takes_earliest_due :
  forall (at_opt : option Z) (now : Z) (st st' : JsonStore) (r : option Job),
    NoDup (jsonIds st) ->
    JsonStorage.leaseNext at_opt now st = (Ok r, st') ->
    match r with
    | Some job =>
        exists idx doc,
          jobsFile st !! idx = Some doc /\
          jsonDue (default now at_opt) doc = true /\
          (forall d, d ∈ jobsFile st -> jsonDue (default now at_opt) d = true ->
                     leaseKeyLe doc d) /\
          fromJSON (JsonStorage.leasedCopy now doc) = Ok job /\
          st' = mkJsonStore (<[idx := JsonStorage.leasedCopy now doc]> (jobsFile st))
                  (dlqFile st) false
    | None =>
        st' = st /\
        forall d, d ∈ jobsFile st -> jsonDue (default now at_opt) d = false
    end.
Proof.
  intros at_opt now st st' r Hnd.
  unfold JsonStorage.leaseNext, JsonStorage.withLock.
  destruct (lockFile st) eqn:El; [discriminate|].
  run_m. unfold JsonStorage.readJobs, JsonStorage.writeJobs. run_m.
  cbn [jobsFile dlqFile lockFile].
  destruct (JsonStorage.dueCandidates (default now at_opt) (jobsFile st))
    as [cands|e] eqn:Ec; [|discriminate].
  pose proof (dueCandidates_filter _ _ _ Ec) as Hc.
  destruct (stable_sort JsonStorage.compareCandidates cands) as [|sel rest] eqn:Es.
  - cbn. intros H. inversion H; subst r st'. clear H.
    split; [apply json_store_unlock; exact El|].
    intros d Hd. destruct (jsonDue (default now at_opt) d) eqn:Edue; [|reflexivity].
    exfalso.
    assert (Hin : d ∈ stable_sort JsonStorage.compareCandidates cands).
    { apply elem_of_stable_sort. rewrite Hc. apply elem_of_List_filter. auto. }
    rewrite Es in Hin. inversion Hin.
  - assert (Hsel : sel ∈ cands).
    { apply (elem_of_stable_sort JsonStorage.compareCandidates). rewrite Es.
      apply list_elem_of_here. }
    pose proof Hsel as Hsel'. rewrite Hc in Hsel'.
    apply elem_of_List_filter in Hsel'. destruct Hsel' as [Hin Hdue].
    apply list_elem_of_lookup in Hin. destruct Hin as [idx Hidx].
    rewrite (findIndex_NoDup _ _ _ Hnd Hidx), Hidx.
    cbn [jobsFile dlqFile lockFile].
    destruct (fromJSON (JsonStorage.leasedCopy now sel)) as [jl|e] eqn:El2;
      [|discriminate].
    cbn. intros H. inversion H; subst r st'. clear H.
    exists idx, sel. split; [exact Hidx|]. split; [exact Hdue|].
    split; [|auto].
    intros d Hd Hdd. apply compareCandidates_le.
    apply (stable_sort_head_min JsonStorage.compareCandidates cands sel rest).
    + intros a b. rewrite !compareCandidates_le. apply leaseKeyLe_total.
    + intros a b c. rewrite !compareCandidates_le. apply leaseKeyLe_trans.
    + exact Es.
    + rewrite Hc. apply elem_of_List_filter. auto.
Qed.

Lemma json_lease_takes_earliest_due_witness :
  let early := mkJob "a" "X" pending 0 3 5 5 None None (Some 2) None in
  let late := mkJob "b" "Y" pending 0 3 7 7 None None (Some 2) None in
  let st := mkJsonStore [toJSON late; toJSON early] [] false in
  exists idx doc,
    jobsFile st !! idx = Some doc /\
    jsonDue 10 doc = true /\
    (forall d, d ∈ jobsFile st -> jsonDue 10 d = true -> leaseKeyLe doc d) /\
    fromJSON (JsonStorage.leasedCopy 10 doc) =
      Ok (mkJob "a" "X" processing 0 3 5 10 None None (Some 2) None) /\
    mkJsonStore [toJSON late; JsonStorage.leasedCopy 10 (toJSON early)] [] false =
      mkJsonStore (<[idx := JsonStorage.leasedCopy 10 doc]> (jobsFile st))
        (dlqFile st) false.
Proof.
  intros early late st.
  apply (json_lease_takes_earliest_due (Some 10) 10 st
           (mkJsonStore [toJSON late; JsonStorage.leasedCopy 10 (toJSON early)] [] false)
           (Some (mkJob "a" "X" processing 0 3 5 10 None None (Some 2) None))).
  - vm_compute. apply NoDup_cons. split.
    + intros H. apply list_elem_of_singleton in H. discriminate.
    + apply NoDup_singleton.
  - reflexivity.
Defined.

Lemma map_filter_no_hit {A} (p : A -> bool) (f : A -> A) (l : list A) :
  (forall x, x ∈ l -> p x = false) ->
  List.map (fun x => if p x then f x else x) l = l /\ List.filter p l = [].
Proof.
  induction l as [|y l IH]; intros H; cbn; [auto|].
  rewrite (H y) by apply list_elem_of_here.
  destruct IH as [-> ->]; [|auto].
  intros x Hx. apply H. apply list_elem_of_further. exact Hx.
Qed.

Lemma map_filter_one_hit (p : JobsRow -> bool) (f : JobsRow -> JobsRow)
    (l : list JobsRow) (idx : nat) (r : JobsRow) :
  NoDup (json_id <$> l) ->
  l !! idx = Some r ->
  p r = true ->
  (forall x, p x = true -> json_id x = json_id r) ->
  List.map (fun x => if p x then f x else x) l = <[idx := f r]> l /\
  List.filter p l = [r].
Proof.
  revert idx. induction l as [|y l IH]; intros idx Hnd Hr Hp Hid; [discriminate|].
  cbn in Hnd. apply NoDup_cons in Hnd. destruct Hnd as [Hy Hnd].
  destruct idx as [|idx]; cbn in Hr.
  - inversion Hr; subst y. cbn. rewrite Hp.
    destruct (map_filter_no_hit p f l) as [-> ->]; [|auto].
    intros x Hx. destruct (p x) eqn:Ex; [|reflexivity].
    exfalso. apply Hy. rewrite <- (Hid x Ex).
    apply list_elem_of_fmap. eauto.
  - assert (Hpy : p y = false).
    { destruct (p y) eqn:Ey; [|reflexivity]. exfalso. apply Hy.
      rewrite (Hid y Ey). apply list_elem_of_fmap. exists r.
      split; [reflexivity|]. apply list_elem_of_lookup. eauto. }
    cbn. rewrite Hpy. destruct (IH idx Hnd Hr Hp Hid) as [-> ->]. auto.
Qed.

Lemma find_insert_NoDup (l : list JobsRow) (idx : nat) (r r' : JobsRow) :
  NoDup (json_id <$> l) ->
  l !! idx = Some r -> json_id r' = json_id r ->
  List.find (SqliteStorage.row_has_id (json_id r)) (<[idx := r']> l) = Some r'.
Proof.
  revert idx. induction l as [|y l IH]; intros idx Hnd Hr Hid; [discriminate|].
  cbn in Hnd. apply NoDup_cons in Hnd. destruct Hnd as [Hy Hnd].
  destruct idx as [|idx]; cbn in Hr.
  - inversion Hr; subst y. cbn. unfold SqliteStorage.row_has_id.
    rewrite bool_decide_eq_true_2 by exact Hid. reflexivity.
  - cbn. unfold SqliteStorage.row_has_id at 1.
    rewrite bool_decide_eq_false_2; [apply IH; assumption|].
    intros E. apply Hy. rewrite E. apply list_elem_of_fmap. exists r.
    split; [reflexivity|]. apply list_elem_of_lookup. eauto.
Qed.

Lemma forallb_true_elem {A} (f : A -> bool) (l : list A) :
  forallb f l = true <-> forall x, x ∈ l -> f x = true.
Proof.
  induction l as [|a l IH]; cbn.
  - split; [intros _ x Hx; inversion Hx | reflexivity].
  - rewrite andb_true_iff, IH. split.
    + intros [Ha Hl] x Hx. apply elem_of_cons in Hx. destruct Hx as [->|Hx]; auto.
    + intros H. split; [apply H, list_elem_of_here|].
      intros x Hx. apply H, list_elem_of_further, Hx.
Qed.

(** The first rows are the matching rows that no matching row precedes. *)
Lemma firstRows_spec (t : Z) (db : Db) (r : JobsRow) :
  r ∈ SqliteStorage.firstRows t db <->
  r ∈ jobsTable db /\ SqliteStorage.dueRow t r = true /\
  forall d, d ∈ jobsTable db -> SqliteStorage.dueRow t d = true -> sqlKeyLe r d.
Proof.
  unfold SqliteStorage.firstRows. cbv zeta.
  rewrite elem_of_List_filter, forallb_true_elem, elem_of_List_filter. split.
  - intros [[Hin Hdue] Hmin]. split; [exact Hin|]. split; [exact Hdue|].
    intros d Hd Hdd. apply orderBy_le. apply Z.leb_le. apply Hmin.
    apply elem_of_List_filter. auto.
  - intros (Hin & Hdue & Hmin). split; [auto|].
    intros d Hd. apply elem_of_List_filter in Hd. destruct Hd as [Hd Hdd].
    apply Z.leb_le. apply orderBy_le. auto.
Qed.

(** Where a row matches, there is a first row. *)
Lemma firstRows_nonempty (t : Z) (db : Db) (d : JobsRow) :
  d ∈ jobsTable db -> SqliteStorage.dueRow t d = true ->
  SqliteStorage.firstRows t db <> [].
Proof.
  intros Hd Hdd.
  destruct (stable_sort SqliteStorage.orderBy
              (List.filter (SqliteStorage.dueRow t) (jobsTable db)))
    as [|r rest] eqn:Es.
  - exfalso.
    assert (Hin : d ∈ stable_sort SqliteStorage.orderBy
                        (List.filter (SqliteStorage.dueRow t) (jobsTable db))).
    { apply elem_of_stable_sort. apply elem_of_List_filter. auto. }
    rewrite Es in Hin. inversion Hin.
  - assert (Hr : r ∈ SqliteStorage.firstRows t db).
    { assert (Hin : r ∈ List.filter (SqliteStorage.dueRow t) (jobsTable db)).
      { apply (elem_of_stable_sort SqliteStorage.orderBy). rewrite Es.
        apply list_elem_of_here. }
      apply elem_of_List_filter in Hin. destruct Hin as [Hin Hdue].
      apply firstRows_spec. split; [exact Hin|]. split; [exact Hdue|].
      intros x Hx Hxd. apply orderBy_le.
      apply (stable_sort_head_min SqliteStorage.orderBy
               (List.filter (SqliteStorage.dueRow t) (jobsTable db)) r rest).
      - intros a b. rewrite !orderBy_le. apply sqlKeyLe_total.
      - intros a b c. rewrite !orderBy_le. apply sqlKeyLe_trans.
      - exact Es.
      - apply elem_of_List_filter. auto. }
    intros E. rewrite E in Hr. inversion Hr.
Qed.

(** The SELECT returns the id of one of the first rows, whichever the
    engine picks, and nothing when no row matches. *)
Lemma selectStmt_spec tie (t : Z) (db : Db) :
  match SqliteStorage.selectStmt tie t db with
  | None => forall d, d ∈ jobsTable db -> SqliteStorage.dueRow t d = false
  | Some i => exists r, r ∈ SqliteStorage.firstRows t db /\ json_id r = i
  end.
Proof.
  unfold SqliteStorage.selectStmt. cbv zeta.
  set (l := SqliteStorage.firstRows t db).
  destruct (l !! (tie l `mod` length l)%nat) as [r|] eqn:Er; cbn.
  - exists r. split; [|reflexivity]. apply list_elem_of_lookup. eauto.
  - intros d Hd. destruct (SqliteStorage.dueRow t d) eqn:Edue; [|reflexivity].
    exfalso. pose proof (firstRows_nonempty t db d Hd Edue) as Hne. fold l in Hne.
    apply lookup_ge_None in Er.
    destruct l as [|r0 rest]; [congruence|].
    pose proof (Nat.mod_upper_bound (tie (r0 :: rest)) (length (r0 :: rest))) as Hlt.
    specialize (Hlt ltac:(discriminate)).
    apply Nat.lt_nge in Hlt. apply Hlt. exact Er.
Qed.

(** With unique ids the first turn of the loop of [leaseNext] wins. *)
Lemma sqlite_leaseLoop_eq tie (n : nat) (t : Z) (db : Db) :
  NoDup (jobIds db) ->
  (SqliteStorage.leaseLoop tie (S n) t db = (Ok None, db) /\
   forall d, d ∈ jobsTable db -> SqliteStorage.dueRow t d = false) \/
  (exists idx r,
     jobsTable db !! idx = Some r /\ r ∈ SqliteStorage.firstRows t db /\
     SqliteStorage.leaseLoop tie (S n) t db =
     (Ok (Some (JsonStorage.leasedCopy t r)),
      mkDb (<[idx := JsonStorage.leasedCopy t r]> (jobsTable db)) (dlqTable db))).
Proof.
  intros Hnd. rewrite leaseLoop_step.
  pose proof (selectStmt_spec tie t db) as Hsel.
  destruct (SqliteStorage.selectStmt tie t db) as [i|]; [|left; auto].
  destruct Hsel as (r & Hfirst & <-).
  pose proof Hfirst as Hr. apply firstRows_spec in Hr. destruct Hr as (Hin & Hdue & _).
  apply list_elem_of_lookup in Hin. destruct Hin as [idx Hidx].
  right. exists idx, r. split; [exact Hidx|]. split; [exact Hfirst|].
  unfold SqliteStorage.updateStmt. cbv zeta. cbn [fst snd].
  destruct (map_filter_one_hit
              (fun x => SqliteStorage.row_has_id (json_id r) x && SqliteStorage.dueRow t x)
              (JsonStorage.leasedCopy t) (jobsTable db) idx r Hnd Hidx) as [Hmap Hfil].
  { rewrite row_has_id_refl, Hdue. reflexivity. }
  { intros x Hx. apply andb_true_iff in Hx. destruct Hx as [Hx _].
    unfold SqliteStorage.row_has_id in Hx. apply bool_decide_eq_true in Hx. exact Hx. }
  repeat match goal with
  | |- context [@List.map ?A ?B ?g (jobsTable db)] =>
      replace (@List.map A B g (jobsTable db))
        with (<[idx := JsonStorage.leasedCopy t r]> (jobsTable db))
        by (symmetry; exact Hmap)
  end.
  rewrite Hfil. cbn [length jobsTable].
  rewrite bool_decide_eq_true_2 by reflexivity.
  rewrite (find_insert_NoDup _ _ r) by (assumption || reflexivity).
  reflexivity.
Qed.

(** What a lease of the SQLite backend does to a table with unique ids. *)
Lemma sqlite_leaseNext_eq tie (at_opt : option Z) (now : Z) (db : Db) :
  NoDup (jobIds db) ->
  let t := default now at_opt in
  (SqliteStorage.leaseNext tie at_opt now db = (Ok None, db) /\
   forall d, d ∈ jobsTable db -> SqliteStorage.dueRow t d = false) \/
  (exists idx row,
     jobsTable db !! idx = Some row /\ row ∈ SqliteStorage.firstRows t db /\
     SqliteStorage.leaseNext tie at_opt now db =
     (match fromJSON (JsonStorage.leasedCopy t row) with
      | Ok job => Ok (Some job)
      | Throw e => Throw e
      end,
      mkDb (<[idx := JsonStorage.leasedCopy t row]> (jobsTable db)) (dlqTable db))).
Proof.
  intros Hnd t.
  destruct (sqlite_leaseLoop_eq tie 4 t db Hnd)
    as [[Hrun Hnone] | (idx & r & Hidx & Hfirst & Hrun)].
  - left. split; [|exact Hnone].
    unfold SqliteStorage.leaseNext, SqliteStorage.transaction. run_m.
    fold t. rewrite Hrun. reflexivity.
  - right. exists idx, r. split; [exact Hidx|]. split; [exact Hfirst|].
    unfold SqliteStorage.leaseNext, SqliteStorage.transaction. run_m.
    fold t. rewrite Hrun. unfold rowToJSON.
    destruct (fromJSON (JsonStorage.leasedCopy t r)); reflexivity.
Qed.

(** A row scheduled for year 10000 is leased in 1970: its [run_at] is
    written with a sign and compares as text below the query time. *)
Example sqlite_leases_year_10000_row :
  let far := mkJobJSON "a" "X" pending 0 3 0 0 (Some SqliteStorage.YEAR_10000) None
               (Some 2) None in
  SqliteStorage.dueRow 10 far = true /\
  isDue 10 (mkJob "a" "X" pending 0 3 0 0 (Some SqliteStorage.YEAR_10000) None
              (Some 2) None) = false /\
  forall tie,
    fst (SqliteStorage.leaseNext tie (Some 10) 10 (mkDb [far] [])) =
    Ok (Some (mkJob "a" "X" processing 0 3 0 10 (Some SqliteStorage.YEAR_10000) None
                (Some 2) None)).
Proof.
  split; [reflexivity|]. split; [reflexivity|].
  intros tie. rewrite sqlite_leaseNext_single. reflexivity.
Qed.

(** X23.  Which row the SQLite backend leases, and when it commits.  With
    unique ids in [jobs]: if no row matches the WHERE clause at the query
    time, [leaseNext] returns nothing and writes nothing; otherwise it
    takes a matching row that no matching row precedes in the ORDER BY,
    which compares the timestamps as text (effective due time, then
    [created_at]), whichever of several such rows the engine picks;
    it rewrites that row alone as [processing] with [updated_at] the
    query time, and commits before it hydrates the row: it returns the
    hydrated job, or throws the validation error of a row that does not
    hydrate, which stays [processing].  On rows with all timestamps in
    the years 0000 to 9999 the text order is the order of the instants. *)
Theorem sqlite_lease_takes_earliest_due :
  forall (tie : list JobsRow -> nat) (at_opt : option Z) (now : Z) (db : Db),
    NoDup (jobIds db) ->
    let t := default now at_opt in
    ((SqliteStorage.leaseNext tie at_opt now db = (Ok None, db) /\
      forall d, d ∈ jobsTable db -> SqliteStorage.dueRow t d = false) \/
     (exists idx row,
        jobsTable db !! idx = Some row /\
        SqliteStorage.dueRow t row = true /\
        (forall d, d ∈ jobsTable db -> SqliteStorage.dueRow t d = true ->
                   sqlKeyLe row d /\
                   (fourDigitYears row -> fourDigitYears d -> leaseKeyLe row d)) /\
        SqliteStorage.leaseNext tie at_opt now db =
        (match fromJSON (JsonStorage.leasedCopy t row) with
         | Ok job => Ok (Some job)
         | Throw e => Throw e
         end,
         mkDb (<[idx := JsonStorage.leasedCopy t row]> (jobsTable db)) (dlqTable db)))).
Proof.
  intros tie at_opt now db Hnd t.
  destruct (sqlite_leaseNext_eq tie at_opt now db Hnd)
    as [[Hrun Hnone] | (idx & r & Hidx & Hfirst & Hrun)].
  - left. auto.
  - right. apply firstRows_spec in Hfirst. destruct Hfirst as (_ & Hdue & Hmin).
    exists idx, r. split; [exact Hidx|]. split; [exact Hdue|]. split; [|exact Hrun].
    intros d Hd Hdd. split; [auto|].
    intros Hr Hdy. apply (sqlKeyLe_common r d Hr Hdy). auto.
Qed.

Lemma sqlite_lease_takes_earliest_due_witness :
  let early := mkJob "a" "" pending 0 3 5 5 None None (Some 2) None in
  let late := mkJob "b" "Y" pending 0 3 7 7 None None (Some 2) None in
  let db := mkDb [toJSON late; toJSON early] [] in
  (SqliteStorage.leaseNext SqliteStorage.tieFirst (Some 10) 10 db = (Ok None, db) /\
   forall d, d ∈ jobsTable db -> SqliteStorage.dueRow 10 d = false) \/
  (exists idx row,
     jobsTable db !! idx = Some row /\
     SqliteStorage.dueRow 10 row = true /\
     (forall d, d ∈ jobsTable db -> SqliteStorage.dueRow 10 d = true ->
                sqlKeyLe row d /\
                (fourDigitYears row -> fourDigitYears d -> leaseKeyLe row d)) /\
     SqliteStorage.leaseNext SqliteStorage.tieFirst (Some 10) 10 db =
     (match fromJSON (JsonStorage.leasedCopy 10 row) with
      | Ok job => Ok (Some job)
      | Throw e => Throw e
      end,
      mkDb (<[idx := JsonStorage.leasedCopy 10 row]> (jobsTable db)) (dlqTable db))).
Proof.
  intros early late db.
  apply (sqlite_lease_takes_earliest_due SqliteStorage.tieFirst (Some 10) 10 db).
  vm_compute. apply NoDup_cons. split.
  - intros H. apply list_elem_of_singleton in H. discriminate.
  - apply NoDup_singleton.
Defined.

Lemma dueCandidates_throws (at_ : Z) (docs : list JobJSON) (d : JobJSON) (e : Error) :
  d ∈ docs -> fromJSON d = Throw e ->
  exists e', JsonStorage.dueCandidates at_ docs = Throw e'.
Proof.
  intros Hin Hd. induction docs as [|x docs IH]; [inversion Hin|].
  cbn. destruct (fromJSON x) as [job|ex] eqn:Ex; cbn; [|eauto].
  apply elem_of_cons in Hin. destruct Hin as [-> | Hin]; [congruence|].
  destruct (IH Hin) as [e' ->]. cbn. eauto.
Qed.

Lemma hydrateAll_throws (docs : list JobJSON) (d : JobJSON) (e : Error) :
  d ∈ docs -> fromJSON d = Throw e ->
  exists e', JsonStorage.hydrateAll docs = Throw e'.
Proof.
  intros Hin Hd. induction docs as [|x docs IH]; [inversion Hin|].
  cbn. destruct (fromJSON x) as [job|ex] eqn:Ex; cbn; [|eauto].
  apply elem_of_cons in Hin. destruct Hin as [-> | Hin]; [congruence|].
  destruct (IH Hin) as [e' ->]. cbn. eauto.
Qed.

(** X24.  One document that does not validate blocks the flat-file
    backend.  [leaseNext] hydrates every document of the jobs collection
    before it selects, so with such a document anywhere in the collection
    every [leaseNext], at any query time and whatever else is due, throws
    and leases nothing; [list()] throws as well.  The store is left as it
    was. *)
Theorem json_invalid_document_blocks_leasing :
  forall (at_opt : option Z) (now : Z) (st : JsonStore) (d : JobJSON) (e : Error),
    lockFile st = false ->
    d ∈ jobsFile st ->
    fromJSON d = Throw e ->
    (exists e', JsonStorage.leaseNext at_opt now st = (Throw e', st)) /\
    (exists e', JsonStorage.list_ None st = (Throw e', st)).
Proof.
  intros at_opt now st d e Hl Hin Hd. split.
  - destruct (dueCandidates_throws (default now at_opt) _ _ _ Hin Hd) as [e' He'].
    exists e'. unfold JsonStorage.leaseNext, JsonStorage.withLock. rewrite Hl.
    run_m. unfold JsonStorage.readJobs. run_m. cbn [jobsFile dlqFile lockFile].
    rewrite He'. cbn. rewrite (json_store_unlock st Hl). reflexivity.
  - destruct (hydrateAll_throws _ _ _ Hin Hd) as [e' He'].
    exists e'. unfold JsonStorage.list_, JsonStorage.readJobs. run_m. cbn.
    rewrite He'. reflexivity.
Qed.

Lemma json_invalid_document_blocks_leasing_witness :
  let bad := mkJob "a" "" completed 0 3 5 5 None None (Some 2) None in
  let good := mkJob "b" "Y" pending 0 3 7 7 None None (Some 2) None in
  let st := mkJsonStore [toJSON good; toJSON bad] [] false in
  (exists e', JsonStorage.leaseNext (Some 10) 10 st = (Throw e', st)) /\
  (exists e', JsonStorage.list_ None st = (Throw e', st)).
Proof.
  intros bad good st.
  apply (json_invalid_document_blocks_leasing (Some 10) 10 st (toJSON bad)
           CommandRequired).
  - reflexivity.
  - apply list_elem_of_further, list_elem_of_here.
  - reflexivity.
Defined.

(** ** The worker loop over storage *)

Lemma leasedCopy_hydrates (now : Z) (d : JobJSON) (j : Job) :
  fromJSON d = Ok j ->
  exists jl, fromJSON (JsonStorage.leasedCopy now d) = Ok jl /\
             id jl = json_id d /\ state jl = processing /\ hydrated jl.
Proof.
  intros Hd. apply fromJSON_inv in Hd. destruct Hd as [Hv ->].
  eexists. split; [apply fromJSON_valid|].
  - apply validate_ok_iff in Hv. apply validate_ok_iff. exact Hv.
  - cbn. split; [reflexivity|]. split; [reflexivity|].
    split; [|cbn; eauto].
    apply validate_ok_iff in Hv. apply validate_ok_iff. exact Hv.
Qed.

Lemma jsonDue_inv (at_ : Z) (d : JobJSON) :
  jsonDue at_ d = true ->
  (exists j, fromJSON d = Ok j) /\ json_state d <> processing.
Proof.
  unfold jsonDue. destruct (fromJSON d) as [j|e] eqn:Ed; [|discriminate].
  intros Hdue. split; [eauto|].
  apply isDue_state in Hdue. apply fromJSON_inv in Ed. destruct Ed as [_ ->].
  cbn in Hdue. destruct Hdue as [-> | ->]; discriminate.
Qed.

Lemma dueCandidates_throw_inv (at_ : Z) (docs : list JobJSON) (e : Error) :
  JsonStorage.dueCandidates at_ docs = Throw e ->
  exists d e', d ∈ docs /\ fromJSON d = Throw e'.
Proof.
  induction docs as [|d docs IH]; cbn; [discriminate|].
  destruct (fromJSON d) as [j|ed] eqn:Ed.
  - cbn. destruct (JsonStorage.dueCandidates at_ docs) as [c|el]; [discriminate|].
    cbn. intros H. destruct (IH H) as (d' & e' & Hin & Hd').
    exists d', e'. split; [apply list_elem_of_further; exact Hin | exact Hd'].
  - intros _. exists d, ed. split; [apply list_elem_of_here | exact Ed].
Qed.

(** The three ways a [leaseNext] of the flat-file backend ends. *)
Lemma json_lease_shape (at_opt : option Z) (now : Z) (st : JsonStore) :
  lockFile st = false ->
  NoDup (jsonIds st) ->
  (exists e, JsonStorage.leaseNext at_opt now st = (Throw e, st) /\
             exists d e', d ∈ jobsFile st /\ fromJSON d = Throw e') \/
  JsonStorage.leaseNext at_opt now st = (Ok None, st) \/
  (exists idx doc job,
     jobsFile st !! idx = Some doc /\
     jsonDue (default now at_opt) doc = true /\
     fromJSON (JsonStorage.leasedCopy now doc) = Ok job /\
     JsonStorage.leaseNext at_opt now st =
     (Ok (Some job),
      mkJsonStore (<[idx := JsonStorage.leasedCopy now doc]> (jobsFile st))
        (dlqFile st) false)).
Proof.
  intros El Hnd. unfold JsonStorage.leaseNext, JsonStorage.withLock. rewrite El.
  run_m. unfold JsonStorage.readJobs, JsonStorage.writeJobs. run_m.
  cbn [jobsFile dlqFile lockFile].
  destruct (JsonStorage.dueCandidates (default now at_opt) (jobsFile st))
    as [cands|e] eqn:Ec.
  2:{ left. exists e. cbn. rewrite (json_store_unlock st El).
      split; [reflexivity | exact (dueCandidates_throw_inv _ _ _ Ec)]. }
  pose proof (dueCandidates_filter _ _ _ Ec) as Hc.
  destruct (stable_sort JsonStorage.compareCandidates cands) as [|sel rest] eqn:Es.
  { right. left. cbn. rewrite (json_store_unlock st El). reflexivity. }
  right. right.
  assert (Hsel : sel ∈ cands).
  { apply (elem_of_stable_sort JsonStorage.compareCandidates). rewrite Es.
    apply list_elem_of_here. }
  rewrite Hc in Hsel. apply elem_of_List_filter in Hsel. destruct Hsel as [Hin Hdue].
  apply list_elem_of_lookup in Hin. destruct Hin as [idx Hidx].
  rewrite (findIndex_NoDup _ _ _ Hnd Hidx), Hidx.
  cbn [jobsFile dlqFile lockFile].
  destruct (jsonDue_inv _ _ Hdue) as [[j Hj] _].
  destruct (leasedCopy_hydrates now sel j Hj) as (jl & Hjl & _).
  rewrite Hjl. cbn. exists idx, sel, jl. auto.
Qed.

Lemma filter_insert_neither {A} (f : A -> bool) (l : list A) (i : nat) (x y : A) :
  l !! i = Some x -> f x = false -> f y = false ->
  List.filter f (<[i := y]> l) = List.filter f l.
Proof.
  revert i. induction l as [|z l IH]; intros i Hx Hfx Hfy; [discriminate|].
  destruct i as [|i]; cbn in Hx.
  - inversion Hx; subst z. cbn. rewrite Hfx, Hfy. reflexivity.
  - change (<[S i := y]> (z :: l)) with (z :: <[i := y]> l).
    cbn [List.filter]. rewrite (IH i Hx Hfx Hfy). reflexivity.
Qed.

Lemma filter_delete_not {A} (f : A -> bool) (l : list A) (i : nat) (x : A) :
  l !! i = Some x -> f x = false ->
  List.filter f (delete i l) = List.filter f l.
Proof.
  revert i. induction l as [|z l IH]; intros i Hx Hfx; [discriminate|].
  destruct i as [|i]; cbn in Hx.
  - inversion Hx; subst z. cbn. rewrite Hfx. reflexivity.
  - change (delete (S i) (z :: l)) with (z :: delete i l).
    cbn [List.filter]. rewrite (IH i Hx Hfx). reflexivity.
Qed.

Lemma json_update_at (job : Job) (l dlq : list JobJSON) (idx : nat) (d : JobJSON) :
  NoDup (json_id <$> l) -> l !! idx = Some d -> json_id d = id job ->
  JsonStorage.update job (mkJsonStore l dlq false) =
  (Ok tt, mkJsonStore (<[idx := toJSON job]> l) dlq false).
Proof.
  intros Hnd Hd Hid. unfold JsonStorage.update, JsonStorage.withLock. cbn [lockFile].
  run_m. unfold JsonStorage.readJobs, JsonStorage.writeJobs. run_m.
  cbn [jobsFile dlqFile lockFile]. rewrite <- Hid.
  rewrite (findIndex_NoDup _ _ _ Hnd Hd). reflexivity.
Qed.

Lemma json_moveToDLQ_at (job : Job) (l dlq : list JobJSON) (idx : nat) (d : JobJSON) :
  NoDup (json_id <$> l) -> l !! idx = Some d -> json_id d = id job ->
  JsonStorage.moveToDLQ job (mkJsonStore l dlq false) =
  (Ok tt, mkJsonStore (delete idx l) (dlq ++ [toJSON job]) false).
Proof.
  intros Hnd Hd Hid. rewrite json_moveToDLQ_eq. cbn [jobsFile dlqFile lockFile].
  rewrite <- Hid, (findIndex_NoDup _ _ _ Hnd Hd). reflexivity.
Qed.

Lemma list_delete_insert_same {A} (l : list A) (i : nat) (x : A) :
  delete i (<[i := x]> l) = delete i l.
Proof.
  revert i. induction l as [|y l IH]; intros i; [reflexivity|].
  destruct i as [|i]; cbn; [reflexivity|]. f_equal. apply IH.
Qed.

Lemma filter_insert_gain {A} (f : A -> bool) (l : list A) (i : nat) (x y : A) :
  l !! i = Some x -> f x = false -> f y = true ->
  exists pre post,
    List.filter f l = pre ++ post /\ List.filter f (<[i := y]> l) = pre ++ y :: post.
Proof.
  revert i. induction l as [|z l IH]; intros i Hx Hfx Hfy; [discriminate|].
  destruct i as [|i]; cbn in Hx.
  - inversion Hx; subst z. cbn. rewrite Hfx, Hfy.
    exists [], (List.filter f l). auto.
  - change (<[S i := y]> (z :: l)) with (z :: <[i := y]> l).
    cbn [List.filter]. destruct (IH i Hx Hfx Hfy) as (pre & post & E1 & E2).
    rewrite E1, E2. destruct (f z).
    + exists (z :: pre), post. auto.
    + exists pre, post. auto.
Qed.

(** What a turn does to a document it leased, on the flat-file backend:
    it settles the job, or [markFailed] throws past the range of [Date]
    and nothing more is written. *)
Lemma json_settle_leased (tk : Tick) (l dlq : list JobJSON) (idx : nat)
    (doc : JobJSON) (job : Job) :
  NoDup (json_id <$> l) ->
  l !! idx = Some doc ->
  fromJSON (JsonStorage.leasedCopy (tk_lease tk) doc) = Ok job ->
  let st1 := mkJsonStore (<[idx := JsonStorage.leasedCopy (tk_lease tk) doc]> l) dlq false in
  (exists job',
     id job' = json_id doc /\ state job' <> processing /\
     match tk_outcome tk with
     | None => markCompleted (tk_completed tk) job = Ok job'
     | Some thrown => markFailed (tk_failed tk) thrown job = (Ok tt, job')
     end /\
     WorkerStart.settle job tk st1 =
     (Ok tt,
      if bool_decide (state job' = dead)
      then mkJsonStore (delete idx l) (dlq ++ [toJSON job']) false
      else mkJsonStore (<[idx := toJSON job']> l) dlq false)) \/
  (exists thrown,
     tk_outcome tk = Some thrown /\
     markFailed (tk_failed tk) thrown job =
       (Throw InvalidTimeValue, failedHalfway (tk_failed tk) thrown job) /\
     WorkerStart.settle job tk st1 = (Throw InvalidTimeValue, st1)).
Proof.
  intros Hnd Hidx Hjob st1.
  destruct (leasedCopy_hydrated _ _ _ Hjob) as [Hid Hst].
  set (l1 := <[idx := JsonStorage.leasedCopy (tk_lease tk) doc]> l).
  assert (Hnd1 : NoDup (json_id <$> l1)).
  { unfold l1. rewrite (ids_insert_same _ _ doc); auto. }
  assert (Hl1 : l1 !! idx = Some (JsonStorage.leasedCopy (tk_lease tk) doc)).
  { unfold l1. apply list_lookup_insert_eq. eapply lookup_lt_Some; eauto. }
  unfold WorkerStart.settle, st1. fold l1.
  destruct (tk_outcome tk) as [thrown|].
  - cbn [caughtValue].
    destruct (markFailed_ok (tk_failed tk) thrown job Hst) as [[job2 Ef] | Ef];
      rewrite Ef.
    + left.
      pose proof Ef as Hinv. apply markFailed_inv in Hinv.
      destruct Hinv as (_ & _ & Hid2 & _ & _ & _ & _ & Hcase).
      exists job2. split; [congruence|]. split.
      { destruct Hcase as [(_ & Hd & _) | (_ & Hf & _)]; congruence. }
      split; [reflexivity|].
      cbn [storage_moveToDLQ storage_update JsonStorage_IStorage].
      case_bool_decide.
      * rewrite (json_moveToDLQ_at job2 l1 dlq idx _ Hnd1 Hl1) by (cbn; congruence).
        unfold l1. rewrite list_delete_insert_same. reflexivity.
      * rewrite (json_update_at job2 l1 dlq idx _ Hnd1 Hl1) by (cbn; congruence).
        unfold l1. rewrite list_insert_insert_eq. reflexivity.
    + right. exists thrown. auto.
  - left. destruct (markCompleted (tk_completed tk) job) as [job2|e] eqn:Ec.
    2:{ unfold markCompleted in Ec. rewrite Hst in Ec. discriminate. }
    pose proof Ec as Hinv. apply markCompleted_inv in Hinv.
    destruct Hinv as (_ & Hc & _ & _ & Hid2 & _).
    exists job2. split; [congruence|]. split; [congruence|].
    split; [reflexivity|].
    cbn [storage_moveToDLQ storage_update JsonStorage_IStorage].
    rewrite (json_update_at job2 l1 dlq idx _ Hnd1 Hl1) by (cbn; congruence).
    rewrite bool_decide_eq_false_2 by congruence.
    unfold l1. rewrite list_insert_insert_eq. reflexivity.
Qed.

(** The store once a leased document is settled. *)
Lemma json_settled_store (l dlq : list JobJSON) (idx : nat) (doc : JobJSON)
    (job' : Job) :
  NoDup (json_id <$> l) ->
  l !! idx = Some doc ->
  json_state doc <> processing ->
  id job' = json_id doc ->
  state job' <> processing ->
  let st' := if bool_decide (state job' = dead)
             then mkJsonStore (delete idx l) (dlq ++ [toJSON job']) false
             else mkJsonStore (<[idx := toJSON job']> l) dlq false in
  processingDocs (jobsFile st') = processingDocs l /\
  NoDup (jsonIds st') /\ lockFile st' = false.
Proof.
  intros Hnd Hidx Hdoc Hid Hnp. unfold processingDocs, jsonIds.
  case_bool_decide as Hdead; cbn [jobsFile dlqFile lockFile].
  - split; [apply (filter_delete_not _ _ _ doc Hidx), bool_decide_eq_false, Hdoc|].
    split; [apply NoDup_ids_delete; exact Hnd | reflexivity].
  - split.
    { apply (filter_insert_neither _ _ _ doc _ Hidx);
        apply bool_decide_eq_false; [exact Hdoc | exact Hnp]. }
    split; [|reflexivity].
    rewrite (ids_insert_same _ _ doc); [exact Hnd | exact Hidx | exact Hid].
Qed.

(** The store when the lease is all that was written. *)
Lemma json_leased_store (t : Z) (l dlq : list JobJSON) (idx : nat) (doc : JobJSON) :
  NoDup (json_id <$> l) ->
  l !! idx = Some doc ->
  json_state doc <> processing ->
  let st := mkJsonStore l dlq false in
  let st1 := mkJsonStore (<[idx := JsonStorage.leasedCopy t doc]> l) dlq false in
  oneMoreProcessing st st1 /\ NoDup (jsonIds st1) /\ lockFile st1 = false.
Proof.
  intros Hnd Hidx Hdoc st st1. subst st st1. split; [|split; [|reflexivity]].
  - destruct (filter_insert_gain
                (fun d => bool_decide (json_state d = processing)) l idx doc
                (JsonStorage.leasedCopy t doc) Hidx) as (pre & post & E1 & E2).
    { apply bool_decide_eq_false. exact Hdoc. }
    { reflexivity. }
    exists pre, post, (JsonStorage.leasedCopy t doc).
    split; [reflexivity|]. split; [|auto].
    cbn [jobsFile]. apply list_elem_of_lookup. exists idx.
    apply list_lookup_insert_eq. eapply lookup_lt_Some; eauto.
  - unfold jsonIds. cbn [jobsFile].
    rewrite (ids_insert_same _ _ doc); [exact Hnd | exact Hidx | reflexivity].
Qed.

(** X25.  A turn of the [worker start] loop on the flat-file backend,
    with the lock free and unique ids.  The turn throws what
    [leaseNext] throws, and then nothing is written.  A leased job whose
    command ran is completed and persisted.  A leased job whose command
    failed goes through [markFailed]: when that returns, the job is
    persisted, in the jobs collection under its id or, dead, at the end
    of the DLQ with no document of its id left in the jobs collection,
    and the documents in [processing] are those from before the turn;
    when it throws, for a retry time outside the range of [Date], the
    turn throws the same error and the store stays as [leaseNext] left it,
    the job's document in [processing].  In every case the ids stay unique
    and the lock is free again. *)
Theorem worker_start_turn_settles_its_lease :
  forall (tk : Tick) (st : JsonStore),
    lockFile st = false ->
    NoDup (jsonIds st) ->
    exists r st',
      WorkerStart.turn tk st = (r, st') /\
      NoDup (jsonIds st') /\
      lockFile st' = false /\
      match JsonStorage.leaseNext (Some (tk_lease tk)) (tk_lease tk) st with
      | (Throw e, _) => r = Throw e /\ st' = st
      | (Ok None, _) => r = Ok tt /\ st' = st
      | (Ok (Some job), st1) =>
          match tk_outcome tk with
          | None =>
              exists job', markCompleted (tk_completed tk) job = Ok job' /\
                           r = Ok tt /\ settledIn st st' job'
          | Some thrown =>
              match markFailed (tk_failed tk) thrown job with
              | (Ok _, job') => r = Ok tt /\ settledIn st st' job'
              | (Throw e, _) =>
                  e = InvalidTimeValue /\ r = Throw e /\ st' = st1 /\
                  oneMoreProcessing st st'
              end
          end
      end.
Proof.
  intros tk st Hl Hnd. unfold WorkerStart.turn.
  cbn [storage_leaseNext JsonStorage_IStorage]. run_m.
  destruct (json_lease_shape (Some (tk_lease tk)) (tk_lease tk) st Hl Hnd)
    as [[e [He _]] | [Hn | (idx & doc & job & Hidx & Hdue & Hjob & Hlease)]].
  - rewrite He. eexists _, _. split; [reflexivity|]. auto 10.
  - rewrite Hn. eexists _, _. split; [reflexivity|]. auto 10.
  - rewrite Hlease.
    destruct (jsonDue_inv _ _ Hdue) as [_ Hdoc].
    destruct (json_settle_leased tk (jobsFile st) (dlqFile st) idx doc job
                Hnd Hidx Hjob)
      as [(job' & Hid & Hnp & Hmark & Hsettle) | (thrown & Hout & Hmark & Hsettle)].
    + rewrite Hsettle. eexists _, _. split; [reflexivity|].
      destruct (json_settled_store (jobsFile st) (dlqFile st) idx doc job'
                  Hnd Hidx Hdoc Hid Hnp) as (Hp & Hnd' & Hl').
      split; [exact Hnd'|]. split; [exact Hl'|].
      assert (Hset : settledIn st
                (if bool_decide (state job' = dead)
                 then mkJsonStore (delete idx (jobsFile st))
                        (dlqFile st ++ [toJSON job']) false
                 else mkJsonStore (<[idx := toJSON job']> (jobsFile st))
                        (dlqFile st) false) job').
      { split; [exact Hp|].
        case_bool_decide as Hdead; cbn [jobsFile dlqFile]; (split; [reflexivity|]).
        - unfold jsonIds. cbn [jobsFile]. rewrite Hid. apply existsb_has_id_false.
          apply existsb_delete_found; [exact Hnd|].
          apply findIndex_NoDup; assumption.
        - apply list_elem_of_lookup. exists idx.
          apply list_lookup_insert_eq. eapply lookup_lt_Some; eauto. }
      destruct (tk_outcome tk) as [thrown|].
      * rewrite Hmark. auto.
      * exists job'. auto.
    + rewrite Hsettle. eexists _, _. split; [reflexivity|].
      destruct (json_leased_store (tk_lease tk) (jobsFile st) (dlqFile st) idx doc
                  Hnd Hidx Hdoc) as (Hmore & Hnd' & Hl').
      rewrite (json_store_unlock st Hl) in Hmore.
      split; [exact Hnd'|]. split; [exact Hl'|].
      rewrite Hout, Hmark. auto.
Qed.

Lemma worker_start_turn_settles_its_lease_witness :
  let job := mkJob "a" "X" pending 0 0 0 0 None None (Some 2) None in
  let other := mkJob "b" "Y" processing 0 3 0 7 None None (Some 2) None in
  let st := mkJsonStore [toJSON other; toJSON job] [] false in
  let tk := mkTick 3000 (Some (StringValue "e")) 3005 3010 3011 in
  exists r st',
    WorkerStart.turn tk st = (r, st') /\
    NoDup (jsonIds st') /\
    lockFile st' = false /\
    match JsonStorage.leaseNext (Some (tk_lease tk)) (tk_lease tk) st with
    | (Throw e, _) => r = Throw e /\ st' = st
    | (Ok None, _) => r = Ok tt /\ st' = st
    | (Ok (Some job), st1) =>
        match tk_outcome tk with
        | None =>
            exists job', markCompleted (tk_completed tk) job = Ok job' /\
                         r = Ok tt /\ settledIn st st' job'
        | Some thrown =>
            match markFailed (tk_failed tk) thrown job with
            | (Ok _, job') => r = Ok tt /\ settledIn st st' job'
            | (Throw e, _) =>
                e = InvalidTimeValue /\ r = Throw e /\ st' = st1 /\
                oneMoreProcessing st st'
            end
        end
    end.
Proof.
  intros job other st tk.
  apply (worker_start_turn_settles_its_lease tk st).
  - reflexivity.
  - vm_compute. apply NoDup_cons. split.
    + intros H. apply list_elem_of_singleton in H. discriminate.
    + apply NoDup_singleton.
Defined.

(** A job with a backoff base of 10^13 seconds, leased and failed: the
    turn throws and the document stays [processing]. *)
Example worker_start_turn_throws_past_date_range :
  let job := mkJob "a" "X" pending 0 3 0 0 None None (Some (10 ^ 13)) None in
  let st := mkJsonStore [toJSON job] [] false in
  let tk := mkTick 3000 (Some (StringValue "e")) 3005 3010 3011 in
  WorkerStart.turn tk st =
  (Throw InvalidTimeValue,
   mkJsonStore [toJSON (mkJob "a" "X" processing 0 3 0 3000 None None
                          (Some (10 ^ 13)) None)] [] false).
Proof. vm_compute. reflexivity. Qed.

Lemma json_turn_cases (tk : Tick) (st : JsonStore) :
  lockFile st = false ->
  NoDup (jsonIds st) ->
  (exists e, WorkerStart.turn tk st = (Throw e, st) /\
             exists d e', d ∈ jobsFile st /\ fromJSON d = Throw e') \/
  (exists st',
     WorkerStart.turn tk st = (Ok tt, st') /\
     processingDocs (jobsFile st') = processingDocs (jobsFile st) /\
     NoDup (jsonIds st') /\ lockFile st' = false) \/
  (exists st',
     WorkerStart.turn tk st = (Throw InvalidTimeValue, st') /\
     oneMoreProcessing st st' /\
     NoDup (jsonIds st') /\ lockFile st' = false).
Proof.
  intros Hl Hnd. unfold WorkerStart.turn.
  cbn [storage_leaseNext JsonStorage_IStorage]. run_m.
  destruct (json_lease_shape (Some (tk_lease tk)) (tk_lease tk) st Hl Hnd)
    as [[e [He Hbad]] | [Hn | (idx & doc & job & Hidx & Hdue & Hjob & Hlease)]].
  - rewrite He. left. exists e. auto.
  - rewrite Hn. right. left. exists st. auto.
  - rewrite Hlease.
    destruct (jsonDue_inv _ _ Hdue) as [_ Hdoc].
    destruct (json_settle_leased tk (jobsFile st) (dlqFile st) idx doc job
                Hnd Hidx Hjob)
      as [(job' & Hid & Hnp & _ & Hsettle) | (thrown & _ & _ & Hsettle)].
    + rewrite Hsettle. right. left. eexists. split; [reflexivity|].
      exact (json_settled_store (jobsFile st) (dlqFile st) idx doc job'
               Hnd Hidx Hdoc Hid Hnp).
    + rewrite Hsettle. right. right. eexists. split; [reflexivity|].
      pose proof (json_leased_store (tk_lease tk) (jobsFile st) (dlqFile st) idx doc
                    Hnd Hidx Hdoc) as H.
      rewrite (json_store_unlock st Hl) in H. exact H.
Qed.

(** X26.  The [worker start] loop on the flat-file backend, over any
    number of turns and whatever the executor does, with the lock free
    and unique ids at the start.  When the loop returns, the documents in
    [processing] are those it began with: it left no job it leased
    unsettled.  It throws in two cases only: a stored document does not
    validate, and then too the documents in [processing] are those it
    began with; or [markFailed] threw for a retry time outside the range
    of [Date], and then one more document is in [processing], that of
    the job whose failure was not recorded.  The ids stay unique and the
    lock is free at the end. *)
Theorem worker_start_loop_settles_or_throws :
  forall (ticks : list Tick) (st : JsonStore),
    lockFile st = false ->
    NoDup (jsonIds st) ->
    exists r st',
      WorkerStart.loop ticks st = (r, st') /\
      NoDup (jsonIds st') /\
      lockFile st' = false /\
      match r with
      | Ok _ => processingDocs (jobsFile st') = processingDocs (jobsFile st)
      | Throw e =>
          (processingDocs (jobsFile st') = processingDocs (jobsFile st) /\
           exists d e', d ∈ jobsFile st' /\ fromJSON d = Throw e') \/
          (e = InvalidTimeValue /\ oneMoreProcessing st st')
      end.
Proof.
  induction ticks as [|tk rest IH]; intros st Hl Hnd.
  - exists (Ok tt), st. cbn. auto.
  - cbn [WorkerStart.loop]. run_m.
    destruct (json_turn_cases tk st Hl Hnd)
      as [(e & Hturn & Hbad) | [(st1 & Hturn & Hp & Hnd1 & Hl1)
                               | (st1 & Hturn & Hmore & Hnd1 & Hl1)]];
      rewrite Hturn.
    + exists (Throw e), st. auto 10.
    + destruct (IH st1 Hl1 Hnd1) as (r' & st' & Hloop & Hnd' & Hl' & Hr).
      exists r', st'. split; [exact Hloop|]. split; [exact Hnd'|]. split; [exact Hl'|].
      destruct r' as [[]|e].
      * congruence.
      * destruct Hr as [[Hp' Hbad] | [He Hmore]].
        -- left. split; [congruence | exact Hbad].
        -- right. split; [exact He|].
           destruct Hmore as (pre & post & doc & H1 & H2 & H3 & H4).
           exists pre, post, doc. rewrite <- Hp. auto.
    + exists (Throw InvalidTimeValue), st1. auto 10.
Qed.

Lemma worker_start_loop_settles_or_throws_witness :
  let job := mkJob "a" "X" pending 0 1 0 0 None None (Some 2) None in
  let other := mkJob "b" "Y" processing 0 3 0 7 None None (Some 2) None in
  let st := mkJsonStore [toJSON other; toJSON job] [] false in
  let ticks := [mkTick 3000 (Some (StringValue "e")) 3005 3010 3011;
                mkTick 9000 None 9005 9010 9011] in
  exists r st',
    WorkerStart.loop ticks st = (r, st') /\
    NoDup (jsonIds st') /\
    lockFile st' = false /\
    match r with
    | Ok _ => processingDocs (jobsFile st') = processingDocs (jobsFile st)
    | Throw e =>
        (processingDocs (jobsFile st') = processingDocs (jobsFile st) /\
         exists d e', d ∈ jobsFile st' /\ fromJSON d = Throw e') \/
        (e = InvalidTimeValue /\ oneMoreProcessing st st')
    end.
Proof.
  intros job other st ticks.
  apply (worker_start_loop_settles_or_throws ticks st).
  - reflexivity.
  - vm_compute. apply NoDup_cons. split.
    + intros H. apply list_elem_of_singleton in H. discriminate.
    + apply NoDup_singleton.
Defined.

Lemma existsb_dlq_has_id_true (i : string) (l : list DlqRow) :
  i ∈ dlq_id <$> l -> existsb (SqliteStorage.dlq_has_id i) l = true.
Proof.
  intros H. destruct (existsb (SqliteStorage.dlq_has_id i) l) eqn:E; [reflexivity|].
  apply existsb_dlq_has_id_false in E. contradiction.
Qed.

(** What a [leaseNext] of the SQLite backend that returns a job has
    written. *)
Lemma sqlite_lease_shape tie (at_opt : option Z) (now : Z) (db db1 : Db) (job : Job) :
  NoDup (jobIds db) ->
  SqliteStorage.leaseNext tie at_opt now db = (Ok (Some job), db1) ->
  exists idx row,
    jobsTable db !! idx = Some row /\
    fromJSON (JsonStorage.leasedCopy (default now at_opt) row) = Ok job /\
    db1 = mkDb (<[idx := JsonStorage.leasedCopy (default now at_opt) row]> (jobsTable db))
            (dlqTable db).
Proof.
  intros Hnd Hlease.
  destruct (sqlite_leaseNext_eq tie at_opt now db Hnd)
    as [[Hrun _] | (idx & r & Hidx & _ & Hrun)]; rewrite Hrun in Hlease.
  - discriminate.
  - destruct (fromJSON _) as [j|e] eqn:Ej; [|discriminate].
    inversion Hlease; subst. eauto.
Qed.

(** X27.  The same loop on the SQLite backend can strand a job.  When a
    leased job fails for the last time while the DLQ already holds an
    entry with its id, [moveToDLQ] violates the primary key of [dlq]: the
    turn throws, nothing of the failure is stored, and the job's row is
    left [processing], the only row of that id, which no [leaseNext]
    selects at any query time. *)
Theorem sqlite_worker_start_strands_job_on_dlq_collision :
  forall (tie : list JobsRow -> nat) (tk : Tick) (db db1 : Db) (job job' : Job)
         (thrown : Thrown),
    NoDup (jobIds db) ->
    SqliteStorage.leaseNext tie (Some (tk_lease tk)) (tk_lease tk) db
      = (Ok (Some job), db1) ->
    tk_outcome tk = Some thrown ->
    markFailed (tk_failed tk) thrown job = (Ok tt, job') ->
    state job' = dead ->
    id job ∈ dlqIds db ->
    @WorkerStart.turn _ (SqliteStorage_IStorage tie) tk db =
      (Throw (SqliteConstraintPrimaryKey "dlq" (id job)), db1) /\
    dlqTable db1 = dlqTable db /\
    exists row,
      row ∈ jobsTable db1 /\ json_id row = id job /\
      json_state row = processing /\
      (forall d, d ∈ jobsTable db1 -> json_id d = id job -> d = row) /\
      forall t, SqliteStorage.dueRow t row = false.
Proof.
  intros tie tk db db1 job job' thrown Hnd Hlease Hout Hfail Hdead Hin.
  destruct (sqlite_lease_shape _ _ _ _ _ _ Hnd Hlease) as (idx & row & Hidx & Hjob & ->).
  change (default (tk_lease tk) (Some (tk_lease tk))) with (tk_lease tk) in *.
  destruct (leasedCopy_hydrated _ _ _ Hjob) as [Hid _].
  pose proof Hfail as Hinv. apply markFailed_inv in Hinv.
  destruct Hinv as (_ & _ & Hid' & _).
  set (l1 := <[idx := JsonStorage.leasedCopy (tk_lease tk) row]> (jobsTable db)).
  assert (Hl1 : l1 !! idx = Some (JsonStorage.leasedCopy (tk_lease tk) row)).
  { unfold l1. apply list_lookup_insert_eq. eapply lookup_lt_Some; eauto. }
  assert (Hnd1 : NoDup (json_id <$> l1)).
  { unfold l1. rewrite (ids_insert_same _ _ row); auto. }
  split; [|split; [reflexivity|]].
  - unfold WorkerStart.turn. cbn [storage_leaseNext SqliteStorage_IStorage]. run_m.
    rewrite Hlease. unfold WorkerStart.settle. rewrite Hout. cbn [caughtValue].
    rewrite Hfail, bool_decide_eq_true_2 by exact Hdead.
    cbn [storage_moveToDLQ SqliteStorage_IStorage].
    rewrite sqlite_moveToDLQ_eq. cbn [dlqTable].
    rewrite Hid', existsb_dlq_has_id_true by exact Hin. reflexivity.
  - exists (JsonStorage.leasedCopy (tk_lease tk) row). cbn [jobsTable]. fold l1.
    split; [apply list_elem_of_lookup; eauto|]. split; [cbn; congruence|].
    split; [reflexivity|]. split; [|reflexivity].
    intros d Hd Hdid. apply list_elem_of_lookup in Hd. destruct Hd as [k Hk].
    assert (k = idx).
    { apply (NoDup_ids_lookup l1 k idx d _ Hnd1 Hk Hl1). cbn. congruence. }
    subst k.
    assert (E : Some d = Some (JsonStorage.leasedCopy (tk_lease tk) row))
      by (rewrite <- Hk; exact Hl1).
    inversion E. reflexivity.
Qed.

Lemma sqlite_worker_start_strands_job_on_dlq_collision_witness :
  let old := mkJob "a" "X" dead 1 0 0 20 None None (Some 2) (Some "e0") in
  let job := mkJob "a" "X" processing 0 0 100 3000 None None (Some 2) None in
  let job' := mkJob "a" "X" dead 1 0 100 3010 None None (Some 2) (Some "e") in
  let db := mkDb [toJSON (mkJob "a" "X" pending 0 0 100 100 None None (Some 2) None)]
              [mkDlqRow "a" (toJSON old) 30] in
  let db1 := mkDb [toJSON job] [mkDlqRow "a" (toJSON old) 30] in
  let tk := mkTick 3000 (Some (StringValue "e")) 3005 3010 3011 in
  @WorkerStart.turn _ (SqliteStorage_IStorage SqliteStorage.tieFirst) tk db =
    (Throw (SqliteConstraintPrimaryKey "dlq" (id job)), db1) /\
  dlqTable db1 = dlqTable db /\
  exists row,
    row ∈ jobsTable db1 /\ json_id row = id job /\
    json_state row = processing /\
    (forall d, d ∈ jobsTable db1 -> json_id d = id job -> d = row) /\
    forall t, SqliteStorage.dueRow t row = false.
Proof.
  intros old job job' db db1 tk.
  apply (sqlite_worker_start_strands_job_on_dlq_collision SqliteStorage.tieFirst
           tk db db1 job job' (StringValue "e")).
  - vm_compute. apply NoDup_singleton.
  - reflexivity.
  - reflexivity.
  - reflexivity.
  - reflexivity.
  - vm_compute. apply list_elem_of_here.
Defined.

(** ** Lease calls one after another *)



Section SerialLeases.

(** A backend that keeps its jobs as a list of documents with unique
    ids, and whose [leaseNext], on a store in good order, either finds
    nothing due and leaves the store as it is, or returns the job of one
    due document and rewrites that document alone, to one that is not
    due. *)
Context {St : Type} `{IStorage St}.
Variable docs : St -> list JobJSON.
Variable due : JobJSON -> bool.
Variable ok : St -> Prop.
Variable at_ : Z.

Hypothesis ok_nodup : forall st, ok st -> NoDup (json_id <$> docs st).

Hypothesis lease_step : forall now st, ok st ->
  (List.filter due (docs st) = [] /\
   storage_leaseNext (Some at_) now st = (Ok None, st)) \/
  (exists idx doc job st1 doc',
     docs st !! idx = Some doc /\ due doc = true /\
     id job = json_id doc /\ state job = processing /\
     storage_leaseNext (Some at_) now st = (Ok (Some job), st1) /\
     ok st1 /\
     docs st1 = <[idx := doc']> (docs st) /\ due doc' = false).


End SerialLeases.





(** ** DLQManager *)

Lemma move_is_filter (i : string) (l : list JobJSON) :
  NoDup (json_id <$> l) ->
  match findIndex (JsonStorage.has_id i) l with
  | Some idx => delete idx l
  | None => l
  end = List.filter (fun d => negb (JsonStorage.has_id i d)) l.
Proof.
  induction l as [|d l IH]; intros Hnd; [reflexivity|].
  cbn in Hnd. apply NoDup_cons in Hnd. destruct Hnd as [Hd Hnd].
  cbn. destruct (JsonStorage.has_id i d) eqn:Ed; cbn.
  - unfold JsonStorage.has_id in Ed. apply bool_decide_eq_true in Ed. subst i.
    pose proof (existsb_has_id_fresh _ _ Hd) as Hex.
    clear IH Hnd Hd. induction l as [|x l IH]; [reflexivity|].
    cbn in Hex. apply orb_false_iff in Hex. destruct Hex as [Hx Hl].
    cbn. rewrite Hx. cbn. f_equal. exact (IH Hl).
  - specialize (IH Hnd). destruct (findIndex _ l) as [k|]; cbn; f_equal; exact IH.
Qed.

Lemma filter_filter_and {A} (f g : A -> bool) (l : list A) :
  List.filter g (List.filter f l) = List.filter (fun x => f x && g x) l.
Proof.
  induction l as [|x l IH]; [reflexivity|]. cbn.
  destruct (f x); cbn; [destruct (g x)|]; rewrite IH; reflexivity.
Qed.

Lemma sweepLoop_json (clock : nat -> Z) (js : list Job) :
  forall (l dlq : list JobJSON) (moved : nat),
    NoDup (json_id <$> l) ->
    DLQManager.sweepLoop clock js moved (mkJsonStore l dlq false) =
    (Ok (moved + length js)%nat,
     mkJsonStore
       (List.filter (fun d => negb (bool_decide (json_id d ∈ id <$> js))) l)
       (dlq ++ (toJSON <$> js)) false).
Proof.
  induction js as [|j js IH]; intros l dlq moved Hnd.
  - cbn. rewrite Nat.add_0_r, app_nil_r. f_equal. f_equal.
    symmetry. clear. induction l as [|d l IHl]; [reflexivity|].
    cbn. rewrite bool_decide_eq_false_2 by apply not_elem_of_nil.
    cbn. f_equal. exact IHl.
  - cbn [DLQManager.sweepLoop]. run_m.
    cbn [storage_moveToDLQ JsonStorage_IStorage].
    rewrite json_moveToDLQ_eq. cbn [jobsFile dlqFile lockFile].
    rewrite (move_is_filter _ _ Hnd).
    rewrite IH.
    2:{ eapply sublist_NoDup; [exact Hnd|]. apply fmap_sublist, sublist_List_filter. }
    rewrite filter_filter_and. cbn [length fmap list_fmap].
    rewrite <- app_assoc. cbn [app]. f_equal; [f_equal; lia|]. f_equal.
    apply List.filter_ext. intros d. unfold JsonStorage.has_id.
    change (list_fmap Job string id js) with (id <$> js).
    destruct (decide (json_id d = id j)) as [E|E].
    + rewrite (bool_decide_eq_true_2 _ E). cbn.
      rewrite bool_decide_eq_true_2; [reflexivity|]. rewrite E. apply list_elem_of_here.
    + rewrite (bool_decide_eq_false_2 _ E). cbn. f_equal.
      apply bool_decide_ext. rewrite elem_of_cons. tauto.
Qed.

Lemma hydrateAll_ids (docs : list JobJSON) (js : list Job) :
  JsonStorage.hydrateAll docs = Ok js -> id <$> js = json_id <$> docs.
Proof.
  revert js. induction docs as [|d docs IH]; cbn; intros js H.
  - inversion H. reflexivity.
  - destruct (fromJSON d) as [j|e] eqn:Ed; [|discriminate]. cbn in H.
    destruct (JsonStorage.hydrateAll docs) as [rest|e]; [|discriminate].
    cbn in H. inversion H; subst. cbn. rewrite (IH rest eq_refl).
    apply fromJSON_inv in Ed. destruct Ed as [_ ->]. reflexivity.
Qed.

(** X28.  [sweepDeadToDLQ] on the flat-file backend, with the lock free
    and unique ids, when the dead documents hydrate: it returns their
    number; afterwards the jobs collection holds exactly the documents
    that were not dead, in their order, and the DLQ has gained the dead
    jobs at its end, in the order of the collection.  A second sweep right
    after moves nothing. *)
Theorem sweep_moves_every_dead_job :
  forall (clock : nat -> Z) (st : JsonStore) (deadJobs : list Job),
    lockFile st = false ->
    NoDup (jsonIds st) ->
    JsonStorage.list_ (Some dead) st = (Ok deadJobs, st) ->
    exists st',
      DLQManager.sweepDeadToDLQ clock st = (Ok (length deadJobs), st') /\
      jobsFile st' =
        List.filter (fun d => negb (bool_decide (json_state d = dead))) (jobsFile st) /\
      dlqFile st' = dlqFile st ++ (toJSON <$> deadJobs) /\
      lockFile st' = false /\
      DLQManager.sweepDeadToDLQ clock st' = (Ok 0%nat, st').
Proof.
  intros clock st deadJobs Hl Hnd Hlist.
  assert (Hhyd : JsonStorage.hydrateAll
            (List.filter (fun j => bool_decide (json_state j = dead)) (jobsFile st))
          = Ok deadJobs).
  { unfold JsonStorage.list_, JsonStorage.readJobs in Hlist. run_m_in Hlist.
    cbn in Hlist. inversion Hlist. reflexivity. }
  pose proof (hydrateAll_ids _ _ Hhyd) as Hids.
  assert (Hfilter :
    List.filter (fun d => negb (bool_decide (json_id d ∈ id <$> deadJobs))) (jobsFile st) =
    List.filter (fun d => negb (bool_decide (json_state d = dead))) (jobsFile st)).
  { apply List.filter_ext_in. intros d Hd. f_equal. apply bool_decide_ext.
    rewrite Hids. apply list_elem_of_In in Hd. split.
    - intros Hin. apply list_elem_of_fmap in Hin. destruct Hin as (d' & Hid & Hd').
      apply elem_of_List_filter in Hd'. destruct Hd' as [Hd' Hdead].
      apply bool_decide_eq_true in Hdead.
      apply list_elem_of_lookup in Hd. destruct Hd as [k Hk].
      apply list_elem_of_lookup in Hd'. destruct Hd' as [k' Hk'].
      assert (k = k') by (apply (NoDup_ids_lookup _ k k' d d' Hnd Hk Hk' Hid)).
      subst k'. congruence.
    - intros Hdead. apply list_elem_of_fmap. exists d. split; [reflexivity|].
      apply elem_of_List_filter. split; [exact Hd|].
      apply bool_decide_eq_true. exact Hdead. }
  assert (Hrun : forall s, s = st ->
    DLQManager.sweepDeadToDLQ clock s =
    (Ok (length deadJobs),
     mkJsonStore
       (List.filter (fun d => negb (bool_decide (json_state d = dead))) (jobsFile st))
       (dlqFile st ++ (toJSON <$> deadJobs)) false)).
  { intros s ->. unfold DLQManager.sweepDeadToDLQ. run_m.
    cbn [storage_list JsonStorage_IStorage]. rewrite Hlist.
    rewrite <- (json_store_unlock st Hl) at 1.
    rewrite (sweepLoop_json clock deadJobs _ _ 0%nat Hnd), Hfilter. reflexivity. }
  eexists. split; [apply Hrun; reflexivity|]. cbn [jobsFile dlqFile lockFile].
  split; [reflexivity|]. split; [reflexivity|]. split; [reflexivity|].
  unfold DLQManager.sweepDeadToDLQ. run_m.
  cbn [storage_list JsonStorage_IStorage].
  unfold JsonStorage.list_, JsonStorage.readJobs. run_m. cbn [jobsFile].
  rewrite filter_filter_and.
  assert (Hnone : forall l : list JobJSON,
            List.filter (fun x => negb (bool_decide (json_state x = dead)) &&
                                  bool_decide (json_state x = dead)) l = []).
  { induction l as [|x l IH]; [reflexivity|]. cbn.
    destruct (bool_decide (json_state x = dead)); cbn; exact IH. }
  rewrite Hnone. reflexivity.
Qed.

Lemma sweep_moves_every_dead_job_witness :
  let gone := mkJob "a" "X" dead 2 1 0 3010 None None (Some 2) (Some "e2") in
  let kept := mkJob "b" "Y" pending 0 3 0 0 None None (Some 2) None in
  let st := mkJsonStore [toJSON gone; toJSON kept] [] false in
  exists st',
    DLQManager.sweepDeadToDLQ (fun _ => 4000) st = (Ok (length [gone]), st') /\
    jobsFile st' =
      List.filter (fun d => negb (bool_decide (json_state d = dead))) (jobsFile st) /\
    dlqFile st' = dlqFile st ++ (toJSON <$> [gone]) /\
    lockFile st' = false /\
    DLQManager.sweepDeadToDLQ (fun _ => 4000) st' = (Ok 0%nat, st').
Proof.
  intros gone kept st.
  apply (sweep_moves_every_dead_job (fun _ => 4000) st [gone]).
  - reflexivity.
  - vm_compute. apply NoDup_cons. split.
    + intros H. apply list_elem_of_singleton in H. discriminate.
    + apply NoDup_singleton.
  - reflexivity.
Defined.

(** ** Executor: the error excerpt *)

Lemma length_append (s1 s2 : string) :
  String.length (s1 +:+ s2) = (String.length s1 + String.length s2)%nat.
Proof.
  induction s1 as [|c s1 IH]; [reflexivity|].
  change (String c s1 +:+ s2) with (String c (s1 +:+ s2)).
  cbn [String.length Nat.add]. f_equal. exact IH.
Qed.

Lemma length_substring0 (n : nat) (s : string) :
  String.length (String.substring 0 n s) = Nat.min n (String.length s).
Proof.
  revert n. induction s as [|c s IH]; intros n; destruct n; cbn; try reflexivity.
  f_equal. apply IH.
Qed.

Lemma substring0_prefix (n : nat) (s : string) :
  String.prefix (String.substring 0 n s) s = true.
Proof.
  revert n. induction s as [|c s IH]; intros n; destruct n; cbn; try reflexivity.
  destruct (Ascii.ascii_dec c c) as [_|Hne]; [apply IH | contradiction].
Qed.

(** X29.  [truncate] keeps its bound from 3 on.  For [max >= 3] the
    result is never longer than [max]: a string within the bound is
    returned as it is, a longer one is cut to its first [max - 3]
    characters followed by three dots, which makes exactly [max]. *)
Theorem truncate_keeps_its_bound :
  forall (s : string) (max : Z),
    3 <= max ->
    Z.of_nat (String.length (truncate s max)) <= max /\
    (Z.of_nat (String.length s) <= max -> truncate s max = s) /\
    (max < Z.of_nat (String.length s) ->
       exists head,
         truncate s max = head +:+ "..." /\
         String.prefix head s = true /\
         Z.of_nat (String.length head) = max - 3).
Proof.
  intros s max Hmax. unfold truncate.
  destruct (Z.leb_spec (Z.of_nat (String.length s)) max) as [Hle|Hgt].
  - split; [exact Hle|]. split; [reflexivity | lia].
  - assert (Hslice : slice0 s (max - 3) =
                     String.substring 0 (Z.to_nat (max - 3)) s).
    { unfold slice0. destruct (Z.ltb_spec (max - 3) 0) as [Hneg|_]; [lia|].
      rewrite Z.min_l by lia. reflexivity. }
    assert (Hlen : Z.of_nat (String.length (slice0 s (max - 3))) = max - 3).
    { rewrite Hslice, length_substring0. lia. }
    split; [rewrite length_append; cbn [String.length]; lia|].
    split; [lia|]. intros _. exists (slice0 s (max - 3)).
    split; [reflexivity|]. split; [|exact Hlen].
    rewrite Hslice. apply substring0_prefix.
Qed.

Lemma truncate_keeps_its_bound_witness :
  Z.of_nat (String.length (truncate "No such file" 9)) <= 9 /\
  (Z.of_nat (String.length "No such file") <= 9 ->
     truncate "No such file" 9 = "No such file") /\
  (9 < Z.of_nat (String.length "No such file") ->
     exists head,
       truncate "No such file" 9 = head +:+ "..." /\
       String.prefix head "No such file" = true /\
       Z.of_nat (String.length head) = 9 - 3).
Proof.
  apply (truncate_keeps_its_bound "No such file" 9). lia.
Defined.
